(** * vacuum-table: backup of AirTable bases and their attachments

    A shallow embedding of [api/api.go] and [main.go] (the later revision,
    which names downloaded files by attachment identifier, and the file
    naming of the earlier one), and the properties of the extraction and
    download pipeline.

    Conventions.
    - A Go [string] is a sequence of bytes: [string] of 8-bit [ascii].
    - An [int64] is a [Z]; byte counts of files are far below [2^63].
    - A Go [error] is a value of [error]; [nil] is [None].
    - A Go map that the code only looks up or writes is a [gmap]; a Go map
      that the code walks with [range] is the list of its entries in the
      order in which [range] yields them (Go leaves that order unspecified).
    - The file system, the HTTP client and the remote service are explicit:
      the file system is a finite map from paths to contents, and what the
      outside world answers is an argument of the function that asks. *)

From Stdlib Require Import ZArith String Ascii List Lia Bool Permutation.
From stdpp Require Import base option list gmap strings fin_maps sorting.

Set Warnings "-register-all".

Local Open Scope string_scope.
Local Open Scope list_scope.
Local Open Scope Z_scope.

(** ** Errors *)

(** The errors the two packages produce or pass on.  [ErrOpaque] stands for
    an error made by the operating system, the HTTP transport or the JSON
    decoder; [MultiError] is go-multierror's [*multierror.Error]. *)
Inductive error : Type :=
  | ErrNotExist (path : string)
  | ErrOpaque (msg : string)
  | ErrInvalidKey
  | ErrInvalidApp (app : string)
  | ErrInvalidTable (table : string)
  | ErrStatus (code : Z) (status : string)
  | ErrNotDir
  | ErrDownloadMismatch (link : string) (received expected : Z)
  | ErrInvalidSize (link : string) (onDisk expected : Z)
  | MultiError (errs : list error).

(** [os.IsNotExist]. *)
Definition IsNotExist (e : error) : bool :=
  match e with ErrNotExist _ => true | _ => false end.

(** [multierror.Append(err, errs...)] of go-multierror: the result is always
    a [*multierror.Error]; a [nil] first argument starts an empty aggregate,
    a first argument that is already an aggregate is extended, any other
    error becomes its first element; an appended aggregate is flattened. *)
Definition multierror_flatten (e : error) : list error :=
  match e with MultiError es => es | _ => [e] end.

Definition multierror_Append (err : option error) (new : error) : error :=
  match err with
  | None => MultiError (multierror_flatten new)
  | Some (MultiError es) => MultiError (es ++ multierror_flatten new)
  | Some e => MultiError (e :: multierror_flatten new)
  end.

(** ** JSON values *)

(** A finite IEEE-754 binary64 number, [mant * 2^expo].  [encoding/json]
    decodes every JSON number held in an [interface{}] to a finite
    [float64]. *)
Record float64 : Type := Float64 { mant : Z; expo : Z }.

Definition is_float64 (f : float64) : Prop :=
  Z.abs (mant f) < 2 ^ 53 ∧ -1074 ≤ expo f ≤ 971.

(** Comparison [==] of two finite floats: by value. *)
Definition float64_eqb (a b : float64) : bool :=
  let e := Z.min (expo a) (expo b) in
  (mant a * 2 ^ (expo a - e) =? mant b * 2 ^ (expo b - e)).

Definition MinInt64 : Z := - 2 ^ 63.
Definition MaxInt64 : Z := 2 ^ 63 - 1.

(** The conversion [int64(f)]: the fraction is discarded (truncation towards
    zero).  For a value outside the range of [int64] Go leaves the result to
    the implementation; on amd64 it is [MinInt64]. *)
Definition float64_trunc (f : float64) : Z :=
  if 0 <=? expo f then mant f * 2 ^ expo f
  else Z.quot (mant f) (2 ^ (- expo f)).

Definition int64_of_float64 (f : float64) : Z :=
  let v := float64_trunc f in
  if (MinInt64 <=? v) && (v <=? MaxInt64) then v else MinInt64.

(** The conversion [float64(n)] of an [int64]: exact below [2^53] in
    magnitude, rounded to 53 significant bits (to nearest, ties to even)
    above. *)
Definition float64_of_int64 (n : Z) : float64 :=
  let a := Z.abs n in
  if a <? 2 ^ 53 then Float64 n 0
  else
    let k := Z.log2 a - 52 in
    let q := a / 2 ^ k in
    let r := a mod 2 ^ k in
    let half := 2 ^ (k - 1) in
    let q' := if (half <? r) || ((r =? half) && Z.odd q) then q + 1 else q in
    Float64 (Z.sgn n * q') k.

(** What [encoding/json] stores in an [interface{}]: [nil], [bool],
    [float64], [string], [[]interface{}] and [map[string]interface{}]. *)
Inductive value : Type :=
  | VNil
  | VBool (b : bool)
  | VNum (f : float64)
  | VStr (s : string)
  | VArr (items : list value)
  | VMap (m : gmap string value).

(** ** Package [api] *)

Module api.

(** One test of the loop of [IsAirTableId]: the byte is a digit, a lower-case
    or an upper-case letter. *)
Definition byte_between (lo c hi : ascii) : bool :=
  Ascii.leb lo c && Ascii.leb c hi.

Definition rejected_byte (c : ascii) : bool :=
  negb (byte_between "0" c "9") && negb (byte_between "a" c "z")
  && negb (byte_between "A" c "Z").

Fixpoint all_bytes_accepted (name : string) : bool :=
  match name with
  | EmptyString => true
  | String c rest => if rejected_byte c then false else all_bytes_accepted rest
  end.

Definition IsAirTableId (name : string) : bool :=
  if negb (Nat.eqb (String.length name) 17) then false
  else all_bytes_accepted name.

Record Record_ : Type := mkRecord {
  Id : string;
  CreatedTime : string;
  Fields : list (string * value)   (* a Go map, in [range] order *)
}.

Record ListRecordsReply : Type := mkReply {
  Records : list Record_;
  Offset : string
}.

(** The request [ListRecordsPage] builds: the URL and the [Authorization]
    header. *)
Record Request : Type := mkRequest {
  req_url : string;
  req_authorization : string
}.

(** What the exchange gives back: [http.NewRequest] or [Client.Do] fails, or
    a response arrives with a status and a body that the strict decoder
    ([DisallowUnknownFields]) accepts or refuses. *)
Inductive HttpOutcome : Type :=
  | HttpFail (msg : string)
  | HttpResponse (StatusCode : Z) (Status : string)
      (decoded : string + ListRecordsReply).

(** The HTTP client: the answer to a request, which may depend on how many
    requests the listing has made before (the remote changes over time). *)
Definition Client : Type := nat → Request → HttpOutcome.

Record Config : Type := mkConfig { BearerToken : string }.

Record Clerk : Type := mkClerk {
  clerk_Config : Config;
  App : string;
  clerk_Client : Client
}.

Definition NewClerk (app : string) (config : Config) (client : Client) : Clerk :=
  {| App := app; clerk_Config := config; clerk_Client := client |}.

(** [ListRecordsPage]; [n] is the number of requests made before this one. *)
Definition ListRecordsPage (c : Clerk) (n : nat) (table offset : string)
  : error + ListRecordsReply :=
  let token := BearerToken (clerk_Config c) in
  if negb (String.prefix "key" token) || negb (IsAirTableId token) then
    inl ErrInvalidKey
  else if negb (IsAirTableId (App c)) then inl (ErrInvalidApp (App c))
  else if negb (IsAirTableId table) then inl (ErrInvalidTable table)
  else
    let suffix := if String.eqb offset "" then "" else "?offset=" +:+ offset in
    let req :=
      {| req_url := "https://api.airtable.com/v0/" +:+ App c +:+ "/" +:+ table +:+ suffix;
         req_authorization := "Bearer " +:+ token |} in
    match clerk_Client c n req with
    | HttpFail msg => inl (ErrOpaque msg)
    | HttpResponse code status decoded =>
        if negb (code =? 200) then inl (ErrStatus code status)
        else
          match decoded with
          | inl msg => inl (ErrOpaque msg)
          | inr result => inr result
          end
    end.

(** The loop of [ListRecordsAll].  It ends only when a page comes back with
    an empty offset or a request fails, so it runs on fuel; [None] says the
    fuel ran out (the Go loop would still be running). *)
Fixpoint ListRecordsAll_loop (fuel : nat) (c : Clerk) (table : string)
    (n : nat) (records : list Record_) (offset : string)
  : option (error + list Record_) :=
  match fuel with
  | O => None
  | S fuel' =>
      match ListRecordsPage c n table offset with
      | inl err => Some (inl err)
      | inr reply =>
          let records := records ++ Records reply in
          if String.eqb (Offset reply) "" then Some (inr records)
          else ListRecordsAll_loop fuel' c table (S n) records (Offset reply)
      end
  end.

Definition ListRecordsAll (fuel : nat) (c : Clerk) (table : string)
  : option (error + list Record_) :=
  ListRecordsAll_loop fuel c table 0%nat [] "".

End api.

(** ** Package [main] *)

Import api.

(** *** Panics *)

(** The ways the program aborts: a failed type assertion
    ([interface conversion]), the explicit calls of [panic], and the fatal
    error [concurrent map writes] of the runtime. *)
Inductive panic : Type :=
  | PanicInterfaceConversion
  | PanicUnexpectedPrefix (str prefix : string)
  | PanicInvalidAttachmentID
  | PanicInvalidSize
  | PanicInvalidIDFormat
  | FatalConcurrentMapWrites.

(** A computation that returns or panics. *)
Inductive result (A : Type) : Type :=
  | Return (a : A)
  | Panic (p : panic).
Arguments Return {A} a.
Arguments Panic {A} p.

#[global] Instance result_bind : MBind result :=
  fun A B k r =>
    match r with
    | Return a => k a
    | Panic p => Panic p
    end.

(** A [for _, x := range l] loop whose body updates the state [s] or
    panics. *)
Fixpoint for_range {A S : Type} (l : list A) (body : A → S → result S) (s : S)
  : result S :=
  match l with
  | [] => Return s
  | x :: rest => s' ← body x s; for_range rest body s'
  end.

(** *** Configuration *)

Record Config : Type := mkMainConfig {
  api_Config : api.Config;
  Tables : gmap string (list string)
}.

(** *** The extraction coordinator *)

(** [clerk.ListRecordsAll(table)] as the worker of source [app] sees it when
    it lists the [j]-th table of its list: the records, an error, or [None]
    when the call never returns. *)
Definition Lister : Type :=
  string → nat → string → option (error + list Record_).

(** The lister that [ExtractAllTables] builds, [NewClerk(app, config.Config,
    client)] followed by [ListRecordsAll]; [client app j] is what the shared
    HTTP client answers during that listing. *)
Definition clerk_lister (fuel : nat) (config : Config)
    (client : string → nat → Client) : Lister :=
  fun app j table =>
    ListRecordsAll fuel (NewClerk app (api_Config config) (client app j)) table.

(** The state the goroutines share, and their own.  [running] holds the
    workers that have not yet called [wg.Done], each with the index of the
    table it lists next and the tables its [range] loop has still to visit;
    [errChan] is the buffered channel, oldest message first; [writing] is the
    worker that is inside the assignment [outputMap[table] = records], with
    the records it assigns. *)
Record Coord : Type := mkCoord {
  running : gmap string (nat * list string);
  outputMap : gmap string (list Record_);
  errChan : list error;
  writing : option (string * list Record_)
}.

(** After the [for app, tables := range config.Tables] loop has started one
    goroutine per source. *)
Definition spawn (config : Config) : Coord :=
  {| running := (fun tables => (0%nat, tables)) <$> Tables config;
     outputMap := ∅;
     errChan := [];
     writing := None |}.

(** The goroutine of [app] lists its [j]-th table: after an error it sends
    the error and ends; after a success it enters the assignment
    [outputMap[table] = records].  No lock guards the map: a goroutine that
    enters the assignment while another one is inside makes two writes to
    one map overlap, which Go does not define and which its runtime answers,
    when it notices, with the fatal error [concurrent map writes]; the model
    takes that outcome.  Assignments that do not overlap are taken to
    succeed, as they do in the implementation, although nothing orders them.
    The progress line written to the standard error is left out.  [None]: the goroutine cannot move (its listing does not
    return, or its send would block on a full channel of capacity
    [len(config.Tables)]). *)
Definition worker_lists (lister : Lister) (config : Config) (app : string)
    (j : nat) (table : string) (st : Coord) : option (result Coord) :=
  match lister app j table with
  | None => None
  | Some (inl err) =>
      if decide (length (errChan st) < size (Tables config))%nat then
        Some (Return {| running := delete app (running st);
                        outputMap := outputMap st;
                        errChan := errChan st ++ [err];
                        writing := writing st |})
      else None
  | Some (inr records) =>
      match writing st with
      | Some _ => Some (Panic FatalConcurrentMapWrites)
      | None =>
          Some (Return {| running := running st;
                          outputMap := outputMap st;
                          errChan := errChan st;
                          writing := Some (app, records) |})
      end
  end.

(** One step of the goroutine of [app]: inside its assignment to
    [outputMap] it completes it and goes on to its next table; otherwise it
    lists its next table, or leaves its loop and calls [wg.Done].
    Statements of different goroutines interleave, and the assignment to the
    map takes two steps.  A goroutine that has ended does nothing. *)
Definition worker_step (lister : Lister) (config : Config) (app : string)
    (st : Coord) : option (result Coord) :=
  match running st !! app with
  | None => Some (Return st)
  | Some (j, []) =>
      Some (Return {| running := delete app (running st);
                      outputMap := outputMap st;
                      errChan := errChan st;
                      writing := writing st |})
  | Some (j, table :: rest) =>
      match writing st with
      | Some (writer, records) =>
          if decide (writer = app) then
            Some (Return {| running := <[app := (S j, rest)]> (running st);
                            outputMap := <[table := records]> (outputMap st);
                            errChan := errChan st;
                            writing := None |})
          else worker_lists lister config app j table st
      | None => worker_lists lister config app j table st
      end
  end.

(** A schedule names the goroutine that moves at each step.  After the
    fatal error nothing moves any more. *)
Fixpoint run (lister : Lister) (config : Config) (sched : list string)
    (st : Coord) : option (result Coord) :=
  match sched with
  | [] => Some (Return st)
  | app :: sched' =>
      match worker_step lister config app st with
      | Some (Return st') => run lister config sched' st'
      | Some (Panic p) => Some (Panic p)
      | None => None
      end
  end.

(** The loop [for err := range errChan] after [close(errChan)]. *)
Definition drain (errChan : list error) : option error :=
  foldl (fun allErrors err => Some (multierror_Append allErrors err)) None errChan.

(** [ExtractAllTables] under a schedule of its goroutines.  [wg.Wait]
    returns once every worker has called [wg.Done]; [None]: under this
    schedule the function has not returned. *)
Definition ExtractAllTables (lister : Lister) (config : Config)
    (sched : list string)
  : option (result (error + gmap string (list Record_))) :=
  match run lister config sched (spawn config) with
  | Some (Return st) =>
      if decide (running st = ∅) then
        match drain (errChan st) with
        | Some allErrors => Some (Return (inl allErrors))
        | None => Some (Return (inr (outputMap st)))
        end
      else None
  | Some (Panic p) => Some (Panic p)
  | None => None
  end.

(** What one worker does on its own, from its [j]-th table on: the error
    that ends its loop, if any. *)
Fixpoint worker_error (lister : Lister) (app : string) (j : nat)
    (tables : list string) : option error :=
  match tables with
  | [] => None
  | table :: rest =>
      match lister app j table with
      | Some (inl err) => Some err
      | _ => worker_error lister app (S j) rest
      end
  end.

(** The errors of the sources whose worker fails. *)
Definition failed_errors (lister : Lister) (config : Config) : list error :=
  omap (fun '(app, tables) => worker_error lister app 0 tables)
       (map_to_list (Tables config)).

(** The schedule that runs the workers one after the other, each to its
    end: two steps for every table and one for [wg.Done]. *)
Definition sequential_schedule (config : Config) : list string :=
  '(app, tables) ← map_to_list (Tables config);
  replicate (S (2 * length tables)) app.

(** *** The attachment extractor *)

Definition AttachmentLinkPrefix : string := "https://v5.airtableusercontent.com/".

Record Attachment : Type := mkAttachment {
  Link : string;
  att_Id : string;
  Size : Z
}.

(** [ExtractAttachment]: the pair [(found, attachment)], or a panic.  A type
    assertion [x.(T)] panics when the dynamic type of [x] is not [T]; a key
    that is missing from the map reads as the [nil] interface, which no
    assertion accepts. *)
Definition ExtractAttachment (itemMap : gmap string value)
  : result (bool * Attachment) :=
  match itemMap !! "url" with
  | Some url =>
      match url with
      | VStr urlStr =>
          if negb (String.prefix AttachmentLinkPrefix urlStr) then
            Panic (PanicUnexpectedPrefix urlStr AttachmentLinkPrefix)
          else
            match itemMap !! "id" with
            | Some (VStr idStr) =>
                if negb (IsAirTableId idStr) || negb (String.prefix "att" idStr)
                then Panic PanicInvalidAttachmentID
                else
                  match itemMap !! "size" with
                  | Some (VNum size) =>
                      if negb (float64_eqb size
                                 (float64_of_int64 (int64_of_float64 size)))
                      then Panic PanicInvalidSize
                      else
                        Return (true, {| Link := urlStr;
                                         att_Id := idStr;
                                         Size := int64_of_float64 size |})
                  | _ => Panic PanicInterfaceConversion
                  end
            | _ => Panic PanicInterfaceConversion
            end
      | _ => Panic PanicInterfaceConversion
      end
  | None => Return (false, {| Link := ""; att_Id := ""; Size := 0 |})
  end.

(** The body of the innermost loop of [ExtractAttachments]. *)
Definition scan_item (item : value) (attachments : list Attachment)
  : result (list Attachment) :=
  match item with
  | VMap itemMap =>
      '(found, attachment) ← ExtractAttachment itemMap;
      if found : bool then Return (attachments ++ [attachment])
      else Return attachments
  | _ => Return attachments
  end.

Definition scan_value (value : value) (attachments : list Attachment)
  : result (list Attachment) :=
  match value with
  | VArr contents => for_range contents scan_item attachments
  | _ => Return attachments
  end.

(** [ExtractAttachments]; [tables] and the [Fields] of each record are the
    entries of the Go maps in the order in which [range] yields them. *)
Definition ExtractAttachments (tables : list (string * list Record_))
  : result (list Attachment) :=
  for_range tables (fun '(_, table) attachments =>
    for_range table (fun record attachments =>
      for_range (Fields record) (fun '(_, value) attachments =>
        scan_value value attachments) attachments) attachments) [].

(** The descriptor candidates of [tables], in the order in which the loops
    meet them: the mappings with a [url] key inside a sequence-valued
    field. *)
Definition candidates_of_value (v : value) : list (gmap string value) :=
  match v with
  | VArr contents =>
      omap (fun item =>
              match item with
              | VMap itemMap =>
                  match itemMap !! "url" with
                  | Some _ => Some itemMap
                  | None => None
                  end
              | _ => None
              end) contents
  | _ => []
  end.

Definition candidates (tables : list (string * list Record_))
  : list (gmap string value) :=
  '(_, table) ← tables;
  record ← table;
  '(_, v) ← Fields record;
  candidates_of_value v.

(** Two lists of entries that [range] may yield for one and the same map. *)
Definition same_fields (r1 r2 : Record_) : Prop :=
  Id r1 = Id r2 ∧ CreatedTime r1 = CreatedTime r2 ∧ Fields r1 ≡ₚ Fields r2.

Definition same_tables (t1 t2 : list (string * list Record_)) : Prop :=
  ∃ t, t1 ≡ₚ t ∧
       Forall2 (fun e e' => e.1 = e'.1 ∧ Forall2 same_fields e.2 e'.2) t t2.

(** *** The attachment downloader *)

(** What the program does to the outside world, in order. *)
Inductive Event : Type :=
  | EvGet (attachment : Attachment)
  | EvCreate (path : string)
  | EvCopy (path : string) (written : Z)
  | EvClose (path : string)
  | EvRename (oldpath newpath : string)
  | EvRemove (path : string)
  | EvBodyClose (link : string)
  | EvProgress (i total : nat) (link filename : string) (size : Z).

(** The files (path to contents) and the trace of events so far. *)
Record World : Type := mkWorld {
  files : gmap string (list Byte.byte);
  trace : list Event
}.

Definition emit (ev : Event) (w : World) : World :=
  {| files := files w; trace := trace w ++ [ev] |}.

Definition set_files (f : gmap string (list Byte.byte)) (w : World) : World :=
  {| files := f; trace := trace w |}.

(** The elements of a path: the strings between its separators. *)
Fixpoint path_elements (path : string) : list string :=
  match path with
  | EmptyString => [EmptyString]
  | String c rest =>
      if Ascii.eqb c "/" then EmptyString :: path_elements rest
      else
        match path_elements rest with
        | e :: es => String c e :: es
        | [] => [String c EmptyString]
        end
  end.

(** What [path.Clean] does with one element, given the elements it has kept
    so far, the last one first: an empty element and [.] are dropped; [..]
    takes away the element before it, is dropped at the root, and is kept
    where nothing but [..] elements come before it. *)
Definition clean_element (rooted : bool) (kept : list string) (e : string)
  : list string :=
  if String.eqb e "" || String.eqb e "." then kept
  else if String.eqb e ".." then
    match kept with
    | top :: below => if String.eqb top ".." then e :: kept else below
    | [] => if rooted then [] else [e]
    end
  else e :: kept.

(** [path.Clean] of the standard library: the shortest path that names the
    same file by purely lexical processing. *)
Definition path_Clean (path : string) : string :=
  let rooted := String.prefix "/" path in
  let kept := foldl (clean_element rooted) [] (path_elements path) in
  let joined := String.concat "/" (rev kept) in
  if rooted then "/" +:+ joined
  else if String.eqb joined "" then "." else joined.

(** [path.Join(dir, name)] for a [name] that is one path element, which the
    identifiers and their [TEMP.] forms are: [path.Join] cleans the path
    [dir/name], which leaves the cleaned directory, one separator and the
    name; an empty directory is ignored. *)
Definition path_Join (dir name : string) : string :=
  let dir := path_Clean dir in
  if String.eqb dir "." then name
  else if String.eqb dir "/" then "/" +:+ name
  else dir +:+ "/" +:+ name.

(** The response of [client.Get]: the bytes [io.Copy] moves to the file
    before it stops, and the error it stops with, if any. *)
Record Response : Type := mkResponse {
  Body : list Byte.byte;
  copy_err : option string
}.

(** What the outside world does during one call of [DownloadAttachment]:
    each field is the outcome of one call, [Some msg] being its failure. *)
Record DlEnv : Type := mkDlEnv {
  client_Get : string + Response;
  create_err : option string;
  close_err : option string;
  rename_err : option string;
  remove_err : option string;
  body_close_err : option string
}.

Definition opaque (o : option string) : option error := ErrOpaque <$> o.

(** [os.Create]: the file is created or truncated. *)
Definition os_Create (env : DlEnv) (path : string) (w : World)
  : World * option error :=
  let w := emit (EvCreate path) w in
  match create_err env with
  | Some msg => (w, Some (ErrOpaque msg))
  | None => (set_files (<[path := []]> (files w)) w, None)
  end.

(** [io.Copy(output, resp.Body)]: the bytes that arrived are in the file. *)
Definition io_Copy (path : string) (resp : Response) (w : World)
  : World * (Z * option error) :=
  let size := Z.of_nat (length (Body resp)) in
  let w := emit (EvCopy path size) w in
  (set_files (<[path := Body resp]> (files w)) w, (size, opaque (copy_err resp))).

Definition file_Close (env : DlEnv) (path : string) (w : World)
  : World * option error :=
  (emit (EvClose path) w, opaque (close_err env)).

(** [os.Rename]: on success the file is at [newpath] and no longer at
    [oldpath]; on failure nothing has moved. *)
Definition os_Rename (env : DlEnv) (oldpath newpath : string) (w : World)
  : World * option error :=
  let w := emit (EvRename oldpath newpath) w in
  match rename_err env with
  | Some msg => (w, Some (ErrOpaque msg))
  | None =>
      match files w !! oldpath with
      | Some content =>
          (set_files (delete oldpath (<[newpath := content]> (files w))) w, None)
      | None => (w, Some (ErrNotExist oldpath))
      end
  end.

(** [os.Remove]: on failure the file stays. *)
Definition os_Remove (env : DlEnv) (path : string) (w : World)
  : World * option error :=
  let w := emit (EvRemove path) w in
  match remove_err env with
  | Some msg => (w, Some (ErrOpaque msg))
  | None => (set_files (delete path (files w)) w, None)
  end.

(** [errOut = multierror.Append(errOut, err)] when [err != nil]. *)
Definition append_if (errOut err : option error) : option error :=
  match err with
  | Some e => Some (multierror_Append errOut e)
  | None => errOut
  end.

(** The statements of [DownloadAttachment] between the second [defer] and the
    [return]: the value returned and the flags [needsClose] and
    [needsRemove] as the deferred function finds them. *)
Definition download_body (env : DlEnv) (attachment : Attachment)
    (tempPath outputPath : string) (resp : Response) (w : World)
  : World * (option error * bool * bool) :=
  let '(w, (size, err)) := io_Copy tempPath resp w in
  match err with
  | Some err => (w, (Some err, true, true))
  | None =>
      if negb (size =? Size attachment) then
        (w, (Some (ErrDownloadMismatch (Link attachment) size (Size attachment)),
             true, true))
      else
        let '(w, err) := file_Close env tempPath w in
        match err with
        | Some err => (w, (Some err, false, true))
        | None =>
            let '(w, err) := os_Rename env tempPath outputPath w in
            match err with
            | Some err => (w, (Some err, false, true))
            | None => (w, (None, false, false))
            end
        end
  end.

(** The second deferred function: close and remove what is left. *)
Definition deferred_cleanup (env : DlEnv) (tempPath : string)
    (needsClose needsRemove : bool) (errOut : option error) (w : World)
  : World * option error :=
  let '(w, errOut) :=
    if needsClose then
      let '(w, err) := file_Close env tempPath w in (w, append_if errOut err)
    else (w, errOut) in
  if needsRemove then
    let '(w, err) := os_Remove env tempPath w in (w, append_if errOut err)
  else (w, errOut).

Definition DownloadAttachment (env : DlEnv) (attachment : Attachment)
    (outputDir outputFilename : string) (w : World) : World * option error :=
  let w := emit (EvGet attachment) w in
  match client_Get env with
  | inl msg => (w, Some (ErrOpaque msg))
  | inr resp =>
      let tempPath := path_Join outputDir ("TEMP." +:+ outputFilename) in
      let outputPath := path_Join outputDir outputFilename in
      let '(w, errOut) :=
        let '(w, err) := os_Create env tempPath w in
        match err with
        | Some err => (w, Some err)
        | None =>
            let '(w, (errOut, needsClose, needsRemove)) :=
              download_body env attachment tempPath outputPath resp w in
            deferred_cleanup env tempPath needsClose needsRemove errOut w
        end in
      (* the first deferred function *)
      let w := emit (EvBodyClose (Link attachment)) w in
      (w, append_if errOut (opaque (body_close_err env)))
  end.

(** What the outside world does during one call of [DownloadAttachments]:
    the outcome of [os.Stat(downloadDir)] (a failure, or [IsDir]), and for
    the [i]-th attachment of the sorted list a failure of [os.Stat] other
    than the absence of the file, and the course of its download. *)
Record RunEnv : Type := mkRunEnv {
  dir_stat : string + bool;
  stat_fault : nat → option string;
  download_env : nat → DlEnv
}.

(** [os.Stat(path)] on a regular file: its size, or the error. *)
Definition os_Stat (fault : option string) (path : string) (w : World)
  : error + Z :=
  match fault with
  | Some msg => inl (ErrOpaque msg)
  | None =>
      match files w !! path with
      | Some content => inr (Z.of_nat (length content))
      | None => inl (ErrNotExist path)
      end
  end.

(** [sort.Slice(x, less)]; the order of elements that [less] does not
    separate is not specified by Go. *)
Definition not_less {A : Type} (less : A → A → bool) (a b : A) : Prop :=
  less b a = false.

#[global] Instance not_less_dec {A : Type} (less : A → A → bool) :
  RelDecision (not_less less).
Proof. intros a b. unfold not_less. apply _. Defined.

Definition sort_Slice {A : Type} (less : A → A → bool) (x : list A) : list A :=
  merge_sort (not_less less) x.

(** The loop of [DownloadAttachments] from index [i] on; [total] is
    [len(attachments)]. *)
Fixpoint download_loop (env : RunEnv) (total i : nat)
    (attachments : list Attachment) (downloadDir : string) (w : World)
  : World * result (option error) :=
  match attachments with
  | [] => (w, Return None)
  | attachment :: rest =>
      let downloadFilename := att_Id attachment in
      if negb (IsAirTableId downloadFilename) then (w, Panic PanicInvalidIDFormat)
      else
        match os_Stat (stat_fault env i) (path_Join downloadDir downloadFilename) w with
        | inl err =>
            if IsNotExist err then
              let '(w, err) :=
                DownloadAttachment (download_env env i) attachment downloadDir
                  downloadFilename w in
              match err with
              | Some err => (w, Return (Some err))
              | None =>
                  let w :=
                    emit (EvProgress (S i) total (Link attachment)
                            downloadFilename (Size attachment)) w in
                  download_loop env total (S i) rest downloadDir w
              end
            else (w, Return (Some err))
        | inr size =>
            if negb (size =? Size attachment) then
              (w, Return (Some (ErrInvalidSize (Link attachment) size
                                  (Size attachment))))
            else download_loop env total (S i) rest downloadDir w
        end
  end.

Definition DownloadAttachments (env : RunEnv) (attachments : list Attachment)
    (downloadDir : string) (w : World) : World * result (option error) :=
  match dir_stat env with
  | inl msg => (w, Return (Some (ErrOpaque msg)))
  | inr isDir =>
      if negb isDir then (w, Return (Some ErrNotDir))
      else
        let attachments :=
          sort_Slice (fun a b => String.ltb (att_Id a) (att_Id b)) attachments in
        download_loop env (length attachments) 0 attachments downloadDir w
  end.

(** The number of requests the trace holds for attachments named [id]. *)
Definition is_get_of (id : string) (ev : Event) : bool :=
  match ev with
  | EvGet a => String.eqb (att_Id a) id
  | _ => false
  end.

Definition gets_of (id : string) (tr : list Event) : nat :=
  length (List.filter (is_get_of id) tr).

(** *** The backup writer *)

(** [multierror.Append(err, errs...)] with several errors to append: the
    [nil] ones among [errs] are skipped. *)
Definition multierror_Append_all (err : option error)
    (errs : list (option error)) : error :=
  MultiError (from_option multierror_flatten [] err
              ++ (omap id errs ≫= multierror_flatten)).

Record Backup : Type := mkBackup {
  b_Config : gmap string (list string);
  b_Tables : gmap string (list Record_);
  b_Attachments : list Attachment
}.

(** What the outside world does during one call of [Save]: the bytes the
    indenting JSON encoder produces for a backup, a failure of [os.Create],
    a failure of the encoder's write after so many bytes, a failure of
    [Close] and a failure of [os.Remove]. *)
Record SaveEnv : Type := mkSaveEnv {
  json_Encode : Backup → list Byte.byte;
  save_create_err : option string;
  write_fault : option (nat * string);
  save_close_err : option string;
  save_remove_err : option string
}.

(** [os.Remove(outputPath)] inside [Save]. *)
Definition save_Remove (env : SaveEnv) (outputPath : string) (w : World)
  : World * option error :=
  match save_remove_err env with
  | Some msg => (w, Some (ErrOpaque msg))
  | None => (set_files (delete outputPath (files w)) w, None)
  end.

(** The method [Save] of [Backup].  The operations on the backup file are not put on the
    trace, which follows the downloader. *)
Definition Save (env : SaveEnv) (b : Backup) (outputPath : string) (w : World)
  : World * option error :=
  match save_create_err env with
  | Some msg => (w, Some (ErrOpaque msg))
  | None =>
      let w := set_files (<[outputPath := []]> (files w)) w in
      match write_fault env with
      | Some (n, msg) =>
          let w := set_files (<[outputPath := take n (json_Encode env b)]> (files w)) w in
          let closed := opaque (save_close_err env) in
          let '(w, removed) := save_Remove env outputPath w in
          (w, Some (multierror_Append_all (Some (ErrOpaque msg)) [closed; removed]))
      | None =>
          let w := set_files (<[outputPath := json_Encode env b]> (files w)) w in
          match save_close_err env with
          | Some msg =>
              let '(w, removed) := save_Remove env outputPath w in
              (w, Some (multierror_Append_all (Some (ErrOpaque msg)) [removed]))
          | None => (w, None)
          end
      end
  end.

(** *** The pipeline *)

(** What the outside world does during one call of [Main]: the outcome of
    [loadConfig], the answers of the remote to the listings, the fuel of the
    listings and the schedule of the workers, the order in which [range]
    yields the entries of the map of tables, and the worlds of [Save] and of
    [DownloadAttachments]. *)
Record MainEnv : Type := mkMainEnv {
  loadConfig : string → string + Config;
  http_client : string → nat → Client;
  listing_fuel : nat;
  schedule : list string;
  range_order : gmap string (list Record_) → list (string * list Record_);
  save_env : SaveEnv;
  run_env : RunEnv
}.

(** [Main]; [None]: [ExtractAllTables] has not returned. *)
Definition Main (env : MainEnv) (configPath outputPath downloadPath : string)
    (w : World) : option (World * result (option error)) :=
  match loadConfig env configPath with
  | inl msg => Some (w, Return (Some (ErrOpaque msg)))
  | inr config =>
      r ← ExtractAllTables
             (clerk_lister (listing_fuel env) config (http_client env))
             config (schedule env);
      match r with
      | Panic p => Some (w, Panic p)
      | Return (inl err) => Some (w, Return (Some err))
      | Return (inr tables) =>
          match ExtractAttachments (range_order env tables) with
          | Panic p => Some (w, Panic p)
          | Return attachments =>
              let backup := {| b_Config := Tables config;
                               b_Tables := tables;
                               b_Attachments := attachments |} in
              let '(w, err) := Save (save_env env) backup outputPath w in
              match err with
              | Some err => Some (w, Return (Some err))
              | None =>
                  Some (DownloadAttachments (run_env env) attachments
                          downloadPath w)
              end
          end
      end
  end.

(** ** The earlier revision of [main.go] *)

(** The earlier revision names a downloaded file after its link. *)
Module rev1.

Definition AttachmentLinkPrefix : string :=
  "https://dl.airtable.com/.attachments/".

(** [s[n:]]. *)
Fixpoint string_drop (n : nat) (s : string) : string :=
  match n, s with
  | O, _ => s
  | S n', String _ rest => string_drop n' rest
  | S _, EmptyString => EmptyString
  end.

(** [strings.ReplaceAll(s, old, new)] for an [old] of one byte. *)
Fixpoint ReplaceAll_byte (s : string) (old : ascii) (new : string) : string :=
  match s with
  | EmptyString => EmptyString
  | String c rest =>
      if Ascii.eqb c old then new +:+ ReplaceAll_byte rest old new
      else String c (ReplaceAll_byte rest old new)
  end.

(** [AttachmentFilename]; [None]: the function panics. *)
Definition AttachmentFilename (link : string) : option string :=
  if negb (String.prefix AttachmentLinkPrefix link) then None
  else
    let link := string_drop (String.length AttachmentLinkPrefix) link in
    let link := ReplaceAll_byte link "_" "__" in
    let link := ReplaceAll_byte link "/" "_" in
    Some link.

End rev1.

(** ** Notions used to state the properties *)

(** The ASCII letters and digits. *)
Definition alphanumerics : string :=
  "0123456789abcdefghijklmnopqrstuvwxyzABCDEFGHIJKLMNOPQRSTUVWXYZ".

Definition is_ascii_alnum (c : ascii) : Prop :=
  In c (list_ascii_of_string alphanumerics).

Definition is_ascii_alnumb (c : ascii) : bool :=
  existsb (Ascii.eqb c) (list_ascii_of_string alphanumerics).

(** A byte of a multi-byte UTF-8 sequence: its high bit is set. *)
Definition is_non_ascii (c : ascii) : Prop := (128 <= N_of_ascii c)%N.

(** The Record Fetcher serves [pages], one after the other, from request
    number [n] on, when that request carries [offset]. *)
Fixpoint serves (c : Clerk) (table : string) (n : nat) (offset : string)
    (pages : list ListRecordsReply) : Prop :=
  match pages with
  | [] => True
  | p :: rest =>
      ListRecordsPage c n table offset = inr p
      ∧ serves c table (S n) (Offset p) rest
  end.

(** The continuation token in hand after [pages], starting from [offset]. *)
Definition last_offset (offset : string) (pages : list ListRecordsReply) : string :=
  foldl (fun _ p => Offset p) offset pages.

(** The value of the float [f] is the integer [n]. *)
Definition float64_value_is (f : float64) (n : Z) : Prop :=
  if decide (0 ≤ expo f) then mant f * 2 ^ expo f = n
  else mant f = n * 2 ^ (- expo f).

(** The three type assertions of [ExtractAttachment] hold for [itemMap]. *)
Definition well_typed_candidate (itemMap : gmap string value) : Prop :=
  (∃ s, itemMap !! "url" = Some (VStr s))
  ∧ (∃ s, itemMap !! "id" = Some (VStr s))
  ∧ (∃ f, itemMap !! "size" = Some (VNum f)).

(** The download fails on its way from the response to the final path: a
    transport error in the body, a byte count that differs from the declared
    size, a failure to close the temporary file, or a failure to rename
    it. *)
Definition fails_on_path (env : DlEnv) (attachment : Attachment)
    (resp : Response) : Prop :=
  copy_err resp ≠ None
  ∨ Z.of_nat (length (Body resp)) ≠ Size attachment
  ∨ close_err env ≠ None
  ∨ rename_err env ≠ None.

(** The events of a download that meets no failure. *)
Definition clean_download_events (attachment : Attachment)
    (outputDir outputFilename : string) : list Event :=
  let tempPath := path_Join outputDir ("TEMP." +:+ outputFilename) in
  let outputPath := path_Join outputDir outputFilename in
  [ EvGet attachment; EvCreate tempPath; EvCopy tempPath (Size attachment);
    EvClose tempPath; EvRename tempPath outputPath;
    EvBodyClose (Link attachment) ].

(** The attachment of a candidate, when [ExtractAttachment] returns one. *)
Definition attachment_of (c : gmap string value) : option Attachment :=
  match ExtractAttachment c with
  | Return (_, a) => Some a
  | Panic _ => None
  end.

(** The candidates are turned into attachments one by one, the first panic
    ending the scan. *)
Definition scan_candidates (cs : list (gmap string value))
    (attachments : list Attachment) : result (list Attachment) :=
  for_range cs (fun c attachments =>
                  r ← ExtractAttachment c; Return (attachments ++ [r.2]))
    attachments.

(** What holds of the shared state at every moment of a run.  A running
    worker has listed the tables before its index without error and their
    keys are in the map; the channel holds the errors of the workers that
    have ended, whose tables are all in the map when they ended without
    error; every entry of the map is what some worker's listing returned;
    the channel has room for one message of every running worker; and the
    worker inside the assignment to the map is running and assigns what the
    listing of its current table returned. *)
Record coord_inv (lister : Lister) (config : Config) (st : Coord) : Prop := {
  inv_running :
    ∀ app j rest,
      running st !! app = Some (j, rest) →
      ∃ tables seen,
        Tables config !! app = Some tables
        ∧ tables = seen ++ rest ∧ j = length seen
        ∧ worker_error lister app 0 tables = worker_error lister app j rest
        ∧ ∀ t, t ∈ seen → is_Some (outputMap st !! t);
  inv_finished :
    ∃ fin : gmap string (list string),
      (∀ app tables,
         fin !! app = Some tables
         ↔ Tables config !! app = Some tables ∧ running st !! app = None)
      ∧ errChan st
        ≡ₚ omap (fun '(app, tables) => worker_error lister app 0 tables)
             (map_to_list fin)
      ∧ ∀ app tables t,
          fin !! app = Some tables →
          worker_error lister app 0 tables = None →
          t ∈ tables → is_Some (outputMap st !! t);
  inv_output :
    ∀ t records,
      outputMap st !! t = Some records →
      ∃ app tables j,
        Tables config !! app = Some tables
        ∧ tables !! j = Some t
        ∧ lister app j t = Some (inr records);
  inv_capacity :
    (length (errChan st) + size (running st) ≤ size (Tables config))%nat;
  inv_writing :
    ∀ writer records,
      writing st = Some (writer, records) →
      ∃ j t rest,
        running st !! writer = Some (j, t :: rest)
        ∧ lister writer j t = Some (inr records)
}.

(** Two different sources each have a table whose listing succeeds: the
    configurations in which two workers reach the assignment to the map. *)
Definition two_writers (lister : Lister) (config : Config) : Prop :=
  ∃ app1 app2 tables1 tables2 j1 j2 t1 t2 records1 records2,
    app1 ≠ app2
    ∧ Tables config !! app1 = Some tables1 ∧ tables1 !! j1 = Some t1
    ∧ lister app1 j1 t1 = Some (inr records1)
    ∧ Tables config !! app2 = Some tables2 ∧ tables2 !! j2 = Some t2
    ∧ lister app2 j2 t2 = Some (inr records2).

(** The number of steps a schedule gives to a goroutine. *)
Definition turns (app : string) (sched : list string) : nat :=
  length (filter (λ a, a = app) sched).

(** A schedule is fair when it gives every worker two steps for each of its
    tables and one more. *)
Definition fair (config : Config) (sched : list string) : Prop :=
  ∀ app tables,
    Tables config !! app = Some tables →
    (S (2 * length tables) ≤ turns app sched)%nat.

(** The steps a worker still needs at most. *)
Definition work (st : Coord) (app : string) : nat :=
  match running st !! app with
  | None => 0
  | Some (j, rest) =>
      match writing st with
      | Some (writer, _) =>
          if decide (writer = app) then 2 * length rest
          else S (2 * length rest)
      | None => S (2 * length rest)
      end
  end.

(** The ways one turn of the loop can go. *)
Inductive turn (env : RunEnv) (total i : nat) (a : Attachment)
    (rest : list Attachment) (dir : string) (w wf : World)
    (r : result (option error)) : Prop :=
  | turn_panic :
      IsAirTableId (att_Id a) = false →
      wf = w → r = Panic PanicInvalidIDFormat →
      turn env total i a rest dir w wf r
  | turn_stat_error (msg : string) :
      IsAirTableId (att_Id a) = true →
      stat_fault env i = Some msg →
      wf = w → r = Return (Some (ErrOpaque msg)) →
      turn env total i a rest dir w wf r
  | turn_mismatch (content : list Byte.byte) :
      IsAirTableId (att_Id a) = true →
      stat_fault env i = None →
      files w !! path_Join dir (att_Id a) = Some content →
      Z.of_nat (length content) ≠ Size a →
      wf = w →
      r = Return (Some (ErrInvalidSize (Link a) (Z.of_nat (length content))
                          (Size a))) →
      turn env total i a rest dir w wf r
  | turn_skip (content : list Byte.byte) :
      IsAirTableId (att_Id a) = true →
      stat_fault env i = None →
      files w !! path_Join dir (att_Id a) = Some content →
      Z.of_nat (length content) = Size a →
      download_loop env total (S i) rest dir w = (wf, r) →
      turn env total i a rest dir w wf r
  | turn_download_failed (err : error) :
      IsAirTableId (att_Id a) = true →
      stat_fault env i = None →
      files w !! path_Join dir (att_Id a) = None →
      DownloadAttachment (download_env env i) a dir (att_Id a) w
      = (wf, Some err) →
      r = Return (Some err) →
      turn env total i a rest dir w wf r
  | turn_downloaded (w' : World) :
      IsAirTableId (att_Id a) = true →
      stat_fault env i = None →
      files w !! path_Join dir (att_Id a) = None →
      DownloadAttachment (download_env env i) a dir (att_Id a) w = (w', None) →
      download_loop env total (S i) rest dir
        (emit (EvProgress (S i) total (Link a) (att_Id a) (Size a)) w')
      = (wf, r) →
      turn env total i a rest dir w wf r.

(** The first failure on the way from the response to the final path, if
    any: in the body, in the byte count, in closing the temporary file or in
    renaming it. *)
Definition first_failure (env : DlEnv) (attachment : Attachment)
    (resp : Response) : option error :=
  match copy_err resp with
  | Some msg => Some (ErrOpaque msg)
  | None =>
      if Z.of_nat (length (Body resp)) =? Size attachment then
        match close_err env with
        | Some msg => Some (ErrOpaque msg)
        | None => ErrOpaque <$> rename_err env
        end
      else
        Some (ErrDownloadMismatch (Link attachment)
                (Z.of_nat (length (Body resp))) (Size attachment))
  end.

(** What [Main] has done when it returns. *)
Inductive Main_course (env : MainEnv) (configPath outputPath downloadPath : string)
    (w w' : World) (r : result (option error)) : Prop :=
  | course_no_config (msg : string) :
      loadConfig env configPath = inl msg →
      w' = w → r = Return (Some (ErrOpaque msg)) →
      Main_course env configPath outputPath downloadPath w w' r
  | course_fatal (config : Config) (p : panic) :
      loadConfig env configPath = inr config →
      ExtractAllTables
        (clerk_lister (listing_fuel env) config (http_client env)) config
        (schedule env) = Some (Panic p) →
      w' = w → r = Panic p →
      Main_course env configPath outputPath downloadPath w w' r
  | course_no_tables (config : Config) (err : error) :
      loadConfig env configPath = inr config →
      ExtractAllTables
        (clerk_lister (listing_fuel env) config (http_client env)) config
        (schedule env) = Some (Return (inl err)) →
      w' = w → r = Return (Some err) →
      Main_course env configPath outputPath downloadPath w w' r
  | course_panic (config : Config) (tables : gmap string (list Record_))
      (p : panic) :
      loadConfig env configPath = inr config →
      ExtractAllTables
        (clerk_lister (listing_fuel env) config (http_client env)) config
        (schedule env) = Some (Return (inr tables)) →
      ExtractAttachments (range_order env tables) = Panic p →
      w' = w → r = Panic p →
      Main_course env configPath outputPath downloadPath w w' r
  | course_not_saved (config : Config) (tables : gmap string (list Record_))
      (attachments : list Attachment) (err : error) :
      loadConfig env configPath = inr config →
      ExtractAllTables
        (clerk_lister (listing_fuel env) config (http_client env)) config
        (schedule env) = Some (Return (inr tables)) →
      ExtractAttachments (range_order env tables) = Return attachments →
      Save (save_env env)
        {| b_Config := Tables config; b_Tables := tables;
           b_Attachments := attachments |} outputPath w = (w', Some err) →
      r = Return (Some err) →
      Main_course env configPath outputPath downloadPath w w' r
  | course_saved (config : Config) (tables : gmap string (list Record_))
      (attachments : list Attachment) (w1 : World) :
      loadConfig env configPath = inr config →
      ExtractAllTables
        (clerk_lister (listing_fuel env) config (http_client env)) config
        (schedule env) = Some (Return (inr tables)) →
      ExtractAttachments (range_order env tables) = Return attachments →
      Save (save_env env)
        {| b_Config := Tables config; b_Tables := tables;
           b_Attachments := attachments |} outputPath w = (w1, None) →
      DownloadAttachments (run_env env) attachments downloadPath w1 = (w', r) →
      Main_course env configPath outputPath downloadPath w w' r.

(** ** Data of the examples *)

Definition key0 : string := "keyAAAAAAAAAAAAAA".
Definition app0 : string := "appAAAAAAAAAAAAAA".
Definition tbl0 : string := "tblAAAAAAAAAAAAAA".

Definition record_n (i : nat) : Record_ :=
  {| Id := String (ascii_of_nat (65 + i)) "";
     CreatedTime := "2020-01-01T00:00:00.000Z";
     Fields := [] |}.

(** Two pages: five records and a continuation token, then three records and
    none. *)
Definition page1 : ListRecordsReply :=
  {| Records := record_n <$> seq 0 5; Offset := "itrNext" |}.
Definition page2 : ListRecordsReply :=
  {| Records := record_n <$> seq 5 3; Offset := "" |}.

Definition two_pages : Client :=
  fun n _ =>
    match n with
    | O => HttpResponse 200 "200 OK" (inr page1)
    | _ => HttpResponse 200 "200 OK" (inr page2)
    end.

Definition clerk0 : Clerk := NewClerk app0 {| BearerToken := key0 |} two_pages.

(** The descriptor [{url: "<prefix>/x", id: "attABCDEFGHIJKLMN", size: _}]. *)
Definition descriptor (size : float64) : gmap string value :=
  <["url" := VStr (AttachmentLinkPrefix +:+ "/x")]>
    (<["id" := VStr "attABCDEFGHIJKLMN"]> (<["size" := VNum size]> ∅)).

(** A table with one record, one field of which holds the list [items]. *)
Definition one_field_table (items : list value) : list (string * list Record_) :=
  [(tbl0, [ {| Id := "recAAAAAAAAAAAAAA";
               CreatedTime := "2020-01-01T00:00:00.000Z";
               Fields := [("Files", VArr items)] |} ])].

Definition att0 : Attachment :=
  {| Link := AttachmentLinkPrefix +:+ "/x";
     att_Id := "attABCDEFGHIJKLMN";
     Size := 3 |}.

Definition bytes3 : list Byte.byte := [Byte.x01; Byte.x02; Byte.x03].

Definition world0 : World := {| files := ∅; trace := [] |}.

(** Nothing fails and the body has the declared three bytes. *)
Definition env_ok : DlEnv :=
  {| client_Get := inr {| Body := bytes3; copy_err := None |};
     create_err := None; close_err := None; rename_err := None;
     remove_err := None; body_close_err := None |}.

(** The transport breaks after one byte. *)
Definition env_broken_body : DlEnv :=
  {| client_Get := inr {| Body := [Byte.x01]; copy_err := Some "unexpected EOF" |};
     create_err := None; close_err := None; rename_err := None;
     remove_err := None; body_close_err := None |}.

(** The transport breaks after one byte and [os.Remove] fails as well. *)
Definition env_broken_body_no_remove : DlEnv :=
  {| client_Get := inr {| Body := [Byte.x01]; copy_err := Some "unexpected EOF" |};
     create_err := None; close_err := None; rename_err := None;
     remove_err := Some "permission denied"; body_close_err := None |}.

(** Only the closing of the response body fails. *)
Definition env_body_close_fails : DlEnv :=
  {| client_Get := inr {| Body := bytes3; copy_err := None |};
     create_err := None; close_err := None; rename_err := None;
     remove_err := None; body_close_err := Some "connection reset" |}.

Definition att1 : Attachment :=
  {| Link := AttachmentLinkPrefix +:+ "/y";
     att_Id := "attBBBBBBBBBBBBBB";
     Size := 3 |}.

(** The directory is there, [os.Stat] works and every download goes well. *)
Definition run_env_ok : RunEnv :=
  {| dir_stat := inr true;
     stat_fault := fun _ => None;
     download_env := fun _ => env_ok |}.

(** The file of [att0] is already in the directory. *)
Definition world_att0 : World :=
  {| files := {[ path_Join "dl" (att_Id att0) := bytes3 ]}; trace := [] |}.

(** One map with two tables, as [range] may yield it: in either order. *)
Definition record_with (items : list value) : Record_ :=
  {| Id := "recAAAAAAAAAAAAAA";
     CreatedTime := "2020-01-01T00:00:00.000Z";
     Fields := [("Files", VArr items)] |}.

Definition descriptor_of (a : Attachment) : value :=
  VMap (<["url" := VStr (Link a)]>
          (<["id" := VStr (att_Id a)]>
             (<["size" := VNum (Float64 (Size a) 0)]> ∅))).

Definition tables_ab : list (string * list Record_) :=
  [ ("tblAAAAAAAAAAAAAA", [record_with [descriptor_of att0]]);
    ("tblBBBBBBBBBBBBBB", [record_with [descriptor_of att1]]) ].

Definition tables_ba : list (string * list Record_) :=
  [ ("tblBBBBBBBBBBBBBB", [record_with [descriptor_of att1]]);
    ("tblAAAAAAAAAAAAAA", [record_with [descriptor_of att0]]) ].

Definition appB : string := "appBBBBBBBBBBBBBB".
Definition tblB : string := "tblBBBBBBBBBBBBBB".
Definition tblC : string := "tblCCCCCCCCCCCCCC".

(** The remote answers the listings of [app0] with the two pages and every
    other request with a status 500. *)
Definition client_mixed : string → nat → Client :=
  fun app _ =>
    if String.eqb app app0 then two_pages
    else fun _ _ => HttpResponse 500 "500 Internal Server Error" (inl "").

Definition config_mixed : Config :=
  {| api_Config := {| BearerToken := key0 |};
     Tables := {[ app0 := [tbl0]; appB := [tblB; tblC] ]} |}.

(** The remote answers the listings of [app0] with the three records of
    [page2] and the listings of every other source with the five records of
    [page1], on one page. *)
Definition client_pair : string → nat → Client :=
  fun app _ _ _ =>
    HttpResponse 200 "200 OK"
      (inr {| Records := if String.eqb app app0 then Records page2
                         else Records page1;
              Offset := "" |}).

(** Two sources with one table each, and two sources with the same table. *)
Definition config_pair : Config :=
  {| api_Config := {| BearerToken := key0 |};
     Tables := {[ app0 := [tbl0]; appB := [tblB] ]} |}.

Definition config_shared : Config :=
  {| api_Config := {| BearerToken := key0 |};
     Tables := {[ app0 := [tbl0]; appB := [tbl0] ]} |}.

(** The configuration [{"app-tables": {"app1": ["tbl1"]}}], without and with
    a token. *)
Definition config_app1 (token : string) : Config :=
  {| api_Config := {| BearerToken := token |};
     Tables := {[ "app1" := ["tbl1"] ]} |}.

(** A configuration with one source and one table. *)
Definition config_one (token app table : string) : Config :=
  {| api_Config := {| BearerToken := token |};
     Tables := {[ app := [table] ]} |}.

(** A remote that answers every request with a page that carries a
    continuation token. *)
Definition endless_pages : Client :=
  fun _ _ => HttpResponse 200 "200 OK" (inr page1).

(** A table whose record has a descriptor everywhere but in a place where
    [ExtractAttachments] looks: as a field, inside a mapping, and inside a
    sequence inside a sequence. *)
Definition tables_nested : list (string * list Record_) :=
  [ (tbl0,
     [ {| Id := "recAAAAAAAAAAAAAA";
          CreatedTime := "2020-01-01T00:00:00.000Z";
          Fields :=
            [ ("Direct", descriptor_of att0);
              ("Inside", VMap {[ "files" := VArr [descriptor_of att0] ]});
              ("Deeper", VArr [VArr [descriptor_of att0]; VStr "x"; VNil]) ] |} ]) ].

(** An attachment with the identifier of [att0] and another size, and one
    with a negative size. *)
Definition att0_longer : Attachment :=
  {| Link := AttachmentLinkPrefix +:+ "/z";
     att_Id := "attABCDEFGHIJKLMN";
     Size := 4 |}.

Definition att_negative : Attachment :=
  {| Link := AttachmentLinkPrefix +:+ "/x";
     att_Id := "attABCDEFGHIJKLMN";
     Size := -5 |}.

(** The request fails. *)
Definition env_no_connection : DlEnv :=
  {| client_Get := inl "connection refused";
     create_err := None; close_err := None; rename_err := None;
     remove_err := None; body_close_err := None |}.

(** The transport breaks after one byte, and closing the file, removing it
    and closing the body fail as well. *)
Definition env_all_cleanup_fails : DlEnv :=
  {| client_Get := inr {| Body := [Byte.x01]; copy_err := Some "unexpected EOF" |};
     create_err := None; close_err := Some "close failed"; rename_err := None;
     remove_err := Some "permission denied";
     body_close_err := Some "connection reset" |}.

(** The write of the backup fails after two bytes. *)
Definition save_env_broken : SaveEnv :=
  {| json_Encode := fun _ => bytes3;
     save_create_err := None;
     write_fault := Some (2%nat, "no space left on device");
     save_close_err := None;
     save_remove_err := None |}.

Definition save_env_ok : SaveEnv :=
  {| json_Encode := fun _ => bytes3;
     save_create_err := None;
     write_fault := None;
     save_close_err := None;
     save_remove_err := None |}.

Definition backup0 : Backup :=
  {| b_Config := ∅; b_Tables := ∅; b_Attachments := [] |}.

(** An earlier backup is at the path. *)
Definition world_backup : World :=
  {| files := {[ "backup.json" := [Byte.x7b; Byte.x7d] ]}; trace := [] |}.

(** The remote answers every listing with one page, whose record holds the
    descriptors [items]. *)
Definition client_items (items : list value) : string → nat → Client :=
  fun _ _ _ _ =>
    HttpResponse 200 "200 OK"
      (inr {| Records := [record_with items]; Offset := "" |}).

Definition main_env (items : list value) : MainEnv :=
  {| loadConfig := fun _ => inr (config_one key0 app0 tbl0);
     http_client := client_items items;
     listing_fuel := 2;
     schedule := [app0; app0; app0];
     range_order := map_to_list;
     save_env := save_env_ok;
     run_env := run_env_ok |}.

(** * Properties *)

(** ** The identifier validator *)

Lemma rejected_byte_alnumb (c : ascii) :
  rejected_byte c = negb (is_ascii_alnumb c).
Proof.
  destruct c as [[] [] [] [] [] [] [] []]; reflexivity.
Qed.

Lemma is_ascii_alnumb_spec (c : ascii) :
  is_ascii_alnumb c = true ↔ is_ascii_alnum c.
Proof.
  unfold is_ascii_alnumb, is_ascii_alnum. rewrite existsb_exists. split.
  - intros (x & Hin & Heq). apply Ascii.eqb_eq in Heq. by subst.
  - intros Hin. exists c. split; [done | apply Ascii.eqb_refl].
Qed.

Lemma all_bytes_accepted_spec (name : string) :
  all_bytes_accepted name = true
  ↔ Forall is_ascii_alnum (list_ascii_of_string name).
Proof.
  induction name as [| c rest IH]; simpl.
  - split; [constructor | done].
  - rewrite rejected_byte_alnumb, Forall_cons, <- IH, <- is_ascii_alnumb_spec.
    destruct (is_ascii_alnumb c); simpl; intuition congruence.
Qed.

Lemma IsAirTableId_spec (name : string) :
  IsAirTableId name = true
  ↔ String.length name = 17%nat
    ∧ Forall is_ascii_alnum (list_ascii_of_string name).
Proof.
  unfold IsAirTableId. rewrite <- all_bytes_accepted_spec.
  destruct (Nat.eqb_spec (String.length name) 17) as [Hlen | Hlen]; simpl.
  - intuition.
  - intuition congruence.
Qed.

(** C7.  [IsAirTableId name] is true exactly when [name] has 17 bytes and
    every byte is an ASCII letter or digit. *)
Theorem IsAirTableId_iff (name : string) :
  IsAirTableId name = true
  ↔ String.length name = 17%nat
    ∧ Forall is_ascii_alnum (list_ascii_of_string name).
Proof. apply IsAirTableId_spec. Qed.

(** A name with a byte that is not a letter or digit is rejected; so is a
    name of another length. *)
Lemma IsAirTableId_rejects_byte (name : string) (c : ascii) :
  In c (list_ascii_of_string name) → ¬ is_ascii_alnum c →
  IsAirTableId name = false.
Proof.
  intros Hin Hc. apply not_true_is_false. rewrite IsAirTableId_spec.
  intros [_ Hall]. rewrite Forall_forall in Hall. apply Hc, Hall.
  by apply list_elem_of_In.
Qed.

Lemma IsAirTableId_rejects_length (name : string) :
  String.length name ≠ 17%nat → IsAirTableId name = false.
Proof.
  intros Hlen. apply not_true_is_false. rewrite IsAirTableId_spec. tauto.
Qed.

(** Path separators, whitespace, punctuation and the bytes of non-ASCII
    characters are not letters or digits. *)
Lemma non_ascii_not_alnum (c : ascii) : is_non_ascii c → ¬ is_ascii_alnum c.
Proof.
  unfold is_non_ascii. rewrite <- is_ascii_alnumb_spec.
  destruct c as [[] [] [] [] [] [] [] []]; vm_compute; congruence.
Qed.

Lemma separators_not_alnum :
  Forall (fun c => ¬ is_ascii_alnum c)
    (list_ascii_of_string "/\ .:^~-_"
     ++ [ascii_of_nat 9; ascii_of_nat 10; ascii_of_nat 0]).
Proof.
  repeat constructor; rewrite <- is_ascii_alnumb_spec; vm_compute; congruence.
Qed.

(** The cases of [api_test.go]. *)
Example TestIsAirTableId :
  IsAirTableId "fldpjJ6SlAbLkrapJ" = true
  ∧ IsAirTableId "fldpjJ6Sl bLkrapJ" = false
  ∧ IsAirTableId "fldp:J6SlAbLkrapJ" = false
  ∧ IsAirTableId "fldpjJ6SlAbLkrap^" = false
  ∧ IsAirTableId "~ldpjJ6SlAbLkrapJ" = false.
Proof. repeat split. Qed.

(** ** The table lister *)

Lemma ListRecordsAll_loop_pages (c : Clerk) (table : string)
    (pages : list ListRecordsReply) :
  ∀ (fuel n : nat) (records : list Record_) (offset : string),
    serves c table n offset pages →
    Forall (fun p => Offset p ≠ "") pages →
    ListRecordsAll_loop (length pages + fuel) c table n records offset
    = ListRecordsAll_loop fuel c table (n + length pages)
        (records ++ concat (Records <$> pages)) (last_offset offset pages).
Proof.
  induction pages as [| p rest IH]; intros fuel n records offset Hserves Hoff.
  - simpl. by rewrite Nat.add_0_r, app_nil_r.
  - destruct Hserves as [Hpage Hrest]. inversion_clear Hoff as [| ? ? Hp Hoffs].
    cbn [length Nat.add ListRecordsAll_loop]. rewrite Hpage.
    destruct (String.eqb_spec (Offset p) "") as [Heq | _]; [done |].
    rewrite (IH fuel (S n) _ _ Hrest Hoffs). cbn [fmap list_fmap concat].
    unfold last_offset. cbn [foldl].
    by rewrite <- app_assoc, Nat.add_succ_r.
Qed.

(** C6.  When the fetcher serves [pages], none of which ends the table, the
    outcome of the next request decides: a page with an empty offset makes
    [ListRecordsAll] return the records of all the pages in page order, and
    an error makes it return that error and no records. *)
Theorem ListRecordsAll_pages (c : Clerk) (table : string)
    (pages : list ListRecordsReply) (fuel : nat) :
  serves c table 0 "" pages →
  Forall (fun p => Offset p ≠ "") pages →
  (length pages < fuel)%nat →
  (∀ final : ListRecordsReply,
     ListRecordsPage c (length pages) table (last_offset "" pages) = inr final →
     Offset final = "" →
     ListRecordsAll fuel c table
     = Some (inr (concat (Records <$> pages ++ [final]))))
  ∧ (∀ err : error,
       ListRecordsPage c (length pages) table (last_offset "" pages) = inl err →
       ListRecordsAll fuel c table = Some (inl err)).
Proof.
  intros Hserves Hoff Hfuel.
  destruct (Nat.le_exists_sub (S (length pages)) fuel) as (f & -> & _); [lia |].
  unfold ListRecordsAll.
  replace (f + S (length pages))%nat with (length pages + S f)%nat by lia.
  rewrite (ListRecordsAll_loop_pages c table pages (S f) 0 [] "" Hserves Hoff).
  cbn [ListRecordsAll_loop Nat.add app]. split.
  - intros final Hpage Hend. rewrite Hpage, Hend. cbn [String.eqb].
    by rewrite fmap_app, concat_app; cbn; rewrite app_nil_r.
  - intros err Hpage. by rewrite Hpage.
Qed.

Lemma ListRecordsAll_pages_witness :
  ListRecordsAll 2 clerk0 tbl0
  = Some (inr (concat (Records <$> [page1] ++ [page2]))).
Proof.
  refine (proj1 (ListRecordsAll_pages clerk0 tbl0 [page1] 2 _ _ _) page2 _ _).
  - split; [reflexivity | exact I].
  - repeat constructor. discriminate.
  - simpl. lia.
  - reflexivity.
  - reflexivity.
Defined.

(** ** The attachment extractor: one descriptor *)

Lemma float64_of_int64_expo (n : Z) : 0 ≤ expo (float64_of_int64 n).
Proof.
  unfold float64_of_int64. destruct (Z.ltb_spec (Z.abs n) (2 ^ 53)) as [| Hge].
  - simpl. lia.
  - simpl. assert (53 ≤ Z.log2 (Z.abs n)); [| lia].
    apply Z.log2_le_pow2; lia.
Qed.

(** A float equal to one with a non-negative exponent is that integer, and
    truncating it changes nothing. *)
Lemma float64_eqb_integer (f g : float64) :
  0 ≤ expo g → float64_eqb f g = true →
  float64_value_is f (mant g * 2 ^ expo g)
  ∧ float64_trunc f = mant g * 2 ^ expo g.
Proof.
  intros Hg Heq. unfold float64_eqb in Heq. apply Z.eqb_eq in Heq.
  unfold float64_value_is, float64_trunc.
  destruct (decide (0 ≤ expo f)) as [Hf | Hf].
  - destruct (Z.leb_spec 0 (expo f)) as [_ | ?]; [| lia].
    set (e := Z.min (expo f) (expo g)) in *.
    assert (He : 0 ≤ e) by (subst e; lia).
    assert (Hpf : 2 ^ expo f = 2 ^ (expo f - e) * 2 ^ e).
    { rewrite <- Z.pow_add_r by (subst e; lia). f_equal. lia. }
    assert (Hpg : 2 ^ expo g = 2 ^ (expo g - e) * 2 ^ e).
    { rewrite <- Z.pow_add_r by (subst e; lia). f_equal. lia. }
    rewrite Hpf, Hpg, !Z.mul_assoc, Heq. done.
  - destruct (Z.leb_spec 0 (expo f)) as [? | _]; [lia |].
    rewrite Z.min_l in Heq by lia.
    rewrite Z.sub_diag, Z.mul_1_r in Heq.
    assert (Hm : mant f = mant g * 2 ^ expo g * 2 ^ (- expo f)).
    { rewrite Heq, <- Z.mul_assoc, <- Z.pow_add_r by lia. repeat (f_equal; try lia). }
    split; [done |]. rewrite Hm. apply Z.quot_mul.
    apply Z.pow_nonzero; lia.
Qed.

(** The test [size != float64(int64(size))] lets through integers only, and
    the conversion then keeps the value. *)
Lemma float64_roundtrip_integral (f : float64) :
  float64_eqb f (float64_of_int64 (int64_of_float64 f)) = true →
  float64_value_is f (int64_of_float64 f)
  ∧ MinInt64 ≤ int64_of_float64 f ≤ MaxInt64.
Proof.
  intros Heq.
  destruct (float64_eqb_integer _ _ (float64_of_int64_expo _) Heq)
    as [Hval Htrunc].
  revert Heq Hval Htrunc. unfold int64_of_float64.
  destruct ((MinInt64 <=? float64_trunc f) && (float64_trunc f <=? MaxInt64))
    eqn:Hrange; intros Heq Hval Htrunc.
  - apply andb_true_iff in Hrange as [H1 H2].
    apply Z.leb_le in H1, H2. rewrite <- Htrunc in Hval. done.
  - exfalso. change (float64_of_int64 MinInt64) with (Float64 (- 2 ^ 52) 11) in Htrunc.
    cbn [mant expo] in Htrunc. rewrite Htrunc in Hrange. vm_compute in Hrange.
    discriminate.
Qed.

(** An integer that a float holds exactly converts back to that float. *)
Lemma float64_of_int64_exact (f : float64) (n : Z) :
  is_float64 f → float64_value_is f n →
  float64_eqb f (float64_of_int64 n) = true.
Proof.
  intros [Hm _] Hval. unfold float64_value_is in Hval.
  unfold float64_eqb, float64_of_int64. apply Z.eqb_eq.
  destruct (Z.ltb_spec (Z.abs n) (2 ^ 53)) as [Hsmall | Hbig]; cbn [mant expo].
  - destruct (decide (0 ≤ expo f)) as [He | He].
    + rewrite Z.min_r by lia. rewrite !Z.sub_0_r. cbn. lia.
    + rewrite Z.min_l by lia. rewrite Z.sub_diag, Z.sub_0_l. cbn [Z.pow]. lia.
  - assert (He : 0 < expo f).
    { destruct (decide (0 ≤ expo f)) as [He | He].
      - destruct (decide (expo f = 0)) as [Hz | ?]; [| lia].
        rewrite Hz in Hval. cbn in Hval. lia.
      - assert (0 < 2 ^ (- expo f)) by (apply Z.pow_pos_nonneg; lia). nia. }
    destruct (decide (0 ≤ expo f)) as [_ | ?]; [| lia].
    assert (Hpow : 0 < 2 ^ expo f) by (apply Z.pow_pos_nonneg; lia).
    assert (Hm0 : mant f ≠ 0) by (intros Hz; rewrite Hz in Hval; cbn in Hval; lia).
    assert (Ha : Z.abs n = Z.abs (mant f) * 2 ^ expo f).
    { rewrite <- Hval, Z.abs_mul. f_equal. lia. }
    assert (Hlog : Z.log2 (Z.abs n) = expo f + Z.log2 (Z.abs (mant f))).
    { rewrite Ha. apply Z.log2_mul_pow2; lia. }
    assert (Hlm : Z.log2 (Z.abs (mant f)) < 53) by (apply Z.log2_lt_pow2; lia).
    assert (Hl0 : 0 ≤ Z.log2 (Z.abs (mant f))) by apply Z.log2_nonneg.
    set (k := Z.log2 (Z.abs n) - 52).
    assert (Hk1 : 1 ≤ k).
    { subst k. assert (53 ≤ Z.log2 (Z.abs n)); [| lia].
      apply Z.log2_le_pow2; lia. }
    assert (Hke : k ≤ expo f) by (subst k; lia).
    assert (Hpk : 0 < 2 ^ k) by (apply Z.pow_pos_nonneg; lia).
    assert (Hsplit : 2 ^ expo f = 2 ^ (expo f - k) * 2 ^ k).
    { rewrite <- Z.pow_add_r by lia. f_equal. lia. }
    assert (Hq : Z.abs n / 2 ^ k = Z.abs (mant f) * 2 ^ (expo f - k)).
    { rewrite Ha, Hsplit, Z.mul_assoc. apply Z.div_mul. lia. }
    assert (Hr : Z.abs n mod 2 ^ k = 0).
    { rewrite Ha, Hsplit, Z.mul_assoc. apply Z.mod_mul. lia. }
    rewrite Hr, Hq.
    assert (Hhalf : 0 < 2 ^ (k - 1)) by (apply Z.pow_pos_nonneg; lia).
    destruct (Z.ltb_spec (2 ^ (k - 1)) 0) as [? | _]; [lia |].
    destruct (Z.eqb_spec 0 (2 ^ (k - 1))) as [? | _]; [lia |].
    cbn [orb andb]. rewrite Z.min_r by lia.
    rewrite Z.sub_diag. cbn [Z.pow]. rewrite Z.mul_1_r.
    assert (Hsgn : Z.sgn n = Z.sgn (mant f)).
    { rewrite <- Hval, Z.sgn_mul. rewrite (Z.sgn_pos (2 ^ expo f)) by lia. lia. }
    rewrite Hsgn, Z.mul_assoc, (Z.mul_comm (Z.sgn (mant f))), Z.abs_sgn. done.
Qed.

Lemma float64_trunc_integer (f : float64) (n : Z) :
  float64_value_is f n → float64_trunc f = n.
Proof.
  unfold float64_value_is, float64_trunc.
  destruct (decide (0 ≤ expo f)) as [He | He].
  - destruct (Z.leb_spec 0 (expo f)); [done | lia].
  - destruct (Z.leb_spec 0 (expo f)); [lia |]. intros ->.
    apply Z.quot_mul. apply Z.pow_nonzero; lia.
Qed.

(** A descriptor that meets the conditions is accepted. *)
Lemma ExtractAttachment_accepts (itemMap : gmap string value)
    (urlStr idStr : string) (size : float64) (n : Z) :
  itemMap !! "url" = Some (VStr urlStr) →
  String.prefix AttachmentLinkPrefix urlStr = true →
  itemMap !! "id" = Some (VStr idStr) →
  IsAirTableId idStr = true →
  String.prefix "att" idStr = true →
  itemMap !! "size" = Some (VNum size) →
  is_float64 size → float64_value_is size n → MinInt64 ≤ n ≤ MaxInt64 →
  ExtractAttachment itemMap
  = Return (true, {| Link := urlStr; att_Id := idStr; Size := n |}).
Proof.
  intros Hurl Hprefix Hid Hvalid Hatt Hsize Hfloat Hval Hrange.
  unfold ExtractAttachment.
  rewrite Hurl, Hprefix, Hid, Hvalid, Hatt, Hsize. cbn [negb orb].
  assert (Hn : int64_of_float64 size = n).
  { unfold int64_of_float64. rewrite (float64_trunc_integer _ _ Hval).
    destruct (Z.leb_spec MinInt64 n); [| lia].
    destruct (Z.leb_spec n MaxInt64); [done | lia]. }
  rewrite Hn, (float64_of_int64_exact _ _ Hfloat Hval). done.
Qed.

(** What [ExtractAttachment] returns when it does not panic. *)
Lemma ExtractAttachment_Return (itemMap : gmap string value) (found : bool)
    (a : Attachment) :
  ExtractAttachment itemMap = Return (found, a) →
  (found = false ∧ itemMap !! "url" = None)
  ∨ (found = true
     ∧ itemMap !! "url" = Some (VStr (Link a))
     ∧ String.prefix AttachmentLinkPrefix (Link a) = true
     ∧ itemMap !! "id" = Some (VStr (att_Id a))
     ∧ IsAirTableId (att_Id a) = true
     ∧ String.prefix "att" (att_Id a) = true
     ∧ ∃ size, itemMap !! "size" = Some (VNum size)
               ∧ float64_value_is size (Size a)
               ∧ MinInt64 ≤ Size a ≤ MaxInt64).
Proof.
  unfold ExtractAttachment.
  destruct (itemMap !! "url") as [[| | | urlStr | |] |]; try discriminate.
  2: { intros [= <- <-]. by left. }
  destruct (String.prefix AttachmentLinkPrefix urlStr) eqn:Hurl;
    [| discriminate]. cbn [negb].
  destruct (itemMap !! "id") as [[| | | idStr | |] |]; try discriminate.
  destruct (IsAirTableId idStr) eqn:Hid; [| discriminate].
  destruct (String.prefix "att" idStr) eqn:Hatt; [| discriminate].
  cbn [negb orb].
  destruct (itemMap !! "size") as [[| | size | | |] |]; try discriminate.
  destruct (float64_eqb size (float64_of_int64 (int64_of_float64 size)))
    eqn:Hsize; [| discriminate]. cbn [negb].
  intros [= <- <-]. right. cbn [Link att_Id Size].
  destruct (float64_roundtrip_integral size Hsize) as [Hval Hrange].
  repeat split; try done. by exists size.
Qed.

Lemma ExtractAttachment_cases (itemMap : gmap string value) :
  (∃ p, ExtractAttachment itemMap = Panic p)
  ∨ (∃ found a, ExtractAttachment itemMap = Return (found, a)).
Proof.
  destruct (ExtractAttachment itemMap) as [[found a] | p]; eauto.
Qed.

(** C4, amended.  A candidate makes [ExtractAttachment] panic unless its URL
    has the attachment-host prefix, its identifier is a valid identifier
    that starts with [att], and its size is an integer; the attachment then
    carries that integer, which may be negative.  Conversely a candidate
    that meets these conditions, with a size in the range of [int64], gives
    its attachment.  The descriptor of the scenario gives one attachment of
    size 42 when its size is 42.0 and a panic when it is 42.5. *)
Theorem ExtractAttachment_validates :
  (∀ itemMap : gmap string value,
     is_Some (itemMap !! "url") →
     (∃ p, ExtractAttachment itemMap = Panic p)
     ∨ (∃ urlStr idStr size n,
          itemMap !! "url" = Some (VStr urlStr)
          ∧ String.prefix AttachmentLinkPrefix urlStr = true
          ∧ itemMap !! "id" = Some (VStr idStr)
          ∧ IsAirTableId idStr = true
          ∧ String.prefix "att" idStr = true
          ∧ itemMap !! "size" = Some (VNum size)
          ∧ float64_value_is size n
          ∧ ExtractAttachment itemMap
            = Return (true, {| Link := urlStr; att_Id := idStr; Size := n |})))
  ∧ (∀ (itemMap : gmap string value) urlStr idStr size n,
       itemMap !! "url" = Some (VStr urlStr) →
       String.prefix AttachmentLinkPrefix urlStr = true →
       itemMap !! "id" = Some (VStr idStr) →
       IsAirTableId idStr = true →
       String.prefix "att" idStr = true →
       itemMap !! "size" = Some (VNum size) →
       is_float64 size → float64_value_is size n → MinInt64 ≤ n ≤ MaxInt64 →
       ExtractAttachment itemMap
       = Return (true, {| Link := urlStr; att_Id := idStr; Size := n |}))
  ∧ ExtractAttachments (one_field_table [VMap (descriptor (Float64 42 0))])
    = Return [ {| Link := AttachmentLinkPrefix +:+ "/x";
                  att_Id := "attABCDEFGHIJKLMN";
                  Size := 42 |} ]
  ∧ ExtractAttachments (one_field_table [VMap (descriptor (Float64 85 (-1)))])
    = Panic PanicInvalidSize.
Proof.
  split; [| split; [exact ExtractAttachment_accepts | split; reflexivity]].
  intros itemMap [url Hurl].
  destruct (ExtractAttachment_cases itemMap) as [Hp | (found & a & Hr)];
    [by left | right].
  destruct (ExtractAttachment_Return _ _ _ Hr)
    as [[_ Hnone] | (-> & H1 & H2 & H3 & H4 & H5 & size & H6 & H7 & _)];
    [congruence |].
  exists (Link a), (att_Id a), size, (Size a). by destruct a.
Qed.

Lemma ExtractAttachment_validates_witness :
  (∃ p, ExtractAttachment (descriptor (Float64 42 0)) = Panic p)
  ∨ (∃ urlStr idStr size n,
       descriptor (Float64 42 0) !! "url" = Some (VStr urlStr)
       ∧ String.prefix AttachmentLinkPrefix urlStr = true
       ∧ descriptor (Float64 42 0) !! "id" = Some (VStr idStr)
       ∧ IsAirTableId idStr = true
       ∧ String.prefix "att" idStr = true
       ∧ descriptor (Float64 42 0) !! "size" = Some (VNum size)
       ∧ float64_value_is size n
       ∧ ExtractAttachment (descriptor (Float64 42 0))
         = Return (true, {| Link := urlStr; att_Id := idStr; Size := n |})).
Proof.
  apply (proj1 ExtractAttachment_validates (descriptor (Float64 42 0))).
  vm_compute. eauto.
Defined.

(** A descriptor whose size is the integer -5 is accepted: the code tests
    that the size is integral, not that it is non-negative. *)
Lemma ExtractAttachment_negative_size :
  is_Some (descriptor (Float64 (-5) 0) !! "url")
  ∧ descriptor (Float64 (-5) 0) !! "size" = Some (VNum (Float64 (-5) 0))
  ∧ ExtractAttachment (descriptor (Float64 (-5) 0))
    = Return (true, {| Link := AttachmentLinkPrefix +:+ "/x";
                       att_Id := "attABCDEFGHIJKLMN";
                       Size := -5 |})
  ∧ ExtractAttachments (one_field_table [VMap (descriptor (Float64 (-5) 0))])
    = Return [ {| Link := AttachmentLinkPrefix +:+ "/x";
                  att_Id := "attABCDEFGHIJKLMN";
                  Size := -5 |} ].
Proof. split; [by eexists | repeat split]. Qed.

(** C10.  A candidate whose [url] is not a string, whose [id] is missing or
    not a string, or whose [size] is missing or not a number, makes
    [ExtractAttachment] panic; the panic is that of the type assertion when
    the checks before the assertion pass. *)
Theorem ExtractAttachment_type_assertions (itemMap : gmap string value) :
  is_Some (itemMap !! "url") →
  (¬ well_typed_candidate itemMap → ∃ p, ExtractAttachment itemMap = Panic p)
  ∧ ((∀ s, itemMap !! "url" ≠ Some (VStr s)) →
     ExtractAttachment itemMap = Panic PanicInterfaceConversion)
  ∧ (∀ urlStr,
       itemMap !! "url" = Some (VStr urlStr) →
       String.prefix AttachmentLinkPrefix urlStr = true →
       (∀ s, itemMap !! "id" ≠ Some (VStr s)) →
       ExtractAttachment itemMap = Panic PanicInterfaceConversion)
  ∧ (∀ urlStr idStr,
       itemMap !! "url" = Some (VStr urlStr) →
       String.prefix AttachmentLinkPrefix urlStr = true →
       itemMap !! "id" = Some (VStr idStr) →
       IsAirTableId idStr = true → String.prefix "att" idStr = true →
       (∀ f, itemMap !! "size" ≠ Some (VNum f)) →
       ExtractAttachment itemMap = Panic PanicInterfaceConversion).
Proof.
  intros [url Hurl]. repeat split.
  - intros Hbad.
    destruct (ExtractAttachment_cases itemMap) as [Hp | (found & a & Hr)];
      [done | exfalso].
    destruct (ExtractAttachment_Return _ _ _ Hr)
      as [[_ Hnone] | (_ & H1 & _ & H3 & _ & _ & size & H6 & _)];
      [congruence |].
    apply Hbad. unfold well_typed_candidate. repeat split; eauto.
  - intros Hnot. unfold ExtractAttachment. rewrite Hurl.
    destruct url; try done. by specialize (Hnot s).
  - intros urlStr H1 H2 Hnot. unfold ExtractAttachment. rewrite H1, H2.
    cbn [negb]. destruct (itemMap !! "id") as [[| | | s | |] |]; try done.
    by specialize (Hnot s).
  - intros urlStr idStr H1 H2 H3 H4 H5 Hnot. unfold ExtractAttachment.
    rewrite H1, H2, H3, H4, H5. cbn [negb orb].
    destruct (itemMap !! "size") as [[| | f | | |] |]; try done.
    by specialize (Hnot f).
Qed.


Lemma ExtractAttachment_type_assertions_witness :
  ExtractAttachment (<["url" := VStr (AttachmentLinkPrefix +:+ "/x")]>
                       (<["id" := VNum (Float64 7 0)]> ∅))
  = Panic PanicInterfaceConversion.
Proof.
  refine (proj1 (proj2 (proj2 (ExtractAttachment_type_assertions _ _))) _ _ _ _).
  - by eexists.
  - reflexivity.
  - reflexivity.
  - intros s. vm_compute. discriminate.
Defined.

(** ** The attachment downloader: one download *)

Lemma append_inj_l (p a b : string) : p +:+ a = p +:+ b → a = b.
Proof. induction p as [| c p IH]; simpl; [done | intros [= H]; auto]. Qed.

Lemma path_Join_inj (dir a b : string) :
  path_Join dir a = path_Join dir b → a = b.
Proof.
  unfold path_Join.
  destruct (String.eqb (path_Clean dir) "."); [done |].
  destruct (String.eqb (path_Clean dir) "/"); intros H.
  - by apply (append_inj_l "/") in H.
  - apply append_inj_l in H. by apply (append_inj_l "/") in H.
Qed.

Lemma length_append (a b : string) :
  String.length (a +:+ b) = (String.length a + String.length b)%nat.
Proof. induction a as [| c a IH]; simpl; [done | by rewrite IH]. Qed.

(** The temporary file of one name is never the final file of a name of the
    same length; in particular not its own. *)
Lemma temp_path_ne_final (dir a b : string) :
  String.length a = String.length b →
  path_Join dir ("TEMP." +:+ a) ≠ path_Join dir b.
Proof.
  intros Hlen H. apply path_Join_inj in H.
  apply (f_equal String.length) in H. rewrite length_append in H.
  simpl in H. lia.
Qed.

Ltac unfold_download :=
  unfold DownloadAttachment, os_Create, download_body, deferred_cleanup,
    io_Copy, file_Close, os_Rename, os_Remove, append_if, opaque, emit,
    set_files;
  cbn [files trace fmap option_fmap option_map].

Lemma files_after_rename (f : gmap string (list Byte.byte)) (t o : string)
    (b : list Byte.byte) :
  t ≠ o →
  delete t (<[o := b]> (<[t := b]> (<[t := []]> f))) = <[o := b]> (delete t f).
Proof.
  intros Hne. apply map_eq. intros p.
  destruct (decide (p = o)) as [-> | Hpo].
  - by rewrite lookup_delete_ne, !lookup_insert_eq.
  - destruct (decide (p = t)) as [-> | Hpt].
    + by rewrite lookup_delete_eq, lookup_insert_ne, lookup_delete_eq.
    + by rewrite lookup_delete_ne, !lookup_insert_ne, lookup_delete_ne.
Qed.

(** C2, amended.  A download that reaches the temporary file writes the body
    to it, checks the byte count, closes it and renames it, in this order,
    when nothing fails on this path; when something does, an error is
    returned, no file is at the final path, and the temporary file is gone
    provided [os.Remove] itself succeeds. *)
Theorem DownloadAttachment_atomic (env : DlEnv) (attachment : Attachment)
    (outputDir outputFilename : string) (w w' : World) (resp : Response)
    (errOut : option error) :
  let tempPath := path_Join outputDir ("TEMP." +:+ outputFilename) in
  let outputPath := path_Join outputDir outputFilename in
  files w !! outputPath = None →
  client_Get env = inr resp →
  create_err env = None →
  DownloadAttachment env attachment outputDir outputFilename w = (w', errOut) →
  (¬ fails_on_path env attachment resp →
     Z.of_nat (length (Body resp)) = Size attachment
     ∧ files w' = <[outputPath := Body resp]> (delete tempPath (files w))
     ∧ trace w' = trace w ++ clean_download_events attachment outputDir outputFilename
     ∧ errOut = append_if None (opaque (body_close_err env)))
  ∧ (fails_on_path env attachment resp →
     is_Some errOut
     ∧ files w' !! outputPath = None
     ∧ (remove_err env = None → files w' = delete tempPath (files w))).
Proof.
  intros tempPath outputPath Habsent HGet Hcreate.
  assert (Hne : tempPath ≠ outputPath) by (by apply temp_path_ne_final).
  unfold fails_on_path, clean_download_events. unfold_download.
  rewrite HGet, Hcreate. fold tempPath outputPath.
  destruct (copy_err resp) as [e1 |] eqn:Hcopy;
    destruct (Z.eqb_spec (Z.of_nat (length (Body resp))) (Size attachment))
      as [Hsize | Hsize];
    destruct (close_err env) as [e2 |] eqn:Hclose;
    destruct (rename_err env) as [e3 |] eqn:Hrename;
    destruct (remove_err env) as [e4 |] eqn:Hremove;
    destruct (body_close_err env) as [e5 |] eqn:Hbody;
    cbn; rewrite ?lookup_insert_eq; cbn; intros [= <- <-]; cbn.
  all: split; [intros Hok | intros Hfail].
  all: try (exfalso; apply Hok;
            first [by left | by right; left | by right; right; left
                  | by right; right; right]).
  all: try (exfalso; destruct Hfail as [? | [? | [? | ?]]]; done).
  all: try (split; [by eexists |]; split; [by simplify_map_eq |];
            first [done | intros _; by rewrite !delete_insert_eq]).
  all: repeat split; try done.
  all: first [by apply files_after_rename
             | by rewrite Hsize, <- !app_assoc].
Qed.

(** With the transport broken in the body and [os.Remove] failing too, the
    temporary file stays; with only the closing of the response body
    failing, an error is returned although the file is at its final path. *)
Lemma DownloadAttachment_leftovers :
  (let '(w', errOut) :=
     DownloadAttachment env_broken_body_no_remove att0 "dl" (att_Id att0) world0 in
   fails_on_path env_broken_body_no_remove att0
     {| Body := [Byte.x01]; copy_err := Some "unexpected EOF" |}
   ∧ is_Some errOut
   ∧ files w' !! path_Join "dl" ("TEMP." +:+ att_Id att0) = Some [Byte.x01])
  ∧ (let '(w', errOut) :=
       DownloadAttachment env_body_close_fails att0 "dl" (att_Id att0) world0 in
     errOut = Some (MultiError [ErrOpaque "connection reset"])
     ∧ files w' !! path_Join "dl" (att_Id att0) = Some bytes3).
Proof.
  split.
  - vm_compute. split; [by left | split; [by eexists | done]].
  - vm_compute. done.
Qed.

Lemma DownloadAttachment_atomic_witness :
  let '(w', errOut) :=
    DownloadAttachment env_broken_body att0 "dl" (att_Id att0) world0 in
  is_Some errOut
  ∧ files w' !! path_Join "dl" (att_Id att0) = None
  ∧ (remove_err env_broken_body = None →
     files w' = delete (path_Join "dl" ("TEMP." +:+ att_Id att0)) (files world0)).
Proof.
  destruct (DownloadAttachment env_broken_body att0 "dl" (att_Id att0) world0)
    as [w' errOut] eqn:Hrun.
  refine (proj2 (DownloadAttachment_atomic env_broken_body att0 "dl"
                   (att_Id att0) world0 w'
                   {| Body := [Byte.x01]; copy_err := Some "unexpected EOF" |}
                   errOut _ _ _ Hrun) _).
  - reflexivity.
  - reflexivity.
  - reflexivity.
  - left. discriminate.
Defined.

(** ** The attachment downloader: the loop *)

Ltac destruct_download env resp attachment :=
  destruct (client_Get env) as [msg | resp];
  [| destruct (create_err env);
     [| destruct (copy_err resp);
        destruct (Z.eqb_spec (Z.of_nat (length (Body resp))) (Size attachment));
        destruct (close_err env); destruct (rename_err env);
        destruct (remove_err env) ];
     destruct (body_close_err env) ];
  cbn; rewrite ?lookup_insert_eq; cbn.

(** A download touches its temporary and its final path only. *)
Lemma DownloadAttachment_other_files (env : DlEnv) (attachment : Attachment)
    (outputDir outputFilename : string) (w w' : World) (errOut : option error)
    (p : string) :
  DownloadAttachment env attachment outputDir outputFilename w = (w', errOut) →
  p ≠ path_Join outputDir ("TEMP." +:+ outputFilename) →
  p ≠ path_Join outputDir outputFilename →
  files w' !! p = files w !! p.
Proof.
  intros Hrun Ht Ho. revert Hrun. unfold_download.
  destruct_download env resp attachment; intros [= <- <-]; cbn;
    by rewrite ?lookup_delete_ne, ?lookup_insert_ne.
Qed.

(** A download that reports no error has put a file of the declared size at
    the final path. *)
Lemma DownloadAttachment_success (env : DlEnv) (attachment : Attachment)
    (outputDir outputFilename : string) (w w' : World) :
  DownloadAttachment env attachment outputDir outputFilename w = (w', None) →
  ∃ content, files w' !! path_Join outputDir outputFilename = Some content
             ∧ Z.of_nat (length content) = Size attachment.
Proof.
  assert (Hne := temp_path_ne_final outputDir outputFilename outputFilename eq_refl).
  unfold_download.
  destruct_download env resp attachment; intros [= <-]; cbn.
  all: try (exists (Body resp); by rewrite lookup_delete_ne, lookup_insert_eq).
Qed.

(** A download makes one request, for its attachment. *)
Lemma DownloadAttachment_gets (env : DlEnv) (attachment : Attachment)
    (outputDir outputFilename : string) (w w' : World) (errOut : option error)
    (id : string) :
  DownloadAttachment env attachment outputDir outputFilename w = (w', errOut) →
  gets_of id (trace w')
  = (gets_of id (trace w) + if String.eqb (att_Id attachment) id then 1 else 0)%nat.
Proof.
  unfold gets_of. unfold_download.
  destruct_download env resp attachment; intros [= <- <-]; cbn;
    rewrite !List.filter_app, !length_app; cbn;
    destruct (String.eqb (att_Id attachment) id); cbn; lia.
Qed.

Lemma IsAirTableId_length (name : string) :
  IsAirTableId name = true → String.length name = 17%nat.
Proof. rewrite IsAirTableId_spec. tauto. Qed.

Lemma emit_files (ev : Event) (w : World) : files (emit ev w) = files w.
Proof. reflexivity. Qed.

Lemma gets_of_emit_progress (id : string) (i total : nat) (link name : string)
    (size : Z) (w : World) :
  gets_of id (trace (emit (EvProgress i total link name size) w))
  = gets_of id (trace w).
Proof.
  unfold gets_of, emit. cbn. rewrite List.filter_app, length_app. cbn. lia.
Qed.

Lemma download_loop_turn (env : RunEnv) (total i : nat) (a : Attachment)
    (rest : list Attachment) (dir : string) (w wf : World)
    (r : result (option error)) :
  download_loop env total i (a :: rest) dir w = (wf, r) ↔
  turn env total i a rest dir w wf r.
Proof.
  cbn [download_loop]. unfold os_Stat. split.
  - destruct (IsAirTableId (att_Id a)) eqn:Hid; cbn [negb].
    2: { intros [= <- <-]. by apply turn_panic. }
    destruct (stat_fault env i) as [msg |] eqn:Hstat; cbn [IsNotExist].
    { intros [= <- <-]. by eapply turn_stat_error. }
    destruct (files w !! path_Join dir (att_Id a)) as [content |] eqn:Hfile.
    + destruct (Z.eqb_spec (Z.of_nat (length content)) (Size a)); cbn [negb].
      * intros Hrest. by eapply turn_skip.
      * intros [= <- <-]. by eapply turn_mismatch.
    + cbn [IsNotExist].
      destruct (DownloadAttachment (download_env env i) a dir (att_Id a) w)
        as [w' [err |]] eqn:Hdl.
      * intros [= <- <-]. by eapply turn_download_failed.
      * intros Hrest. by eapply turn_downloaded.
  - intros [Hid -> -> | msg Hid Hstat -> -> | content Hid Hstat Hfile Hsize -> ->
            | content Hid Hstat Hfile Hsize Hrest | err Hid Hstat Hfile Hdl ->
            | w' Hid Hstat Hfile Hdl Hrest];
      rewrite Hid; cbn [negb]; try done; rewrite Hstat; try done;
      rewrite Hfile; cbn [IsNotExist].
    + by destruct (Z.eqb_spec (Z.of_nat (length content)) (Size a)).
    + by destruct (Z.eqb_spec (Z.of_nat (length content)) (Size a)).
    + by rewrite Hdl.
    + by rewrite Hdl.
Qed.

(** The loop never removes or changes a file that is at the final path of a
    valid identifier. *)
Lemma download_loop_keeps_file (env : RunEnv) (total : nat) (dir id : string)
    (content : list Byte.byte) (l : list Attachment) :
  IsAirTableId id = true →
  ∀ (i : nat) (w wf : World) (r : result (option error)),
    files w !! path_Join dir id = Some content →
    download_loop env total i l dir w = (wf, r) →
    files wf !! path_Join dir id = Some content.
Proof.
  intros Hvalid. induction l as [| a rest IH]; intros i w wf r Hfile Hrun.
  - by injection Hrun as <- <-.
  - apply download_loop_turn in Hrun.
    assert (Hother : ∀ w' e,
      files w !! path_Join dir (att_Id a) = None →
      IsAirTableId (att_Id a) = true →
      DownloadAttachment (download_env env i) a dir (att_Id a) w = (w', e) →
      files w' !! path_Join dir id = Some content).
    { intros w' e Habsent Hid Hdl. rewrite <- Hfile.
      eapply DownloadAttachment_other_files; [done | |].
      - apply not_eq_sym, temp_path_ne_final.
        by rewrite !IsAirTableId_length.
      - congruence. }
    destruct Hrun as [Hid -> -> | msg Hid Hstat -> -> | c Hid Hstat Ha Hsize -> ->
            | c Hid Hstat Ha Hsize Hrest | err Hid Hstat Ha Hdl ->
            | w' Hid Hstat Ha Hdl Hrest]; eauto.
  eapply IH; [| exact Hrest]. rewrite emit_files. eauto.
Qed.

(** After a run without error every attachment of the list has its file, of
    the declared size. *)
Lemma download_loop_success_files (env : RunEnv) (total : nat) (dir : string)
    (l : list Attachment) :
  ∀ (i : nat) (w wf : World),
    download_loop env total i l dir w = (wf, Return None) →
    ∀ a, a ∈ l →
      IsAirTableId (att_Id a) = true
      ∧ ∃ content, files wf !! path_Join dir (att_Id a) = Some content
                   ∧ Z.of_nat (length content) = Size a.
Proof.
  induction l as [| a rest IH]; intros i w wf Hrun b Hb.
  - by apply elem_of_nil in Hb.
  - apply download_loop_turn in Hrun.
    destruct Hrun as [? ? [=] | msg ? ? ? [=] | c ? ? ? ? ? [=]
            | c Hid Hstat Ha Hsize Hrest | err ? ? ? ? [=]
            | w' Hid Hstat Ha Hdl Hrest].
    + apply elem_of_cons in Hb as [-> | Hb]; [| by eapply IH].
      split; [done |]. exists c. split; [| done].
      by eapply download_loop_keeps_file.
    + apply elem_of_cons in Hb as [-> | Hb]; [| by eapply IH].
      split; [done |].
      destruct (DownloadAttachment_success _ _ _ _ _ _ Hdl) as (c & Hc & Hsize).
      exists c. split; [| done].
      eapply download_loop_keeps_file; [done | | exact Hrest].
      by rewrite emit_files.
Qed.

(** When every attachment of the list has its file, of the declared size, and
    [os.Stat] does not fail, the loop does nothing at all. *)
Lemma download_loop_all_present (env : RunEnv) (total : nat) (dir : string)
    (w : World) (l : list Attachment) :
  (∀ i, stat_fault env i = None) →
  (∀ a, a ∈ l →
     IsAirTableId (att_Id a) = true
     ∧ ∃ content, files w !! path_Join dir (att_Id a) = Some content
                  ∧ Z.of_nat (length content) = Size a) →
  ∀ i, download_loop env total i l dir w = (w, Return None).
Proof.
  intros Hstat. induction l as [| a rest IH]; intros Hall i; [done |].
  destruct (Hall a) as (Hid & c & Hc & Hsize); [by left |].
  apply download_loop_turn. eapply turn_skip; try done.
  apply IH. intros b Hb. apply Hall. by right.
Qed.

(** While the file of [id] is there, the loop makes no request for [id]. *)
Lemma download_loop_gets_present (env : RunEnv) (total : nat) (dir id : string)
    (content : list Byte.byte) (l : list Attachment) :
  IsAirTableId id = true →
  ∀ (i : nat) (w wf : World) (r : result (option error)),
    files w !! path_Join dir id = Some content →
    download_loop env total i l dir w = (wf, r) →
    gets_of id (trace wf) = gets_of id (trace w).
Proof.
  intros Hvalid. induction l as [| a rest IH]; intros i w wf r Hfile Hrun.
  - by injection Hrun as <- <-.
  - apply download_loop_turn in Hrun.
    assert (Hne : files w !! path_Join dir (att_Id a) = None →
                  String.eqb (att_Id a) id = false).
    { intros Ha. apply String.eqb_neq. congruence. }
    destruct Hrun as [Hid -> -> | msg Hid Hstat -> -> | c Hid Hstat Ha Hsize -> ->
            | c Hid Hstat Ha Hsize Hrest | err Hid Hstat Ha Hdl ->
            | w' Hid Hstat Ha Hdl Hrest]; eauto.
    + rewrite (DownloadAttachment_gets _ _ _ _ _ _ _ id Hdl), (Hne Ha). lia.
    + erewrite IH; [| | exact Hrest].
      * rewrite gets_of_emit_progress,
          (DownloadAttachment_gets _ _ _ _ _ _ _ id Hdl), (Hne Ha). lia.
      * rewrite emit_files, <- Hfile.
        eapply DownloadAttachment_other_files; [done | |].
        -- apply not_eq_sym, temp_path_ne_final.
           by rewrite !IsAirTableId_length.
        -- congruence.
Qed.

(** In one run the loop makes at most one request for each identifier. *)
Lemma download_loop_gets_once (env : RunEnv) (total : nat) (dir id : string)
    (l : list Attachment) :
  ∀ (i : nat) (w wf : World) (r : result (option error)),
    download_loop env total i l dir w = (wf, r) →
    (gets_of id (trace wf) ≤ gets_of id (trace w) + 1)%nat.
Proof.
  induction l as [| a rest IH]; intros i w wf r Hrun.
  - injection Hrun as <- <-. lia.
  - apply download_loop_turn in Hrun.
    destruct Hrun as [Hid -> -> | msg Hid Hstat -> -> | c Hid Hstat Ha Hsize -> ->
            | c Hid Hstat Ha Hsize Hrest | err Hid Hstat Ha Hdl ->
            | w' Hid Hstat Ha Hdl Hrest]; eauto; try lia.
    + rewrite (DownloadAttachment_gets _ _ _ _ _ _ _ id Hdl).
      destruct (String.eqb (att_Id a) id); lia.
    + pose proof (DownloadAttachment_gets _ _ _ _ _ _ _ id Hdl) as Hg.
      destruct (String.eqb_spec (att_Id a) id) as [<- | Hne].
      * destruct (DownloadAttachment_success _ _ _ _ _ _ Hdl) as (c & Hc & _).
        erewrite download_loop_gets_present; [| done | | exact Hrest].
        -- rewrite gets_of_emit_progress. lia.
        -- by rewrite emit_files.
      * apply IH in Hrest. rewrite gets_of_emit_progress in Hrest. lia.
Qed.


Lemma sort_Slice_Permutation {A : Type} (less : A → A → bool) (x : list A) :
  sort_Slice less x ≡ₚ x.
Proof. apply merge_sort_Permutation. Qed.

Lemma download_loop_app (env : RunEnv) (total : nat) (dir : string)
    (pre l : list Attachment) :
  ∀ (i : nat) (w w1 : World),
    download_loop env total i pre dir w = (w1, Return None) →
    download_loop env total i (pre ++ l) dir w
    = download_loop env total (i + length pre) l dir w1.
Proof.
  induction pre as [| a pre IH]; intros i w w1 Hpre.
  - injection Hpre as <-. by rewrite Nat.add_0_r.
  - rewrite <- app_comm_cons. apply download_loop_turn in Hpre.
    destruct (download_loop env total (i + length (a :: pre)) l dir w1)
      as [wf r] eqn:Hl.
    apply download_loop_turn. cbn [length] in Hl.
    rewrite Nat.add_succ_r in Hl.
    destruct Hpre as [? ? [=] | msg ? ? ? [=] | c ? ? ? ? ? [=]
            | c Hid Hstat Ha Hsize Hrest | err ? ? ? ? [=]
            | w' Hid Hstat Ha Hdl Hrest].
    + eapply turn_skip; try done. by rewrite (IH _ _ _ Hrest).
    + eapply turn_downloaded; try done. by rewrite (IH _ _ _ Hrest).
Qed.

(** C3.  After a run of [DownloadAttachments] that returns no error, every
    attachment has its file, of the declared size; a second run on the same
    attachments, in any order, with [os.Stat] working, returns no error and
    leaves the world as it is: no request, no file touched; and the first
    run made at most one request for each identifier. *)
Theorem DownloadAttachments_idempotent (env1 env2 : RunEnv)
    (attachments : list Attachment) (downloadDir : string) (w0 w1 : World) :
  DownloadAttachments env1 attachments downloadDir w0 = (w1, Return None) →
  dir_stat env2 = inr true →
  (∀ i, stat_fault env2 i = None) →
  (∀ a, a ∈ attachments →
     ∃ content, files w1 !! path_Join downloadDir (att_Id a) = Some content
                ∧ Z.of_nat (length content) = Size a)
  ∧ (∀ attachments', attachments' ≡ₚ attachments →
       DownloadAttachments env2 attachments' downloadDir w1 = (w1, Return None))
  ∧ (∀ id, gets_of id (trace w1) ≤ gets_of id (trace w0) + 1)%nat.
Proof.
  intros Hrun Hdir Hstat. unfold DownloadAttachments in Hrun.
  destruct (dir_stat env1) as [msg | []]; try discriminate. cbn [negb] in Hrun.
  pose proof (download_loop_success_files _ _ _ _ _ _ _ Hrun) as Hfiles.
  repeat split.
  - intros a Ha. apply Hfiles. by rewrite sort_Slice_Permutation.
  - intros attachments' Hperm. unfold DownloadAttachments. rewrite Hdir.
    cbn [negb]. apply download_loop_all_present; [done |].
    intros a Ha. apply Hfiles.
    rewrite sort_Slice_Permutation in Ha |- *. by rewrite <- Hperm.
  - intros id. by eapply download_loop_gets_once.
Qed.

Lemma DownloadAttachments_idempotent_witness :
  DownloadAttachments run_env_ok [att1; att0; att0] "dl"
    (DownloadAttachments run_env_ok [att1; att0; att0] "dl" world0).1
  = ((DownloadAttachments run_env_ok [att1; att0; att0] "dl" world0).1,
     Return None).
Proof.
  refine (proj1 (proj2 (DownloadAttachments_idempotent run_env_ok run_env_ok
                          [att1; att0; att0] "dl" world0 _ _ _ _)) _ _).
  - vm_compute. reflexivity.
  - reflexivity.
  - intros i. reflexivity.
  - reflexivity.
Defined.

(** C5.  When the loop reaches an attachment whose file exists: a file of
    the declared size makes the loop go on to the next attachment with the
    world untouched; a file of another size ends the run with an error, the
    world untouched; a failure of [os.Stat] other than the absence of the
    file ends the run with that error; and a failed download ends the run
    with its error.  Nothing is done for the attachments that follow. *)
Theorem DownloadAttachments_existing_file (env : RunEnv)
    (attachments pre rest : list Attachment) (a : Attachment)
    (downloadDir : string) (w w1 : World) :
  let path := path_Join downloadDir (att_Id a) in
  let i := length pre in
  dir_stat env = inr true →
  sort_Slice (fun a b => String.ltb (att_Id a) (att_Id b)) attachments
  = pre ++ a :: rest →
  download_loop env (length attachments) 0 pre downloadDir w = (w1, Return None) →
  IsAirTableId (att_Id a) = true →
  (∀ content,
     stat_fault env i = None → files w1 !! path = Some content →
     (Z.of_nat (length content) = Size a →
      DownloadAttachments env attachments downloadDir w
      = download_loop env (length attachments) (S i) rest downloadDir w1)
     ∧ (Z.of_nat (length content) ≠ Size a →
        DownloadAttachments env attachments downloadDir w
        = (w1, Return (Some (ErrInvalidSize (Link a) (Z.of_nat (length content))
                               (Size a))))))
  ∧ (∀ msg,
       stat_fault env i = Some msg →
       DownloadAttachments env attachments downloadDir w
       = (w1, Return (Some (ErrOpaque msg))))
  ∧ (∀ w2 err,
       stat_fault env i = None → files w1 !! path = None →
       DownloadAttachment (download_env env i) a downloadDir (att_Id a) w1
       = (w2, Some err) →
       DownloadAttachments env attachments downloadDir w
       = (w2, Return (Some err))).
Proof.
  intros path i Hdir Hsorted Hpre Hid.
  assert (Hrun : DownloadAttachments env attachments downloadDir w
                 = download_loop env (length attachments) i (a :: rest)
                     downloadDir w1).
  { unfold DownloadAttachments. rewrite Hdir. cbn [negb].
    rewrite (Permutation_length (sort_Slice_Permutation _ attachments)).
    rewrite Hsorted. by rewrite (download_loop_app _ _ _ _ _ _ _ _ Hpre). }
  rewrite Hrun. repeat split.
  - intros Hsize. destruct (download_loop _ _ (S i) rest _ _) as [wf r] eqn:Hrest.
    apply download_loop_turn. by eapply turn_skip.
  - intros Hsize. apply download_loop_turn. by eapply turn_mismatch.
  - intros msg Hstat. apply download_loop_turn. by eapply turn_stat_error.
  - intros w2 err Hstat Hfile Hdl. apply download_loop_turn.
    by eapply turn_download_failed.
Qed.

Lemma DownloadAttachments_existing_file_witness :
  DownloadAttachments run_env_ok [att1; att0] "dl" world_att0
  = download_loop run_env_ok 2 1 [att1] "dl" world_att0.
Proof.
  refine (proj1 (proj1 (DownloadAttachments_existing_file run_env_ok
                          [att1; att0] [] [att1] att0 "dl" world_att0
                          world_att0 _ _ _ _) bytes3 _ _) _).
  - reflexivity.
  - vm_compute. reflexivity.
  - reflexivity.
  - reflexivity.
  - reflexivity.
  - vm_compute. reflexivity.
  - reflexivity.
Defined.

(** ** The attachment extractor: the scan *)

Lemma for_range_app {A S : Type} (l1 l2 : list A) (body : A → S → result S)
    (s : S) :
  for_range (l1 ++ l2) body s = s' ← for_range l1 body s; for_range l2 body s'.
Proof.
  revert s. induction l1 as [| x l1 IH]; intros s; [done |].
  cbn. destruct (body x s) as [s' | p]; cbn; [apply IH | done].
Qed.

Lemma scan_candidates_app (cs1 cs2 : list (gmap string value))
    (acc : list Attachment) :
  scan_candidates (cs1 ++ cs2) acc
  = acc' ← scan_candidates cs1 acc; scan_candidates cs2 acc'.
Proof. apply for_range_app. Qed.

(** A loop whose body scans the candidates of each element scans the
    candidates of the whole list. *)
Lemma for_range_scan {A : Type} (f : A → list (gmap string value))
    (body : A → list Attachment → result (list Attachment)) (l : list A) :
  (∀ x acc, body x acc = scan_candidates (f x) acc) →
  ∀ acc, for_range l body acc = scan_candidates (l ≫= f) acc.
Proof.
  intros Hbody. induction l as [| x l IH]; intros acc; [done |].
  rewrite bind_cons, scan_candidates_app. cbn. rewrite Hbody.
  destruct (scan_candidates (f x) acc) as [acc' | p]; cbn; [apply IH | done].
Qed.

Lemma ExtractAttachment_not_found (itemMap : gmap string value) :
  itemMap !! "url" = None →
  ExtractAttachment itemMap
  = Return (false, {| Link := ""; att_Id := ""; Size := 0 |}).
Proof. intros Hurl. unfold ExtractAttachment. by rewrite Hurl. Qed.

Lemma ExtractAttachment_found (itemMap : gmap string value) (found : bool)
    (a : Attachment) :
  is_Some (itemMap !! "url") →
  ExtractAttachment itemMap = Return (found, a) → found = true.
Proof.
  intros [url Hurl] Hr.
  destruct (ExtractAttachment_Return _ _ _ Hr) as [[_ Hnone] | [-> _]];
    [congruence | done].
Qed.

Lemma scan_value_candidates (v : value) (acc : list Attachment) :
  scan_value v acc = scan_candidates (candidates_of_value v) acc.
Proof.
  destruct v as [| | | | contents |]; try done. cbn.
  revert acc. induction contents as [| item contents IH]; intros acc; [done |].
  cbn [for_range omap list_omap].
  destruct item as [| | | | | itemMap]; try (cbn; apply IH).
  cbn [scan_item].
  destruct (itemMap !! "url") as [url |] eqn:Hurl.
  - cbn [for_range].
    destruct (ExtractAttachment itemMap) as [[found a] | p] eqn:Hr; cbn;
      [| done].
    rewrite (ExtractAttachment_found itemMap found a) by (by rewrite ?Hurl).
    apply IH.
  - rewrite (ExtractAttachment_not_found _ Hurl). cbn. apply IH.
Qed.

(** [ExtractAttachments] scans the candidates of its input, in the order in
    which its loops meet them. *)
Lemma ExtractAttachments_scan (tables : list (string * list Record_)) :
  ExtractAttachments tables = scan_candidates (candidates tables) [].
Proof.
  unfold ExtractAttachments, candidates.
  apply for_range_scan. intros [name table] acc.
  apply for_range_scan. intros record acc'.
  apply for_range_scan. intros [field v] acc''.
  apply scan_value_candidates.
Qed.

(** What a scan returns. *)
Lemma scan_candidates_Return (cs : list (gmap string value)) :
  ∀ acc l,
    scan_candidates cs acc = Return l
    ↔ ∃ l', l = acc ++ l'
            ∧ Forall2 (fun c a => ∃ found, ExtractAttachment c = Return (found, a))
                cs l'.
Proof.
  induction cs as [| c cs IH]; intros acc l.
  - cbn. split.
    + intros [= <-]. exists []. by rewrite app_nil_r.
    + intros (l' & -> & Hl'). apply Forall2_nil_inv_l in Hl' as ->.
      by rewrite app_nil_r.
  - cbn. destruct (ExtractAttachment c) as [[found a] | p] eqn:Hr; cbn.
    + fold (scan_candidates cs (acc ++ [a])). rewrite IH. split.
      * intros (l' & -> & Hl'). exists (a :: l').
        rewrite <- app_assoc. split; [done |]. constructor; eauto.
      * intros (l' & -> & Hl').
        apply Forall2_cons_inv_l in Hl' as (a' & l'' & [found' Ha'] & Hl'' & ->).
        rewrite Hr in Ha'. injection Ha' as <- <-. exists l''. by rewrite <- app_assoc.
    + split; [done |]. intros (l' & -> & Hl').
      apply Forall2_cons_inv_l in Hl' as (a' & l'' & [found' Ha'] & _).
      congruence.
Qed.

Lemma scan_candidates_omap (cs : list (gmap string value))
    (acc l : list Attachment) :
  scan_candidates cs acc = Return l → l = acc ++ omap attachment_of cs.
Proof.
  rewrite scan_candidates_Return. intros (l' & -> & Hl'). f_equal.
  induction Hl' as [| c a cs l' [found Hr] _ IH]; [done |].
  cbn. unfold attachment_of at 1. rewrite Hr. by rewrite IH.
Qed.

Lemma scan_candidates_Panic (cs : list (gmap string value)) :
  ∀ acc,
    (∃ p, scan_candidates cs acc = Panic p)
    ↔ ∃ c, c ∈ cs ∧ attachment_of c = None.
Proof.
  induction cs as [| c cs IH]; intros acc.
  - cbn. split; [by intros [p [=]] |]. intros (c & Hc & _).
    by apply elem_of_nil in Hc.
  - cbn. unfold attachment_of.
    destruct (ExtractAttachment c) as [[found a] | p] eqn:Hr; cbn.
    + fold (scan_candidates cs (acc ++ [a])). rewrite IH. split.
      * intros (c' & Hc' & Hnone). exists c'. split; [by right | done].
      * intros (c' & Hc' & Hnone). apply elem_of_cons in Hc' as [-> | Hc'].
        -- unfold attachment_of in Hnone. by rewrite Hr in Hnone.
        -- eauto.
    + split; [| by eauto]. intros _. exists c. split; [by left |].
      by rewrite Hr.
Qed.

Lemma candidates_of_value_url (v : value) (c : gmap string value) :
  c ∈ candidates_of_value v → is_Some (c !! "url").
Proof.
  destruct v as [| | | | contents |]; cbn; try (by intros ?%elem_of_nil).
  rewrite list_elem_of_omap. intros (item & _ & Hitem).
  destruct item as [| | | | | itemMap]; try done.
  destruct (itemMap !! "url") eqn:Hurl; [| done].
  injection Hitem as <-. by rewrite Hurl.
Qed.

Lemma candidates_url (tables : list (string * list Record_))
    (c : gmap string value) :
  c ∈ candidates tables → is_Some (c !! "url").
Proof.
  unfold candidates. rewrite list_elem_of_bind.
  intros ([name table] & Hc & _). rewrite list_elem_of_bind in Hc.
  destruct Hc as (record & Hc & _). rewrite list_elem_of_bind in Hc.
  destruct Hc as ([field v] & Hc & _). by eapply candidates_of_value_url.
Qed.

Lemma bind_Forall2_Permutation {A B : Type} (f : A → list B)
    (R : A → A → Prop) (l1 l2 : list A) :
  (∀ x y, R x y → f x ≡ₚ f y) →
  Forall2 R l1 l2 → l1 ≫= f ≡ₚ l2 ≫= f.
Proof.
  intros Hf. induction 1 as [| x y l1 l2 Hxy _ IH]; [done |].
  rewrite !bind_cons. by rewrite (Hf x y Hxy), IH.
Qed.

(** The candidates of one map do not depend, as a multiset, on the order in
    which [range] yields its entries. *)
Lemma candidates_same_tables (t1 t2 : list (string * list Record_)) :
  same_tables t1 t2 → candidates t1 ≡ₚ candidates t2.
Proof.
  intros (t & Hperm & Hall). unfold candidates. rewrite Hperm.
  eapply bind_Forall2_Permutation; [| exact Hall].
  intros [n1 table1] [n2 table2] [_ Htable]. cbn in Htable |- *.
  eapply bind_Forall2_Permutation; [| exact Htable].
  intros r1 r2 (_ & _ & Hfields). by rewrite Hfields.
Qed.

(** C8, amended.  For a given order of the entries of the maps,
    [ExtractAttachments] returns exactly the attachments of the candidates,
    one for each, in the order in which its loops meet them, duplicates
    included; for two orders of the same maps both runs panic or the two
    lists are permutations of one another. *)
Theorem ExtractAttachments_discovery_order :
  (∀ tables l,
     ExtractAttachments tables = Return l
     ↔ Forall2 (fun c a => ExtractAttachment c = Return (true, a))
         (candidates tables) l)
  ∧ (∀ t1 t2,
       same_tables t1 t2 →
       match ExtractAttachments t1, ExtractAttachments t2 with
       | Return l1, Return l2 => l1 ≡ₚ l2
       | Panic _, Panic _ => True
       | _, _ => False
       end)
  ∧ ExtractAttachments
      (one_field_table [descriptor_of att0; descriptor_of att0])
    = Return [att0; att0].
Proof.
  split; [| split; [| reflexivity]].
  - intros tables l. rewrite ExtractAttachments_scan, scan_candidates_Return.
    pose proof (candidates_url tables) as Hurl. split.
    + intros (l' & -> & Hl'). cbn.
      induction Hl' as [| c a cs l' [found Hr] _ IH]; constructor.
      * assert (found = true) as <-; [| done].
        eapply ExtractAttachment_found; [| done]. apply Hurl. by left.
      * apply IH. intros c' Hc'. apply Hurl. by right.
    + intros Hl. exists l. split; [done |].
      eapply Forall2_impl; [exact Hl |]. cbn. eauto.
  - intros t1 t2 Hsame. apply candidates_same_tables in Hsame.
    rewrite !ExtractAttachments_scan.
    destruct (scan_candidates (candidates t1) []) as [l1 | p1] eqn:H1;
      destruct (scan_candidates (candidates t2) []) as [l2 | p2] eqn:H2;
      try done.
    + apply scan_candidates_omap in H1, H2. cbn in H1, H2. subst.
      by rewrite Hsame.
    + assert (Hp : ∃ p, scan_candidates (candidates t2) [] = Panic p) by eauto.
      apply scan_candidates_Panic in Hp as (c & Hc & Hnone).
      rewrite <- Hsame in Hc.
      assert (Hp : ∃ p, scan_candidates (candidates t1) [] = Panic p).
      { apply scan_candidates_Panic. eauto. }
      destruct Hp as [p Hp]. congruence.
    + assert (Hp : ∃ p, scan_candidates (candidates t1) [] = Panic p) by eauto.
      apply scan_candidates_Panic in Hp as (c & Hc & Hnone).
      rewrite Hsame in Hc.
      assert (Hp : ∃ p, scan_candidates (candidates t2) [] = Panic p).
      { apply scan_candidates_Panic. eauto. }
      destruct Hp as [p Hp]. congruence.
Qed.

Lemma same_tables_ab_ba : same_tables tables_ab tables_ba.
Proof.
  exists tables_ba. split.
  - apply perm_swap.
  - repeat constructor.
Qed.

Lemma ExtractAttachments_discovery_order_witness :
  match ExtractAttachments tables_ab, ExtractAttachments tables_ba with
  | Return l1, Return l2 => l1 ≡ₚ l2
  | Panic _, Panic _ => True
  | _, _ => False
  end.
Proof.
  apply (proj1 (proj2 ExtractAttachments_discovery_order) tables_ab tables_ba).
  exists tables_ba. split; [apply perm_swap | repeat constructor].
Defined.

(** One map with two tables: the run that meets [tblA...] first and the run
    that meets [tblB...] first return different lists. *)
Lemma ExtractAttachments_order_dependent :
  same_tables tables_ab tables_ba
  ∧ ExtractAttachments tables_ab = Return [att0; att1]
  ∧ ExtractAttachments tables_ba = Return [att1; att0]
  ∧ ExtractAttachments tables_ab ≠ ExtractAttachments tables_ba.
Proof.
  split; [apply same_tables_ab_ba |]. split; [reflexivity |].
  split; [reflexivity |]. vm_compute. discriminate.
Qed.

(** ** The extraction coordinator *)

Section coordinator.
Variable lister : Lister.
Variable config : Config.

Lemma coord_inv_spawn : coord_inv lister config (spawn config).
Proof.
  split; cbn.
  - intros app j rest Hrun. apply lookup_fmap_Some in Hrun as (tables & [= <- <-] & Htables).
    exists tables, []. repeat split; try done. by intros t ?%elem_of_nil.
  - exists ∅. split; [| split].
    + intros app tables. rewrite lookup_empty. split; [done |].
      intros [Htables Hrun]. by rewrite lookup_fmap, Htables in Hrun.
    + by rewrite map_to_list_empty.
    + intros app tables t. by rewrite lookup_empty.
  - intros t records. by rewrite lookup_empty.
  - by rewrite map_size_fmap.
  - done.
Qed.

Lemma worker_error_ok (app : string) (j : nat) (t : string)
    (rest : list string) (records : list Record_) :
  lister app j t = Some (inr records) →
  worker_error lister app j (t :: rest) = worker_error lister app (S j) rest.
Proof. intros H. cbn. by rewrite H. Qed.

Lemma worker_error_err (app : string) (j : nat) (t : string)
    (rest : list string) (err : error) :
  lister app j t = Some (inl err) →
  worker_error lister app j (t :: rest) = Some err.
Proof. intros H. cbn. by rewrite H. Qed.

(** The table that a running worker lists next is the one its
    configuration has at its index. *)
Lemma running_configured (st : Coord) (app : string) (j : nat) (t : string)
    (rest : list string) :
  coord_inv lister config st →
  running st !! app = Some (j, t :: rest) →
  ∃ tables, Tables config !! app = Some tables ∧ tables !! j = Some t.
Proof.
  intros Hinv Happ.
  destruct (inv_running _ _ _ Hinv _ _ _ Happ)
    as (tables & seen & Htables & -> & -> & _).
  exists (seen ++ t :: rest). split; [done | by apply list_lookup_middle].
Qed.

(** A worker that ends: its error, if any, joins the channel. *)
Lemma coord_inv_done (st : Coord) (app : string) (j : nat)
    (rest : list string) (sent : list error) :
  coord_inv lister config st →
  running st !! app = Some (j, rest) →
  (∀ records, writing st ≠ Some (app, records)) →
  (length (errChan st) + length sent < S (size (Tables config)))%nat →
  sent = option_list (worker_error lister app j rest) →
  (worker_error lister app j rest = None → rest = []) →
  coord_inv lister config
    {| running := delete app (running st);
       outputMap := outputMap st;
       errChan := errChan st ++ sent;
       writing := writing st |}.
Proof.
  intros [Hrun (fin & Hfin & Hchan & Hkeys) Hout Hcap Hwr] Happ Hother Hroom
    Hsent Hend.
  destruct (Hrun _ _ _ Happ) as (tables & seen & Htables & -> & -> & Herr & Hseen).
  assert (Hfresh : fin !! app = None).
  { apply eq_None_not_Some. intros [x Hx]. apply Hfin in Hx as [_ Hx].
    congruence. }
  split; cbn.
  - intros app' j' rest' [Hne Hrun']%lookup_delete_Some. eauto.
  - exists (<[app := seen ++ rest]> fin). split; [| split].
    + intros app' tables'. rewrite lookup_insert_Some, lookup_delete_None.
      rewrite Hfin. split.
      * intros [[<- <-] | [Hne [Ht Hr]]]; [by auto | by auto].
      * intros [Ht [-> | Hr]]; [left | right].
        -- split; congruence.
        -- split; [congruence | done].
    + rewrite map_to_list_insert by done. cbn. rewrite Herr, Hsent, Hchan.
      destruct (worker_error lister app (length seen) rest); cbn.
      * by rewrite <- Permutation_cons_append.
      * by rewrite app_nil_r.
    + intros app' tables' t [[<- <-] | [Hne Hold]]%lookup_insert_Some Hnone Ht.
      * rewrite Herr in Hnone. rewrite (Hend Hnone), app_nil_r in Ht. eauto.
      * eauto.
  - done.
  - rewrite length_app, map_size_delete_Some by eauto.
    assert (size (running st) ≠ 0%nat).
    { intros Hz%map_size_empty_inv. by rewrite Hz, lookup_empty in Happ. }
    destruct (worker_error lister app (length seen) rest); subst sent; cbn in *; lia.
  - intros writer records Hw.
    destruct (Hwr _ _ Hw) as (j' & t' & rest' & Hrunning & Hlist).
    exists j', t', rest'. split; [| done].
    rewrite lookup_delete_ne; [done |]. intros <-. by eapply Hother.
Qed.

(** A worker that enters the assignment to the map. *)
Lemma coord_inv_begin (st : Coord) (app : string) (j : nat) (t : string)
    (rest : list string) (records : list Record_) :
  coord_inv lister config st →
  running st !! app = Some (j, t :: rest) →
  lister app j t = Some (inr records) →
  coord_inv lister config
    {| running := running st;
       outputMap := outputMap st;
       errChan := errChan st;
       writing := Some (app, records) |}.
Proof.
  intros [Hrun Hfin Hout Hcap Hwr] Happ Hlist. split; cbn; try done.
  intros writer records' [= <- <-]. eauto.
Qed.

(** A worker that has completed the assignment for one more table. *)
Lemma coord_inv_listed (st : Coord) (app : string) (j : nat) (t : string)
    (rest : list string) (records : list Record_) :
  coord_inv lister config st →
  running st !! app = Some (j, t :: rest) →
  lister app j t = Some (inr records) →
  coord_inv lister config
    {| running := <[app := (S j, rest)]> (running st);
       outputMap := <[t := records]> (outputMap st);
       errChan := errChan st;
       writing := None |}.
Proof.
  intros [Hrun (fin & Hfin & Hchan & Hkeys) Hout Hcap Hwr] Happ Hlist.
  destruct (Hrun _ _ _ Happ) as (tables & seen & Htables & -> & -> & Herr & Hseen).
  assert (Hgrow : ∀ t', is_Some (outputMap st !! t') →
                        is_Some (<[t := records]> (outputMap st) !! t')).
  { intros t' Ht'. rewrite lookup_insert_is_Some'. by right. }
  split; cbn.
  - intros app' j' rest' [[<- [= <- <-]] | [Hne Hrun']]%lookup_insert_Some.
    + exists (seen ++ t :: rest), (seen ++ [t]). repeat split.
      * done.
      * by rewrite <- app_assoc.
      * rewrite length_app. cbn. lia.
      * by rewrite Herr, (worker_error_ok _ _ _ _ _ Hlist).
      * intros t' [Ht' | ->%list_elem_of_singleton]%elem_of_app; [by auto |].
        rewrite lookup_insert_is_Some'. by left.
    + destruct (Hrun _ _ _ Hrun') as (tables' & seen' & ? & ? & ? & ? & ?).
      exists tables', seen'. repeat split; auto.
  - exists fin. split; [| split]; [| done | by eauto].
    intros app' tables'. rewrite Hfin, lookup_insert_None.
    split; [| tauto]. intros [Ht Hr]. repeat split; [done | done |].
    congruence.
  - intros t' records' [[<- <-] | [Hne Hold]]%lookup_insert_Some; [| by eauto].
    exists app, (seen ++ t :: rest), (length seen).
    repeat split; [done | by apply list_lookup_middle | done].
  - by rewrite map_size_insert_Some by eauto.
  - done.
Qed.

(** The channel has room for the message of a running worker. *)
Lemma errChan_room (st : Coord) (app : string) (p : nat * list string) :
  coord_inv lister config st →
  running st !! app = Some p →
  (length (errChan st) < size (Tables config))%nat.
Proof.
  intros Hinv Happ. pose proof (inv_capacity _ _ _ Hinv).
  assert (size (running st) ≠ 0%nat); [| lia].
  intros Hz%map_size_empty_inv. by rewrite Hz, lookup_empty in Happ.
Qed.

Lemma coord_inv_lists (app : string) (j : nat) (t : string)
    (rest : list string) (st st' : Coord) :
  coord_inv lister config st →
  running st !! app = Some (j, t :: rest) →
  (∀ records, writing st ≠ Some (app, records)) →
  worker_lists lister config app j t st = Some (Return st') →
  coord_inv lister config st'.
Proof.
  intros Hinv Happ Hother. unfold worker_lists.
  destruct (lister app j t) as [[err | records] |] eqn:Hlist; [| | done].
  - destruct (decide _) as [Hroom |]; [| done]. intros [= <-].
    eapply coord_inv_done; try done.
    + cbn. lia.
    + by rewrite (worker_error_err _ _ _ _ _ Hlist).
    + by rewrite (worker_error_err _ _ _ _ _ Hlist).
  - destruct (writing st) as [other |] eqn:Hw; [done |]. intros [= <-].
    pose proof (coord_inv_begin _ _ _ _ _ _ Hinv Happ Hlist) as Hbegin.
    by destruct st.
Qed.

(** The worker inside the assignment assigns the records of the table it
    is at. *)
Lemma writing_current (st : Coord) (app : string) (j : nat) (t : string)
    (rest : list string) (records : list Record_) :
  coord_inv lister config st →
  running st !! app = Some (j, t :: rest) →
  writing st = Some (app, records) →
  lister app j t = Some (inr records).
Proof.
  intros Hinv Happ Hw.
  destruct (inv_writing _ _ _ Hinv _ _ Hw) as (j' & t' & rest' & Happ' & Hlist).
  congruence.
Qed.

(** Every step keeps the invariant. *)
Lemma coord_inv_step (app : string) (st st' : Coord) :
  coord_inv lister config st →
  worker_step lister config app st = Some (Return st') →
  coord_inv lister config st'.
Proof.
  intros Hinv. unfold worker_step.
  destruct (running st !! app) as [[j [| t rest]] |] eqn:Happ.
  - intros [= <-].
    replace (errChan st) with (errChan st ++ []) by apply app_nil_r.
    eapply coord_inv_done; try done.
    + intros records Hw.
      destruct (inv_writing _ _ _ Hinv _ _ Hw) as (? & ? & ? & ? & _).
      congruence.
    + pose proof (errChan_room _ _ _ Hinv Happ). cbn. lia.
  - destruct (writing st) as [[writer records] |] eqn:Hw.
    + destruct (decide (writer = app)) as [-> | Hne].
      * intros [= <-]. apply coord_inv_listed; [done | done |].
        exact (writing_current _ _ _ _ _ _ Hinv Happ Hw).
      * intros H. eapply coord_inv_lists; [exact Hinv | exact Happ | | exact H].
        rewrite Hw. congruence.
    + intros H. eapply coord_inv_lists; [exact Hinv | exact Happ | | exact H].
      by rewrite Hw.
  - by intros [= <-].
Qed.

Lemma coord_inv_run (sched : list string) :
  ∀ st st',
    coord_inv lister config st →
    run lister config sched st = Some (Return st') →
    coord_inv lister config st'.
Proof.
  induction sched as [| app sched IH]; intros st st' Hinv; cbn.
  - by intros [= <-].
  - destruct (worker_step lister config app st) as [[st1 | p] |] eqn:Hstep;
      [| done | done].
    apply IH. by eapply coord_inv_step.
Qed.

(** Only two workers with a successful listing each can make the writes
    overlap. *)
Lemma worker_step_fatal (app : string) (st : Coord) (p : panic) :
  coord_inv lister config st →
  worker_step lister config app st = Some (Panic p) →
  p = FatalConcurrentMapWrites ∧ two_writers lister config.
Proof.
  intros Hinv. unfold worker_step.
  destruct (running st !! app) as [[j [| t rest]] |] eqn:Happ; [done | | done].
  assert (Hlists : worker_lists lister config app j t st = Some (Panic p) →
                   (∀ records, writing st ≠ Some (app, records)) →
                   p = FatalConcurrentMapWrites ∧ two_writers lister config).
  { unfold worker_lists.
    destruct (lister app j t) as [[err | records] |] eqn:Hlist; [| | done].
    { by destruct (decide _). }
    destruct (writing st) as [[writer records'] |] eqn:Hw; [| done].
    intros [= <-] Hother. split; [done |].
    destruct (inv_writing _ _ _ Hinv _ _ Hw) as (j' & t' & rest' & Hwriter & Hlist').
    destruct (running_configured _ _ _ _ _ Hinv Happ) as (tables & ? & ?).
    destruct (running_configured _ _ _ _ _ Hinv Hwriter) as (tables' & ? & ?).
    exists app, writer, tables, tables', j, j', t, t', records, records'.
    repeat split; try done. intros <-. by eapply Hother. }
  destruct (writing st) as [[writer records] |] eqn:Hw.
  - destruct (decide (writer = app)) as [-> | Hne]; [done |].
    intros H. apply Hlists; [done |]. congruence.
  - intros H. by apply Hlists.
Qed.

Lemma run_fatal (sched : list string) :
  ∀ st p,
    coord_inv lister config st →
    run lister config sched st = Some (Panic p) →
    p = FatalConcurrentMapWrites ∧ two_writers lister config.
Proof.
  induction sched as [| app sched IH]; intros st p Hinv; cbn; [done |].
  destruct (worker_step lister config app st) as [[st1 | p'] |] eqn:Hstep;
    [| | done].
  - apply IH. by eapply coord_inv_step.
  - intros [= <-]. by eapply worker_step_fatal.
Qed.

(** Once every worker has ended, the channel holds exactly the errors of
    the sources that failed, and the map every table of the others. *)
Lemma coord_inv_end (st : Coord) :
  coord_inv lister config st →
  running st = ∅ →
  errChan st ≡ₚ failed_errors lister config
  ∧ (∀ app tables t,
       Tables config !! app = Some tables →
       worker_error lister app 0 tables = None →
       t ∈ tables → is_Some (outputMap st !! t)).
Proof.
  intros [Hrun (fin & Hfin & Hchan & Hkeys) Hout Hcap Hwr] Hend.
  assert (fin = Tables config) as ->.
  { apply map_eq. intros app. apply option_eq. intros tables.
    rewrite Hfin, Hend, lookup_empty. tauto. }
  split; [done |]. eauto.
Qed.
End coordinator.

Lemma drain_from (chan : list error) (acc : list error) :
  foldl (fun allErrors err => Some (multierror_Append allErrors err))
    (Some (MultiError acc)) chan
  = Some (MultiError (acc ++ chan ≫= multierror_flatten)).
Proof.
  revert acc. induction chan as [| e chan IH]; intros acc; cbn.
  - by rewrite app_nil_r.
  - rewrite IH. by rewrite <- app_assoc.
Qed.

(** What the loop over the closed channel leaves in [allErrors]. *)
Lemma drain_spec (chan : list error) :
  drain chan
  = match chan with
    | [] => None
    | _ => Some (MultiError (chan ≫= multierror_flatten))
    end.
Proof.
  destruct chan as [| e chan]; [done |]. unfold drain. cbn [foldl].
  unfold multierror_Append at 2. by rewrite drain_from.
Qed.

Lemma failed_errors_nil (lister : Lister) (config : Config) :
  failed_errors lister config = [] ↔
  ∀ app tables,
    Tables config !! app = Some tables →
    worker_error lister app 0 tables = None.
Proof.
  unfold failed_errors. split.
  - intros Hnil app tables Htables.
    destruct (worker_error lister app 0 tables) as [err |] eqn:Herr; [| done].
    assert (Hin : err ∈ omap (fun '(app, tables) => worker_error lister app 0 tables)
                         (map_to_list (Tables config))).
    { apply list_elem_of_omap. exists (app, tables).
      split; [by apply elem_of_map_to_list | done]. }
    rewrite Hnil in Hin. by apply elem_of_nil in Hin.
  - intros Hall. apply elem_of_nil_inv. intros err Hin.
    apply list_elem_of_omap in Hin as ([app tables] & Hin & Herr).
    apply elem_of_map_to_list in Hin. by rewrite (Hall _ _ Hin) in Herr.
Qed.

Lemma failed_errors_elem (lister : Lister) (config : Config) (err : error) :
  err ∈ failed_errors lister config ↔
  ∃ app tables,
    Tables config !! app = Some tables
    ∧ worker_error lister app 0 tables = Some err.
Proof.
  unfold failed_errors. rewrite list_elem_of_omap. split.
  - intros ([app tables] & Hin & Herr). apply elem_of_map_to_list in Hin. eauto.
  - intros (app & tables & Hin & Herr). exists (app, tables).
    by rewrite elem_of_map_to_list.
Qed.

Section schedule.
Variable lister : Lister.
Variable config : Config.
Hypothesis lister_returns :
  ∀ app tables j t,
    Tables config !! app = Some tables → tables !! j = Some t →
    is_Some (lister app j t).

Lemma run_app (s1 s2 : list string) (st : Coord) :
  run lister config (s1 ++ s2) st
  = match run lister config s1 st with
    | Some (Return st') => run lister config s2 st'
    | outcome => outcome
    end.
Proof.
  revert st. induction s1 as [| app s1 IH]; intros st; cbn; [done |].
  destruct (worker_step lister config app st) as [[st' | p] |]; [apply IH | done | done].
Qed.

Lemma run_cons (app : string) (sched : list string) (st : Coord) :
  run lister config (app :: sched) st
  = match worker_step lister config app st with
    | Some (Return st') => run lister config sched st'
    | Some (Panic p) => Some (Panic p)
    | None => None
    end.
Proof. reflexivity. Qed.

Lemma run_ended (app : string) (n : nat) (st : Coord) :
  running st !! app = None →
  run lister config (replicate n app) st = Some (Return st).
Proof.
  intros Happ. induction n as [| n IH]; cbn [replicate run]; [done |].
  unfold worker_step. by rewrite Happ.
Qed.

Lemma replicate_two_more (app : string) (t : string) (rest : list string) :
  replicate (S (2 * length (t :: rest))) app
  = app :: app :: replicate (S (2 * length rest)) app.
Proof.
  replace (S (2 * length (t :: rest)))%nat with (S (S (S (2 * length rest))))
    by (cbn [length]; lia).
  reflexivity.
Qed.

(** A worker that is alone at the map and is given two steps for every
    table it has left, and one more, ends. *)
Lemma run_worker_listing (app : string) (rest : list string) :
  ∀ (j : nat) (st : Coord),
    coord_inv lister config st →
    running st !! app = Some (j, rest) →
    writing st = None →
    ∃ st',
      run lister config (replicate (S (2 * length rest)) app) st
      = Some (Return st')
      ∧ running st' = delete app (running st)
      ∧ writing st' = None.
Proof.
  induction rest as [| t rest IH]; intros j st Hinv Happ Hw.
  - cbn [length replicate run Nat.mul]. unfold worker_step. rewrite Happ. cbn. eauto.
  - rewrite replicate_two_more, run_cons. unfold worker_step at 1.
    rewrite Happ, Hw. unfold worker_lists. rewrite Hw.
    destruct (running_configured _ _ _ _ _ _ _ Hinv Happ) as (tables & Htables & Hj).
    destruct (lister_returns app tables j t Htables Hj)
      as [[err | records] Hlist]; rewrite Hlist.
    + rewrite decide_True by (by eapply errChan_room).
      change (app :: replicate (S (2 * length rest)) app)
        with (replicate (S (S (2 * length rest))) app).
      rewrite run_ended by (cbn; apply lookup_delete_eq). eauto.
    + rewrite run_cons. unfold worker_step at 1. cbn [running writing].
      rewrite Happ, decide_True by done.
      edestruct (IH (S j)) as (st' & Hrun & Hrunning & Hw').
      * by eapply coord_inv_listed.
      * cbn. apply lookup_insert_eq.
      * done.
      * exists st'. split; [exact Hrun |]. split; [| done].
        rewrite Hrunning. cbn. apply delete_insert_eq.
Qed.

(** The same for a worker that may be inside its assignment. *)
Lemma run_worker (app : string) (rest : list string) (j : nat) (st : Coord) :
  coord_inv lister config st →
  running st !! app = Some (j, rest) →
  (∀ writer records, writing st = Some (writer, records) → writer = app) →
  ∃ st',
    run lister config (replicate (S (2 * length rest)) app) st
    = Some (Return st')
    ∧ running st' = delete app (running st)
    ∧ writing st' = None.
Proof.
  intros Hinv Happ Hown.
  destruct (writing st) as [[writer records] |] eqn:Hw;
    [| by eapply run_worker_listing].
  rewrite (Hown _ _ eq_refl) in Hw.
  destruct (inv_writing _ _ _ Hinv _ _ Hw) as (j' & t & rest' & Happ' & Hlist).
  rewrite Happ in Happ'. injection Happ' as <- ->.
  rewrite replicate_two_more.
  change (app :: app :: replicate (S (2 * length rest')) app)
    with ([app] ++ replicate (S (S (2 * length rest'))) app).
  rewrite (replicate_S_end (S (2 * length rest'))), run_app.
  cbn [run]. unfold worker_step at 1. rewrite Happ, Hw, decide_True by done.
  edestruct (run_worker_listing app rest' (S j)) as (st' & Hrun & Hrunning & Hw').
  - by eapply coord_inv_listed.
  - cbn. apply lookup_insert_eq.
  - done.
  - rewrite run_app, Hrun. cbn [run]. unfold worker_step.
    rewrite Hrunning. cbn [running]. rewrite lookup_delete_eq.
    exists st'. split; [done |]. split; [| done].
    rewrite Hrunning. cbn. apply delete_insert_eq.
Qed.

Lemma run_workers (l : list (string * list string)) :
  NoDup l.*1 →
  ∀ st,
    coord_inv lister config st →
    writing st = None →
    (∀ app tables, (app, tables) ∈ l → running st !! app = Some (0%nat, tables)) →
    ∃ st',
      run lister config
        (l ≫= fun '(app, tables) => replicate (S (2 * length tables)) app) st
      = Some (Return st')
      ∧ ∀ a, running st' !! a
             = if decide (a ∈ l.*1) then None else running st !! a.
Proof.
  induction l as [| [app tables] l IH]; intros Hnodup st Hinv Hw Hall.
  - exists st. split; [done |]. intros a. by rewrite decide_False by apply not_elem_of_nil.
  - cbn in Hnodup. apply NoDup_cons in Hnodup as [Hfresh Hnodup].
    rewrite bind_cons, run_app.
    destruct (run_worker_listing app tables 0 st Hinv)
      as (st1 & Hrun1 & Hrunning1 & Hw1); [apply Hall; by left | done |].
    rewrite Hrun1.
    destruct (IH Hnodup st1) as (st' & Hrun & Hrunning).
    + by eapply coord_inv_run.
    + done.
    + intros app' tables' Hin. rewrite Hrunning1, lookup_delete_ne.
      * apply Hall. by right.
      * intros <-. apply Hfresh. apply list_elem_of_fmap. by exists (app, tables').
    + exists st'. split; [exact Hrun |]. intros a. rewrite Hrunning.
      cbn [fmap list_fmap fst].
      destruct (decide (a ∈ l.*1)) as [Hin | Hout].
      * rewrite decide_True; [done | by right].
      * rewrite Hrunning1. destruct (decide (a = app)) as [-> | Hne].
        -- rewrite decide_True by (by left). apply lookup_delete_eq.
        -- rewrite decide_False, lookup_delete_ne; [done | done |].
           by intros [? | ?]%elem_of_cons.
Qed.

(** Under the sequential schedule every worker ends. *)
Lemma run_sequential_schedule :
  ∃ st, run lister config (sequential_schedule config) (spawn config)
        = Some (Return st)
        ∧ running st = ∅.
Proof.
  destruct (run_workers (map_to_list (Tables config))
              (NoDup_fst_map_to_list _) (spawn config)) as (st & Hrun & Hrunning).
  - apply coord_inv_spawn.
  - done.
  - intros app tables Hin%elem_of_map_to_list. cbn.
    by rewrite lookup_fmap, Hin.
  - exists st. split; [exact Hrun |]. apply map_eq. intros a.
    rewrite Hrunning, lookup_empty. destruct (decide _) as [| Hout]; [done |].
    cbn. rewrite lookup_fmap.
    destruct (Tables config !! a) as [tables |] eqn:Ha; [| done].
    exfalso. apply Hout. apply list_elem_of_fmap. exists (a, tables).
    split; [done | by apply elem_of_map_to_list].
Qed.
End schedule.

(** A step of a running worker whose listing returns is never blocked,
    and it brings the worker nearer to its end. *)
Lemma worker_step_progress (lister : Lister) (config : Config) (app : string)
    (st : Coord) :
  coord_inv lister config st →
  (∀ j table rest,
     running st !! app = Some (j, table :: rest) →
     is_Some (lister app j table)) →
  (∃ p, worker_step lister config app st = Some (Panic p))
  ∨ ∃ st',
      worker_step lister config app st = Some (Return st')
      ∧ (work st' app ≤ pred (work st app))%nat
      ∧ ∀ a, a ≠ app → work st' a = work st a.
Proof.
  intros Hinv Hreturns. unfold worker_step.
  destruct (running st !! app) as [[j [| t rest]] |] eqn:Happ.
  - right. eexists. split; [done |]. unfold work. cbn [running writing].
    rewrite lookup_delete_eq. split; [lia |].
    intros a Hne. by rewrite lookup_delete_ne.
  - assert (Hlists :
      (∀ records, writing st ≠ Some (app, records)) →
      (∃ p, worker_lists lister config app j t st = Some (Panic p))
      ∨ ∃ st',
          worker_lists lister config app j t st = Some (Return st')
          ∧ (work st' app ≤ pred (work st app))%nat
          ∧ ∀ a, a ≠ app → work st' a = work st a).
    { intros Hother. unfold worker_lists.
      destruct (Hreturns j t rest eq_refl) as [[err | records] ->].
      - right. rewrite decide_True by (by eapply errChan_room).
        eexists. split; [done |]. unfold work. cbn [running writing].
        rewrite lookup_delete_eq. split; [lia |].
        intros a Hne. by rewrite lookup_delete_ne.
      - destruct (writing st) as [[writer records'] |] eqn:Hw; [left; eauto |].
        right. eexists. split; [done |]. unfold work. cbn [running writing].
        rewrite Happ, Hw, decide_True by done. split; [cbn [length]; lia |].
        intros a Hne. destruct (running st !! a) as [[] |]; [| done].
        by rewrite decide_False. }
    destruct (writing st) as [[writer records] |] eqn:Hw.
    + destruct (decide (writer = app)) as [-> | Hne].
      * right. eexists. split; [done |]. unfold work. cbn [running writing].
        rewrite lookup_insert_eq, Happ, Hw, decide_True by done.
        split; [cbn [length]; lia |].
        intros a Hne. rewrite lookup_insert_ne by done.
        destruct (running st !! a) as [[] |]; [| done].
        by rewrite decide_False.
      * apply Hlists. congruence.
    + by apply Hlists.
  - right. exists st. split; [done |]. split; [| done].
    unfold work. rewrite Happ. cbn. lia.
Qed.

Lemma turns_cons (app a : string) (sched : list string) :
  turns app (a :: sched)
  = if decide (a = app) then S (turns app sched) else turns app sched.
Proof. unfold turns. rewrite filter_cons. by destruct (decide (a = app)). Qed.

(** Under a schedule that gives every running worker the steps it needs,
    the run ends with every worker at its end or with the fatal error. *)
Lemma run_fair (lister : Lister) (config : Config) (sched : list string) :
  (∀ app tables j t,
     Tables config !! app = Some tables → tables !! j = Some t →
     is_Some (lister app j t)) →
  ∀ st,
    coord_inv lister config st →
    (∀ a, work st a ≤ turns a sched)%nat →
    (∃ p, run lister config sched st = Some (Panic p))
    ∨ ∃ st', run lister config sched st = Some (Return st') ∧ running st' = ∅.
Proof.
  intros Hreturns. induction sched as [| app sched IH]; intros st Hinv Hwork.
  - right. exists st. split; [done |]. apply map_eq. intros a.
    rewrite lookup_empty. specialize (Hwork a). unfold work, turns in Hwork.
    destruct (running st !! a) as [[j rest] |] eqn:Ha; [| done]. exfalso.
    destruct (writing st) as [[writer records] |] eqn:Hw; cbn in Hwork; [| lia].
    destruct (decide (writer = a)) as [-> | ?]; [| lia].
    destruct (inv_writing _ _ _ Hinv _ _ Hw) as (j' & t & rest' & Ha' & _).
    rewrite Ha in Ha'. injection Ha' as <- ->. cbn in Hwork. lia.
  - cbn [run].
    destruct (worker_step_progress lister config app st Hinv)
      as [[p Hstep] | (st' & Hstep & Hless & Hsame)]; [| rewrite Hstep ..].
    + intros j t rest Happ.
      destruct (running_configured _ _ _ _ _ _ _ Hinv Happ) as (tables & ? & ?).
      eauto.
    + left. eauto.
    + apply IH; [by eapply coord_inv_step |].
      intros a. specialize (Hwork a). rewrite turns_cons in Hwork.
      destruct (decide (app = a)) as [<- | Hne]; [lia |].
      by rewrite Hsame.
Qed.
(** What [ExtractAllTables] returns, under any schedule under which it
    returns, and when it ends in the fatal error. *)
Lemma ExtractAllTables_outcome (lister : Lister) (config : Config)
    (sched : list string) (o : result (error + gmap string (list Record_))) :
  ExtractAllTables lister config sched = Some o →
  match o with
  | Return (inr m) =>
      (∀ app tables,
         Tables config !! app = Some tables →
         worker_error lister app 0 tables = None)
      ∧ (∀ app tables t,
           Tables config !! app = Some tables → t ∈ tables → is_Some (m !! t))
      ∧ (∀ t records,
           m !! t = Some records →
           ∃ app tables j,
             Tables config !! app = Some tables
             ∧ tables !! j = Some t
             ∧ lister app j t = Some (inr records))
  | Return (inl allErrors) =>
      ∃ chan,
        chan ≡ₚ failed_errors lister config
        ∧ chan ≠ []
        ∧ allErrors = MultiError (chan ≫= multierror_flatten)
  | Panic p => p = FatalConcurrentMapWrites ∧ two_writers lister config
  end.
Proof.
  unfold ExtractAllTables.
  destruct (run lister config sched (spawn config)) as [[st | p] |] eqn:Hrun;
    [| | done].
  2: { intros [= <-]. eapply run_fatal; [apply coord_inv_spawn | exact Hrun]. }
  destruct (decide (running st = ∅)) as [Hend |]; [| done].
  pose proof (coord_inv_run _ _ _ _ _ (coord_inv_spawn lister config) Hrun)
    as Hinv.
  destruct (coord_inv_end _ _ _ Hinv Hend) as [Hchan Hkeys].
  rewrite drain_spec. destruct (errChan st) as [| e chan] eqn:Hch.
  - intros [= <-].
    assert (Hnone : ∀ app tables,
              Tables config !! app = Some tables →
              worker_error lister app 0 tables = None).
    { apply failed_errors_nil. by apply Permutation_nil. }
    split; [done |]. split; [by eauto |]. apply (inv_output _ _ _ Hinv).
  - intros [= <-]. exists (e :: chan). by split.
Qed.

(** When every listing of a configured table returns, [ExtractAllTables]
    returns under the sequential schedule. *)
Lemma ExtractAllTables_sequential (lister : Lister) (config : Config) :
  (∀ app tables j t,
     Tables config !! app = Some tables → tables !! j = Some t →
     is_Some (lister app j t)) →
  ∃ r, ExtractAllTables lister config (sequential_schedule config)
       = Some (Return r).
Proof.
  intros Hreturns.
  destruct (run_sequential_schedule lister config Hreturns)
    as (st & Hrun & Hend).
  unfold ExtractAllTables. rewrite Hrun.
  rewrite decide_True by done. destruct (drain (errChan st)); eauto.
Qed.

(** When every listing of a configured table returns, [ExtractAllTables]
    ends under every fair schedule: it returns, or the writes to the map
    have overlapped. *)
Lemma ExtractAllTables_fair (lister : Lister) (config : Config)
    (sched : list string) :
  (∀ app tables j t,
     Tables config !! app = Some tables → tables !! j = Some t →
     is_Some (lister app j t)) →
  fair config sched →
  is_Some (ExtractAllTables lister config sched).
Proof.
  intros Hreturns Hfair. unfold ExtractAllTables.
  destruct (run_fair lister config sched Hreturns (spawn config))
    as [[p ->] | (st & -> & Hend)]; [apply coord_inv_spawn | | done |].
  - intros a. unfold work, spawn. cbn [running writing].
    rewrite lookup_fmap.
    destruct (Tables config !! a) as [tables |] eqn:Ha; cbn; [| lia].
    by apply Hfair.
  - rewrite decide_True by done. by destruct (drain (errChan st)).
Qed.

(** C1, amended.  Under every schedule under which it returns,
    [ExtractAllTables] returns the map only if no worker failed; the map then
    holds nothing but what the listings of configured tables returned and
    has an entry for every configured table, which is the result of the
    listing of that table when the table is configured once only.  Otherwise
    it returns an aggregate made of exactly one message for each failed
    source, its error.  When every listing returns, the function ends under
    every fair schedule and returns under the sequential one; it ends
    without returning only by the fatal error of two overlapping writes to
    the map, for which two sources must each have a listing that succeeds. *)
Theorem ExtractAllTables_all_or_nothing (lister : Lister) (config : Config) :
  (∀ sched r,
     ExtractAllTables lister config sched = Some (Return r) →
     match r with
     | inr m =>
         (∀ app tables,
            Tables config !! app = Some tables →
            worker_error lister app 0 tables = None)
         ∧ (∀ t records,
              m !! t = Some records →
              ∃ app tables j,
                Tables config !! app = Some tables
                ∧ tables !! j = Some t
                ∧ lister app j t = Some (inr records))
         ∧ (∀ app tables j t,
              Tables config !! app = Some tables → tables !! j = Some t →
              ∃ records,
                m !! t = Some records
                ∧ ((∀ app' tables' j',
                      Tables config !! app' = Some tables' →
                      tables' !! j' = Some t → app' = app ∧ j' = j) →
                   lister app j t = Some (inr records)))
     | inl allErrors =>
         ∃ chan,
           chan ≡ₚ failed_errors lister config
           ∧ chan ≠ []
           ∧ allErrors = MultiError (chan ≫= multierror_flatten)
           ∧ ∀ app tables err,
               Tables config !! app = Some tables →
               worker_error lister app 0 tables = Some err →
               ∀ e, e ∈ multierror_flatten err →
                    e ∈ chan ≫= multierror_flatten
     end)
  ∧ (∀ sched p,
       ExtractAllTables lister config sched = Some (Panic p) →
       p = FatalConcurrentMapWrites ∧ two_writers lister config)
  ∧ ((∀ app tables j t,
        Tables config !! app = Some tables → tables !! j = Some t →
        is_Some (lister app j t)) →
     (∀ sched, fair config sched →
               is_Some (ExtractAllTables lister config sched))
     ∧ ∃ r, ExtractAllTables lister config (sequential_schedule config)
            = Some (Return r)).
Proof.
  split; [| split].
  - intros sched r Hr. apply ExtractAllTables_outcome in Hr.
    destruct r as [allErrors | m].
    + destruct Hr as (chan & Hperm & Hne & ->). exists chan.
      repeat split; try done.
      intros app tables err Htables Herr e He. apply list_elem_of_bind.
      exists err. split; [done |]. rewrite Hperm.
      apply failed_errors_elem. eauto.
    + destruct Hr as (Hnone & Hkeys & Hout). split; [done |]. split; [done |].
      intros app tables j t Htables Hj.
      destruct (Hkeys app tables t Htables) as [records Ht].
      { apply list_elem_of_lookup. eauto. }
      exists records. split; [done |]. intros Honce.
      destruct (Hout _ _ Ht) as (app' & tables' & j' & Htables' & Hj' & Hlist).
      by destruct (Honce _ _ _ Htables' Hj') as [-> ->].
  - intros sched p Hp. by apply ExtractAllTables_outcome in Hp.
  - intros Hreturns. split.
    + intros sched. by apply ExtractAllTables_fair.
    + by apply ExtractAllTables_sequential.
Qed.

Lemma ExtractAllTables_all_or_nothing_witness :
  (∀ app tables,
     Tables config_pair !! app = Some tables →
     worker_error (clerk_lister 1 config_pair client_pair) app 0 tables = None)
  ∧ (∀ t records,
       ({[ tbl0 := Records page2; tblB := Records page1 ]}
          : gmap string (list Record_)) !! t = Some records →
       ∃ app tables j,
         Tables config_pair !! app = Some tables
         ∧ tables !! j = Some t
         ∧ clerk_lister 1 config_pair client_pair app j t = Some (inr records))
  ∧ (∀ app tables j t,
       Tables config_pair !! app = Some tables → tables !! j = Some t →
       ∃ records,
         ({[ tbl0 := Records page2; tblB := Records page1 ]}
            : gmap string (list Record_)) !! t = Some records
         ∧ ((∀ app' tables' j',
               Tables config_pair !! app' = Some tables' →
               tables' !! j' = Some t → app' = app ∧ j' = j) →
            clerk_lister 1 config_pair client_pair app j t
            = Some (inr records))).
Proof.
  apply (proj1 (ExtractAllTables_all_or_nothing
                  (clerk_lister 1 config_pair client_pair) config_pair)
           [app0; app0; appB; app0; appB; appB]
           (inr {[ tbl0 := Records page2; tblB := Records page1 ]})).
  vm_compute. reflexivity.
Defined.

(** The claim as it stands fails in two ways.  With two sources whose
    listings succeed, the worker of the second can enter its assignment to
    the map while the first is inside its own: the function then returns
    neither a map nor an error.  And the map is keyed by table alone: of a
    table configured under two sources it holds the records of one source
    only, of the one whose worker wrote last. *)
Lemma ExtractAllTables_not_complete :
  ExtractAllTables (clerk_lister 1 config_pair client_pair) config_pair
    [app0; appB]
  = Some (Panic FatalConcurrentMapWrites)
  ∧ clerk_lister 1 config_shared client_pair app0 0%nat tbl0
    = Some (inr (Records page2))
  ∧ clerk_lister 1 config_shared client_pair appB 0%nat tbl0
    = Some (inr (Records page1))
  ∧ ExtractAllTables (clerk_lister 1 config_shared client_pair) config_shared
      [app0; app0; app0; appB; appB; appB]
    = Some (Return (inr {[ tbl0 := Records page1 ]}))
  ∧ ExtractAllTables (clerk_lister 1 config_shared client_pair) config_shared
      [appB; appB; appB; app0; app0; app0]
    = Some (Return (inr {[ tbl0 := Records page2 ]}))
  ∧ Records page1 ≠ Records page2.
Proof. repeat split; by vm_compute. Qed.

(** ** The scenario of one source and one table *)

Lemma ListRecordsPage_ok (c : Clerk) (n : nat) (table offset status : string)
    (page : ListRecordsReply) :
  String.prefix "key" (BearerToken (clerk_Config c)) = true →
  IsAirTableId (BearerToken (clerk_Config c)) = true →
  IsAirTableId (App c) = true →
  IsAirTableId table = true →
  (∀ req, clerk_Client c n req = HttpResponse 200 status (inr page)) →
  ListRecordsPage c n table offset = inr page.
Proof.
  intros Hkey Htoken Happ Htable Hclient. unfold ListRecordsPage.
  by rewrite Hkey, Htoken, Happ, Htable, Hclient.
Qed.

(** C9, amended.  With a token, a source and a table that are valid
    identifiers, and a remote that answers the two requests of the listing
    with a page of five records and a page of three, [ExtractAllTables]
    returns, under every schedule under which it returns, the map that
    holds the eight records under the table, and it returns under the
    sequential schedule. *)
Theorem ExtractAllTables_two_pages (token app table status : string)
    (p1 p2 : ListRecordsReply) (client : string → nat → Client) (fuel : nat) :
  let config := config_one token app table in
  let lister := clerk_lister fuel config client in
  String.prefix "key" token = true →
  IsAirTableId token = true →
  IsAirTableId app = true →
  IsAirTableId table = true →
  length (Records p1) = 5%nat → Offset p1 ≠ "" →
  length (Records p2) = 3%nat → Offset p2 = "" →
  (∀ req, client app 0%nat 0%nat req = HttpResponse 200 status (inr p1)) →
  (∀ req, client app 0%nat 1%nat req = HttpResponse 200 status (inr p2)) →
  (2 ≤ fuel)%nat →
  (∀ sched r,
     ExtractAllTables lister config sched = Some r →
     r = Return (inr {[ table := Records p1 ++ Records p2 ]}))
  ∧ is_Some (ExtractAllTables lister config (sequential_schedule config))
  ∧ length (Records p1 ++ Records p2) = 8%nat.
Proof.
  intros config lister Hkey Htoken Happ Htable Hlen1 Hoff1 Hlen2 Hoff2 H1 H2 Hfuel.
  assert (Hlist : lister app 0%nat table = Some (inr (Records p1 ++ Records p2))).
  { unfold lister, clerk_lister, ListRecordsAll.
    destruct fuel as [| [| fuel]]; [lia | lia |].
    cbn [ListRecordsAll_loop].
    rewrite (ListRecordsPage_ok _ 0 table "" status p1) by done.
    destruct (String.eqb_spec (Offset p1) "") as [| _]; [done |].
    rewrite (ListRecordsPage_ok _ 1 table (Offset p1) status p2) by done.
    by rewrite Hoff2. }
  assert (Hcfg : ∀ app' tables, Tables config !! app' = Some tables →
                                app' = app ∧ tables = [table]).
  { intros app' tables. cbn. by intros [<- <-]%lookup_singleton_Some. }
  split; [| split].
  - intros sched r Hr. apply ExtractAllTables_outcome in Hr.
    destruct r as [[allErrors | m] | p].
    + destruct Hr as (chan & Hperm & Hne & _). exfalso. apply Hne.
      apply Permutation_nil. rewrite Hperm.
      rewrite (proj2 (failed_errors_nil lister config)); [done |].
      intros app' tables [-> ->]%Hcfg. cbn. by rewrite Hlist.
    + destruct Hr as (_ & Hkeys & Hout). do 2 f_equal. apply map_eq. intros t.
      destruct (m !! t) as [records |] eqn:Ht.
      * destruct (Hout _ _ Ht) as (app' & tables & j & [-> ->]%Hcfg & Hj & Hl).
        destruct j as [| j]; [| done]. injection Hj as <-.
        rewrite lookup_singleton_eq. congruence.
      * destruct (decide (t = table)) as [-> | Hne].
        -- destruct (Hkeys app [table] table) as [x Hx];
             [apply lookup_singleton_eq | by left | congruence].
        -- by rewrite lookup_singleton_ne.
    + destruct Hr as (_ & app1 & app2 & tables1 & tables2 & ? & ? & ? & ? & ? & ?
                      & Hne & [-> _]%Hcfg & _ & _ & [-> _]%Hcfg & _).
      done.
  - destruct (ExtractAllTables_sequential lister config) as [r ->]; [| done].
    intros app' tables j t [-> ->]%Hcfg Hj.
    destruct j as [| j]; [| done]. injection Hj as <-. by rewrite Hlist.
  - rewrite length_app. lia.
Qed.

Lemma ExtractAllTables_two_pages_witness :
  (∀ sched r,
     ExtractAllTables
       (clerk_lister 2 (config_one key0 app0 tbl0) (fun _ _ => two_pages))
       (config_one key0 app0 tbl0) sched = Some r →
     r = Return (inr {[ tbl0 := Records page1 ++ Records page2 ]}))
  ∧ is_Some (ExtractAllTables
               (clerk_lister 2 (config_one key0 app0 tbl0) (fun _ _ => two_pages))
               (config_one key0 app0 tbl0)
               (sequential_schedule (config_one key0 app0 tbl0)))
  ∧ length (Records page1 ++ Records page2) = 8%nat.
Proof.
  apply (ExtractAllTables_two_pages key0 app0 tbl0 "200 OK" page1 page2
           (fun _ _ => two_pages) 2).
  - reflexivity.
  - reflexivity.
  - reflexivity.
  - reflexivity.
  - reflexivity.
  - discriminate.
  - reflexivity.
  - reflexivity.
  - intros req. reflexivity.
  - intros req. reflexivity.
  - lia.
Defined.

(** With the source [app1] and the table [tbl1] of the scenario the listing
    makes no request: without a token it fails on the key, with a valid token
    on the source identifier, and [ExtractAllTables] returns the error under
    every schedule. *)
Lemma ExtractAllTables_app1_fails :
  ExtractAllTables (clerk_lister 2 (config_app1 "") (fun _ _ => two_pages))
    (config_app1 "") ["app1"]
  = Some (Return (inl (MultiError [ErrInvalidKey])))
  ∧ ExtractAllTables (clerk_lister 2 (config_app1 key0) (fun _ _ => two_pages))
      (config_app1 key0) ["app1"]
    = Some (Return (inl (MultiError [ErrInvalidApp "app1"])))
  ∧ ∀ token sched m,
      ExtractAllTables
        (clerk_lister 2 (config_app1 token) (fun _ _ => two_pages))
        (config_app1 token) sched
      ≠ Some (Return (inr m)).
Proof.
  split; [by vm_compute | split; [by vm_compute |]].
  intros token sched m Hr. apply ExtractAllTables_outcome in Hr as [Hnone _].
  specialize (Hnone "app1" ["tbl1"] (lookup_singleton_eq _ _)).
  revert Hnone. cbn [worker_error]. unfold clerk_lister, ListRecordsAll.
  cbn [ListRecordsAll_loop]. unfold ListRecordsPage.
  cbn [NewClerk clerk_Config App BearerToken api_Config config_app1].
  destruct (negb (String.prefix "key" token) || negb (IsAirTableId token));
    [done |].
  change (IsAirTableId "app1") with false. done.
Qed.

(** ** Further facts about the model *)

(** [path_Clean] and [path_Join] on the examples of the standard library's
    documentation and tests. *)
Lemma path_Clean_examples :
  path_Clean "" = "." ∧ path_Clean "abc/def" = "abc/def"
  ∧ path_Clean "/" = "/" ∧ path_Clean "abc/" = "abc"
  ∧ path_Clean "../../" = "../.." ∧ path_Clean "//abc//" = "/abc"
  ∧ path_Clean "abc/./def" = "abc/def" ∧ path_Clean "abc/." = "abc"
  ∧ path_Clean "abc/def/../ghi/../jkl" = "abc/jkl"
  ∧ path_Clean "abc/def/../.." = "." ∧ path_Clean "/abc/def/../../.." = "/"
  ∧ path_Clean "abc/def/../../../ghi/jkl/../../../mno" = "../../mno"
  ∧ path_Clean "abc/../../././../def" = "../../def".
Proof. repeat split; reflexivity. Qed.

Lemma path_Join_examples :
  path_Join "a" "b" = "a/b" ∧ path_Join "" "b" = "b"
  ∧ path_Join "/" "a" = "/a" ∧ path_Join "a/" "b" = "a/b"
  ∧ path_Join "a/../" "b" = "b" ∧ path_Join "dl//x/.." "b" = "dl/b".
Proof. repeat split; reflexivity. Qed.

(** The loop of [DownloadAttachments] meets the attachments in ascending
    order of identifier. *)
Lemma sort_Slice_by_Id_Sorted (attachments : list Attachment) :
  Sorted (fun a b => String.ltb (att_Id b) (att_Id a) = false)
    (sort_Slice (fun a b => String.ltb (att_Id a) (att_Id b)) attachments).
Proof.
  assert (Htotal : Total (not_less (fun a b => String.ltb (att_Id a) (att_Id b)))).
  { intros a b. unfold not_less, String.ltb.
    rewrite (String.compare_antisym (att_Id a) (att_Id b)).
    destruct (String.compare (att_Id b) (att_Id a)); cbn; auto. }
  unfold sort_Slice.
  apply (Sorted_merge_sort
           (not_less (fun a b => String.ltb (att_Id a) (att_Id b)))).
Qed.

(** A download that fails before its temporary file exists leaves the files
    as they are. *)
Lemma DownloadAttachment_early_failure (env : DlEnv) (attachment : Attachment)
    (outputDir outputFilename : string) (w w' : World) (errOut : option error) :
  DownloadAttachment env attachment outputDir outputFilename w = (w', errOut) →
  (∃ msg, client_Get env = inl msg) ∨ is_Some (create_err env) →
  files w' = files w ∧ is_Some errOut.
Proof.
  unfold_download. intros Hrun Hearly. revert Hrun.
  destruct (client_Get env) as [msg | resp].
  - intros [= <- <-]. eauto.
  - destruct Hearly as [[msg [=]] | [msg Hcreate]]. rewrite Hcreate.
    destruct (body_close_err env); cbn; intros [= <- <-]; eauto.
Qed.

(** The errors of [ListRecordsAll] are never aggregates, so that each of them
    is one element of the aggregate of [ExtractAllTables]. *)
Lemma ListRecordsPage_error_plain (c : Clerk) (n : nat) (table offset : string)
    (err : error) :
  ListRecordsPage c n table offset = inl err → multierror_flatten err = [err].
Proof.
  unfold ListRecordsPage.
  destruct (negb _ || negb _); [by intros [= <-] |].
  destruct (negb (IsAirTableId (App c))); [by intros [= <-] |].
  destruct (negb (IsAirTableId table)); [by intros [= <-] |].
  destruct (clerk_Client c n _) as [msg | code status [msg | reply]].
  - by intros [= <-].
  - by destruct (negb (code =? 200)); intros [= <-].
  - by destruct (negb (code =? 200)); intros [= <-].
Qed.

Lemma ListRecordsAll_error_plain (fuel : nat) (c : Clerk) (table : string)
    (err : error) :
  ListRecordsAll fuel c table = Some (inl err) → multierror_flatten err = [err].
Proof.
  unfold ListRecordsAll. generalize 0%nat, (@nil Record_), "".
  induction fuel as [| fuel IH]; intros n records offset; [done |].
  cbn [ListRecordsAll_loop].
  destruct (ListRecordsPage c n table offset) as [e | reply] eqn:Hpage.
  - intros [= <-]. by eapply ListRecordsPage_error_plain.
  - destruct (String.eqb (Offset reply) ""); [done | apply IH].
Qed.

(** * Further properties *)

(** ** The record fetcher *)

(** X1.  [ListRecordsPage] returns a page exactly when the token is a valid
    identifier that starts with [key], the source and the table are valid
    identifiers, and the remote answers with status 200 and a body that
    decodes to that page. *)
Lemma ListRecordsPage_page_iff (c : Clerk) (n : nat) (table offset : string)
    (page : ListRecordsReply) :
  ListRecordsPage c n table offset = inr page
  ↔ String.prefix "key" (BearerToken (clerk_Config c)) = true
    ∧ IsAirTableId (BearerToken (clerk_Config c)) = true
    ∧ IsAirTableId (App c) = true
    ∧ IsAirTableId table = true
    ∧ ∃ status,
        clerk_Client c n
          {| req_url := "https://api.airtable.com/v0/" +:+ App c +:+ "/"
                        +:+ table
                        +:+ (if String.eqb offset "" then ""
                             else "?offset=" +:+ offset);
             req_authorization := "Bearer " +:+ BearerToken (clerk_Config c) |}
        = HttpResponse 200 status (inr page).
Proof.
  unfold ListRecordsPage.
  destruct (String.prefix "key" (BearerToken (clerk_Config c)));
    [| cbn; split; [done | by intros [? _]]].
  destruct (IsAirTableId (BearerToken (clerk_Config c)));
    [| cbn; split; [done | by intros (_ & ? & _)]].
  destruct (IsAirTableId (App c));
    [| cbn; split; [done | by intros (_ & _ & ? & _)]].
  destruct (IsAirTableId table);
    [| cbn; split; [done | by intros (_ & _ & _ & ? & _)]].
  cbn [negb orb].
  destruct (clerk_Client c n _) as [msg | code status [msg | reply]].
  - split; [done | by intros (_ & _ & _ & _ & ? & ?)].
  - destruct (Z.eqb_spec code 200) as [-> | Hcode]; cbn [negb].
    + split; [done | by intros (_ & _ & _ & _ & ? & ?)].
    + split; [done | intros (_ & _ & _ & _ & ? & [=])]; done.
  - destruct (Z.eqb_spec code 200) as [-> | Hcode]; cbn [negb].
    + split.
      * intros [= ->]. repeat split; eauto.
      * by intros (_ & _ & _ & _ & ? & [= _ ->]).
    + split; [done | intros (_ & _ & _ & _ & ? & [=])]; done.
Qed.

(** X2.  With a malformed token, source or table, [ListRecordsPage] fails with
    the error of the first malformed one, whatever the client would answer
    and whatever the continuation token is. *)
Lemma ListRecordsPage_fails_fast (app table : string) (config : api.Config)
    (client : Client) (n : nat) (offset : string) :
  ¬ (String.prefix "key" (BearerToken config) = true
     ∧ IsAirTableId (BearerToken config) = true
     ∧ IsAirTableId app = true
     ∧ IsAirTableId table = true) →
  ListRecordsPage (NewClerk app config client) n table offset
  = inl (if negb (String.prefix "key" (BearerToken config))
            || negb (IsAirTableId (BearerToken config))
         then ErrInvalidKey
         else if negb (IsAirTableId app) then ErrInvalidApp app
         else ErrInvalidTable table).
Proof.
  intros Hbad.
  unfold ListRecordsPage. cbn [NewClerk clerk_Config App].
  destruct (String.prefix "key" (BearerToken config)); [| done].
  destruct (IsAirTableId (BearerToken config)); [| done].
  destruct (IsAirTableId app); [| done].
  destruct (IsAirTableId table); [| done].
  by destruct Hbad.
Qed.

Lemma ListRecordsPage_fails_fast_witness :
  ListRecordsPage (NewClerk "app1" {| BearerToken := key0 |} endless_pages)
    0 "tbl1" "" = inl (ErrInvalidApp "app1").
Proof.
  apply (ListRecordsPage_fails_fast "app1" "tbl1" {| BearerToken := key0 |}).
  vm_compute. intros (_ & _ & H & _). discriminate.
Defined.

(** ** The table lister, further *)

Lemma ListRecordsAll_loop_more_fuel (c : Clerk) (table : string) (fuel : nat) :
  ∀ fuel' n records offset r,
    ListRecordsAll_loop fuel c table n records offset = Some r →
    (fuel ≤ fuel')%nat →
    ListRecordsAll_loop fuel' c table n records offset = Some r.
Proof.
  induction fuel as [| fuel IH]; intros fuel' n records offset r; [done |].
  intros Hrun Hle. destruct fuel' as [| fuel']; [lia |].
  cbn [ListRecordsAll_loop] in *.
  destruct (ListRecordsPage c n table offset) as [err | reply]; [done |].
  destruct (String.eqb (Offset reply) ""); [done |].
  apply IH; [done | lia].
Qed.

(** The result of [ListRecordsAll] does not depend on the fuel: once the
    loop has ended within some fuel, it ends with the same result within any
    larger fuel. *)
Lemma ListRecordsAll_result_unique (c : Clerk) (table : string)
    (fuel fuel' : nat) (r r' : error + list Record_) :
  ListRecordsAll fuel c table = Some r →
  ListRecordsAll fuel' c table = Some r' →
  r = r'.
Proof.
  unfold ListRecordsAll. intros Hr Hr'.
  destruct (Nat.le_ge_cases fuel fuel') as [Hle | Hle].
  - pose proof (ListRecordsAll_loop_more_fuel _ _ _ _ _ _ _ _ Hr Hle). congruence.
  - pose proof (ListRecordsAll_loop_more_fuel _ _ _ _ _ _ _ _ Hr' Hle). congruence.
Qed.

(** X3.  The loop of [ListRecordsAll] has no bound of its own: when the remote
    goes on answering with pages that carry a continuation token, the call
    never returns. *)
Lemma ListRecordsAll_never_returns (c : Clerk) (table : string) :
  (∀ n offset, ∃ page,
     ListRecordsPage c n table offset = inr page ∧ Offset page ≠ "") →
  ∀ fuel, ListRecordsAll fuel c table = None.
Proof.
  intros Hpages fuel. unfold ListRecordsAll.
  generalize 0%nat, (@nil Record_), "".
  induction fuel as [| fuel IH]; intros n records offset; [done |].
  cbn [ListRecordsAll_loop].
  destruct (Hpages n offset) as (page & -> & Hoff).
  destruct (String.eqb_spec (Offset page) ""); [done | apply IH].
Qed.

Lemma ListRecordsAll_never_returns_witness :
  ListRecordsAll 1000 (NewClerk app0 {| BearerToken := key0 |} endless_pages)
    tbl0 = None.
Proof.
  apply (ListRecordsAll_never_returns
           (NewClerk app0 {| BearerToken := key0 |} endless_pages) tbl0).
  intros n offset. exists page1. split; [reflexivity | discriminate].
Defined.

(** ** The extraction coordinator, further *)

(** X4.  No worker ever blocks on its send: in every state that a run reaches, a
    worker whose listing has returned can take its step.  The channel of
    capacity [len(config.Tables)] is large enough. *)
Lemma worker_step_never_blocks (lister : Lister) (config : Config)
    (sched : list string) (st : Coord) (app : string) :
  run lister config sched (spawn config) = Some (Return st) →
  (∀ j table rest,
     running st !! app = Some (j, table :: rest) →
     is_Some (lister app j table)) →
  is_Some (worker_step lister config app st).
Proof.
  intros Hrun Hreturns.
  pose proof (coord_inv_run _ _ _ _ _ (coord_inv_spawn lister config) Hrun)
    as Hinv.
  by destruct (worker_step_progress lister config app st Hinv Hreturns)
    as [[p ->] | (st' & -> & _)].
Qed.

Lemma worker_step_never_blocks_witness :
  is_Some (worker_step (clerk_lister 3 config_mixed client_mixed) config_mixed
             appB
             {| running := {[ appB := (0%nat, [tblB; tblC]) ]};
                outputMap := {[ tbl0 := Records page1 ++ Records page2 ]};
                errChan := [];
                writing := None |}).
Proof.
  apply (worker_step_never_blocks _ _ [app0; app0; app0]).
  - vm_compute. reflexivity.
  - intros j table rest H. cbn [running] in H.
    apply lookup_singleton_Some in H as [_ [= <- <- <-]]. by eexists.
Defined.

Section completion.
Variable lister : Lister.
Variable config : Config.
Hypothesis lister_returns :
  ∀ app tables j t,
    Tables config !! app = Some tables → tables !! j = Some t →
    is_Some (lister app j t).

Lemma run_workers_left (l : list (string * (nat * list string))) :
  NoDup l.*1 →
  ∀ st,
    coord_inv lister config st →
    writing st = None →
    (∀ app p, (app, p) ∈ l → running st !! app = Some p) →
    ∃ st',
      run lister config
        (l ≫= fun '(app, (_, rest)) => replicate (S (2 * length rest)) app) st
      = Some (Return st')
      ∧ ∀ a, running st' !! a
             = if decide (a ∈ l.*1) then None else running st !! a.
Proof.
  induction l as [| [app [j rest]] l IH]; intros Hnodup st Hinv Hw Hall.
  - exists st. split; [done |]. intros a.
    by rewrite decide_False by apply not_elem_of_nil.
  - cbn in Hnodup. apply NoDup_cons in Hnodup as [Hfresh Hnodup].
    rewrite bind_cons, run_app.
    destruct (run_worker_listing lister config lister_returns app rest j st Hinv)
      as (st1 & Hrun1 & Hrunning1 & Hw1); [apply Hall; by left | done |].
    rewrite Hrun1.
    destruct (IH Hnodup st1) as (st' & Hrun & Hrunning).
    + by eapply coord_inv_run.
    + done.
    + intros app' p Hin. rewrite Hrunning1, lookup_delete_ne.
      * apply Hall. by right.
      * intros <-. apply Hfresh. apply list_elem_of_fmap. by exists (app, p).
    + exists st'. split; [exact Hrun |]. intros a. rewrite Hrunning.
      cbn [fmap list_fmap fst].
      destruct (decide (a ∈ l.*1)) as [Hin | Hout].
      * rewrite decide_True; [done | by right].
      * rewrite Hrunning1. destruct (decide (a = app)) as [-> | Hne].
        -- rewrite decide_True by (by left). apply lookup_delete_eq.
        -- rewrite decide_False, lookup_delete_ne; [done | done |].
           by intros [? | ?]%elem_of_cons.
Qed.

(** The worker that is inside its assignment completes it. *)
Lemma run_completes_write (st : Coord) :
  coord_inv lister config st →
  ∃ pre st1,
    run lister config pre st = Some (Return st1) ∧ writing st1 = None.
Proof.
  intros Hinv. destruct (writing st) as [[writer records] |] eqn:Hw.
  - destruct (inv_writing _ _ _ Hinv _ _ Hw) as (j & t & rest & Hwriter & _).
    exists [writer]. eexists. cbn [run]. unfold worker_step.
    rewrite Hwriter, Hw, decide_True by done. done.
  - by exists [], st.
Qed.

(** X5.  Whatever the workers have done so far, they can all be brought to their
    end: every schedule that has not blocked and under which no writes have
    overlapped extends to one under which [ExtractAllTables] returns. *)
Lemma ExtractAllTables_can_complete (sched : list string) (st : Coord) :
  run lister config sched (spawn config) = Some (Return st) →
  ∃ sched' r,
    ExtractAllTables lister config (sched ++ sched') = Some (Return r).
Proof.
  intros Hrun.
  pose proof (coord_inv_run _ _ _ _ _ (coord_inv_spawn lister config) Hrun)
    as Hinv.
  destruct (run_completes_write st Hinv) as (pre & st1 & Hpre & Hw1).
  pose proof (coord_inv_run _ _ _ _ _ Hinv Hpre) as Hinv1.
  destruct (run_workers_left (map_to_list (running st1))
              (NoDup_fst_map_to_list _) st1 Hinv1 Hw1)
    as (st' & Hrun' & Hrunning).
  { intros app p. by rewrite elem_of_map_to_list. }
  eexists (pre ++ _). unfold ExtractAllTables.
  rewrite run_app, Hrun, run_app, Hpre, Hrun'.
  rewrite decide_True; [destruct (drain (errChan st')); eauto |].
  apply map_eq. intros a. rewrite Hrunning, lookup_empty.
  destruct (decide _) as [| Hout]; [done |].
  destruct (running st1 !! a) as [p |] eqn:Ha; [| done].
  exfalso. apply Hout. apply list_elem_of_fmap. exists (a, p).
  split; [done | by apply elem_of_map_to_list].
Qed.
End completion.

Lemma config_mixed_listings_return :
  ∀ app tables j t,
    Tables config_mixed !! app = Some tables → tables !! j = Some t →
    is_Some (clerk_lister 3 config_mixed client_mixed app j t).
Proof.
  intros app tables j t Htables Hj. cbn [Tables config_mixed] in Htables.
  apply lookup_insert_Some in Htables as [[<- <-] | [_ Htables]].
  - destruct j as [| j]; [| done]. injection Hj as <-. by eexists.
  - apply lookup_singleton_Some in Htables as [<- <-].
    destruct j as [| [| j]]; [| | done]; injection Hj as <-; by eexists.
Qed.

Lemma ExtractAllTables_can_complete_witness :
  ∃ sched' r,
    ExtractAllTables (clerk_lister 3 config_mixed client_mixed)
      config_mixed ([app0] ++ sched') = Some (Return r).
Proof.
  apply (ExtractAllTables_can_complete _ _ config_mixed_listings_return [app0]
           {| running := {[ app0 := (0%nat, [tbl0]); appB := (0%nat, [tblB; tblC]) ]};
              outputMap := ∅;
              errChan := [];
              writing := Some (app0, Records page1 ++ Records page2) |}).
  vm_compute. reflexivity.
Defined.

(** X6.  When no table is configured for two sources, or twice for one, the
    schedules under which [ExtractAllTables] returns all give the same
    outcome: the same map, or two aggregates of the same errors (in the
    order in which the workers sent them).  The schedules under which two
    writes to the map overlap are the only ones left out. *)
Lemma ExtractAllTables_returns_agree (lister : Lister) (config : Config)
    (sched1 sched2 : list string) (r1 r2 : error + gmap string (list Record_)) :
  (∀ app1 tables1 j1 app2 tables2 j2 t,
     Tables config !! app1 = Some tables1 → tables1 !! j1 = Some t →
     Tables config !! app2 = Some tables2 → tables2 !! j2 = Some t →
     app1 = app2 ∧ j1 = j2) →
  ExtractAllTables lister config sched1 = Some (Return r1) →
  ExtractAllTables lister config sched2 = Some (Return r2) →
  match r1, r2 with
  | inr m1, inr m2 => m1 = m2
  | inl e1, inl e2 =>
      ∃ es1 es2, e1 = MultiError es1 ∧ e2 = MultiError es2 ∧ es1 ≡ₚ es2
  | _, _ => False
  end.
Proof.
  intros Hunique H1%ExtractAllTables_outcome H2%ExtractAllTables_outcome.
  destruct r1 as [e1 | m1], r2 as [e2 | m2].
  - destruct H1 as (chan1 & Hp1 & _ & ->), H2 as (chan2 & Hp2 & _ & ->).
    do 2 eexists. split; [done |]. split; [done |]. by rewrite Hp1, Hp2.
  - destruct H1 as (chan1 & Hp1 & Hne & _), H2 as (Hnone & _).
    apply Hne, Permutation_nil. rewrite Hp1.
    by rewrite (proj2 (failed_errors_nil lister config)).
  - destruct H2 as (chan2 & Hp2 & Hne & _), H1 as (Hnone & _).
    apply Hne, Permutation_nil. rewrite Hp2.
    by rewrite (proj2 (failed_errors_nil lister config)).
  - destruct H1 as (_ & Hkeys1 & Hout1), H2 as (_ & Hkeys2 & Hout2).
    assert (Hsub : ∀ (ma mb : gmap string (list Record_)),
              (∀ app tables t, Tables config !! app = Some tables →
                               t ∈ tables → is_Some (mb !! t)) →
              (∀ t records, ma !! t = Some records →
                 ∃ app tables j, Tables config !! app = Some tables
                                 ∧ tables !! j = Some t
                                 ∧ lister app j t = Some (inr records)) →
              (∀ t records, mb !! t = Some records →
                 ∃ app tables j, Tables config !! app = Some tables
                                 ∧ tables !! j = Some t
                                 ∧ lister app j t = Some (inr records)) →
              ∀ t records, ma !! t = Some records → mb !! t = Some records).
    { intros ma mb Hkb Hoa Hob t records Ht.
      destruct (Hoa _ _ Ht) as (app & tables & j & Htables & Hj & Hl).
      destruct (Hkb app tables t Htables) as [records' Ht'].
      { apply list_elem_of_lookup. eauto. }
      destruct (Hob _ _ Ht') as (app' & tables' & j' & Htables' & Hj' & Hl').
      destruct (Hunique _ _ _ _ _ _ _ Htables Hj Htables' Hj') as [<- <-].
      congruence. }
    apply map_eq. intros t.
    destruct (m1 !! t) as [records |] eqn:Ht1.
    + symmetry. by apply (Hsub m1 m2).
    + destruct (m2 !! t) as [records |] eqn:Ht2; [| done].
      rewrite (Hsub m2 m1 Hkeys1 Hout2 Hout1 _ _ Ht2) in Ht1. done.
Qed.

Lemma ExtractAllTables_returns_agree_witness :
  ({[ tbl0 := Records page2; tblB := Records page1 ]}
     : gmap string (list Record_))
  = {[ tblB := Records page1; tbl0 := Records page2 ]}.
Proof.
  apply (ExtractAllTables_returns_agree
           (clerk_lister 1 config_pair client_pair) config_pair
           [app0; app0; app0; appB; appB; appB]
           [appB; appB; app0; app0; appB; app0]
           (inr {[ tbl0 := Records page2; tblB := Records page1 ]})
           (inr {[ tblB := Records page1; tbl0 := Records page2 ]})).
  - intros app1 tables1 j1 app2 tables2 j2 t H1 Hj1 H2 Hj2.
    cbn [Tables config_pair] in H1, H2.
    apply lookup_insert_Some in H1 as [[<- <-] | [_ H1]];
      [| apply lookup_singleton_Some in H1 as [<- <-]];
      (apply lookup_insert_Some in H2 as [[<- <-] | [_ H2]];
       [| apply lookup_singleton_Some in H2 as [<- <-]]);
      repeat (destruct j1 as [| j1]; try done);
      repeat (destruct j2 as [| j2]; try done);
      injection Hj1 as <-; by injection Hj2.
  - vm_compute. reflexivity.
  - vm_compute. reflexivity.
Defined.

(** X26.  Nothing keeps two workers apart at the map: when the first
    listings of two sources succeed, the worker of the second can enter its
    assignment while the first is inside its own, and [ExtractAllTables]
    ends in the fatal error instead of returning. *)
Lemma ExtractAllTables_writes_can_overlap (lister : Lister) (config : Config)
    (app1 app2 t1 t2 : string) (rest1 rest2 : list string)
    (records1 records2 : list Record_) :
  app1 ≠ app2 →
  Tables config !! app1 = Some (t1 :: rest1) →
  Tables config !! app2 = Some (t2 :: rest2) →
  lister app1 0%nat t1 = Some (inr records1) →
  lister app2 0%nat t2 = Some (inr records2) →
  ExtractAllTables lister config [app1; app2]
  = Some (Panic FatalConcurrentMapWrites).
Proof.
  intros Hne Htables1 Htables2 Hlist1 Hlist2.
  unfold ExtractAllTables. cbn [run].
  unfold worker_step at 1, worker_lists. cbn [spawn running writing].
  rewrite lookup_fmap, Htables1. cbn [fmap option_fmap option_map].
  rewrite Hlist1.
  unfold worker_step, worker_lists. cbn [running writing].
  rewrite lookup_fmap, Htables2. cbn [fmap option_fmap option_map].
  rewrite decide_False by done. by rewrite Hlist2.
Qed.

Lemma ExtractAllTables_writes_can_overlap_witness :
  ExtractAllTables (clerk_lister 1 config_pair client_pair) config_pair
    [appB; app0]
  = Some (Panic FatalConcurrentMapWrites).
Proof.
  apply (ExtractAllTables_writes_can_overlap _ config_pair appB app0 tblB tbl0
           [] [] (Records page1) (Records page2)); by vm_compute.
Defined.

(** X7.  Without any source [ExtractAllTables] returns the empty map at once,
    under every schedule. *)
Lemma ExtractAllTables_no_source (lister : Lister) (config : Config)
    (sched : list string) :
  Tables config = ∅ →
  ExtractAllTables lister config sched = Some (Return (inr ∅)).
Proof.
  intros Hempty. unfold ExtractAllTables.
  assert (Hrun : run lister config sched (spawn config)
                 = Some (Return (spawn config))).
  { induction sched as [| app sched IH]; [done |]. cbn [run].
    unfold worker_step, spawn at 1. cbn [running].
    by rewrite Hempty, fmap_empty, lookup_empty. }
  rewrite Hrun. cbn. rewrite Hempty, fmap_empty. by rewrite decide_True.
Qed.

Lemma ExtractAllTables_no_source_witness :
  ExtractAllTables (clerk_lister 3 config_mixed client_mixed)
    {| api_Config := {| BearerToken := key0 |}; Tables := ∅ |} [app0; appB]
  = Some (Return (inr ∅)).
Proof. by apply ExtractAllTables_no_source. Defined.

(** ** The attachment extractor, further *)

Lemma ExtractAttachments_Forall (tables : list (string * list Record_))
    (attachments : list Attachment) :
  ExtractAttachments tables = Return attachments →
  Forall (fun a =>
            String.prefix AttachmentLinkPrefix (Link a) = true
            ∧ IsAirTableId (att_Id a) = true
            ∧ String.prefix "att" (att_Id a) = true
            ∧ MinInt64 ≤ Size a ≤ MaxInt64) attachments.
Proof.
  rewrite ExtractAttachments_scan, scan_candidates_Return.
  intros (l' & -> & Hl'). cbn. pose proof (candidates_url tables) as Hurl.
  induction Hl' as [| c a cs l' [found Hr] _ IH]; constructor.
  - destruct (ExtractAttachment_Return _ _ _ Hr)
      as [[_ Hnone] | (_ & _ & H2 & _ & H4 & H5 & size & _ & _ & H8)].
    + destruct (Hurl c) as [x Hx]; [by left | congruence].
    + done.
  - apply IH. intros c' Hc'. apply Hurl. by right.
Qed.

(** X8.  Every attachment that [ExtractAttachments] returns has a link with the
    attachment-host prefix, an identifier that is valid and starts with
    [att], and a size within the range of [int64]. *)
Lemma ExtractAttachments_well_formed (tables : list (string * list Record_))
    (attachments : list Attachment) :
  ExtractAttachments tables = Return attachments →
  Forall (fun a =>
            String.prefix AttachmentLinkPrefix (Link a) = true
            ∧ IsAirTableId (att_Id a) = true
            ∧ String.prefix "att" (att_Id a) = true
            ∧ MinInt64 ≤ Size a ≤ MaxInt64) attachments.
Proof. apply ExtractAttachments_Forall. Qed.

Lemma ExtractAttachments_well_formed_witness :
  Forall (fun a =>
            String.prefix AttachmentLinkPrefix (Link a) = true
            ∧ IsAirTableId (att_Id a) = true
            ∧ String.prefix "att" (att_Id a) = true
            ∧ MinInt64 ≤ Size a ≤ MaxInt64) [att0; att1].
Proof. by apply (ExtractAttachments_well_formed tables_ab). Defined.

Lemma download_loop_no_panic (env : RunEnv) (total : nat) (dir : string)
    (l : list Attachment) :
  Forall (fun a => IsAirTableId (att_Id a) = true) l →
  ∀ (i : nat) (w wf : World) (r : result (option error)),
    download_loop env total i l dir w = (wf, r) → ∃ err, r = Return err.
Proof.
  induction 1 as [| a rest Ha _ IH]; intros i w wf r Hrun.
  - injection Hrun as <- <-. eauto.
  - apply download_loop_turn in Hrun.
    destruct Hrun as [Hid -> -> | msg Hid Hstat -> -> | c Hid Hstat Hc Hsize -> ->
            | c Hid Hstat Hc Hsize Hrest | err Hid Hstat Hc Hdl ->
            | w' Hid Hstat Hc Hdl Hrest]; eauto; congruence.
Qed.

Lemma DownloadAttachments_no_panic
    (tables : list (string * list Record_)) (attachments : list Attachment)
    (env : RunEnv) (downloadDir : string) (w : World) :
  ExtractAttachments tables = Return attachments →
  ∃ err, (DownloadAttachments env attachments downloadDir w).2 = Return err.
Proof.
  intros Hvalid%ExtractAttachments_Forall. unfold DownloadAttachments.
  destruct (dir_stat env) as [msg | []]; cbn [negb snd]; eauto.
  destruct (download_loop _ _ _ _ _ _) as [wf r] eqn:Hrun.
  eapply download_loop_no_panic; [| exact Hrun].
  rewrite sort_Slice_Permutation. eapply Forall_impl; [exact Hvalid |].
  by intros a (_ & ? & _).
Qed.

(** X11.  The identifiers that [ExtractAttachments] lets through are valid file
    names for [DownloadAttachments]: on the attachments of an extraction its
    check of the identifier never fires, so the download never panics. *)
Lemma DownloadAttachments_after_extraction
    (tables : list (string * list Record_)) (attachments : list Attachment)
    (env : RunEnv) (downloadDir : string) (w : World) :
  ExtractAttachments tables = Return attachments →
  ∃ err, (DownloadAttachments env attachments downloadDir w).2 = Return err.
Proof. apply DownloadAttachments_no_panic. Qed.

Lemma DownloadAttachments_after_extraction_witness :
  ∃ err, (DownloadAttachments run_env_ok [att0; att1] "dl" world0).2 = Return err.
Proof. by apply (DownloadAttachments_after_extraction tables_ab). Defined.

(** X10.  [ExtractAttachment] reads the keys [url], [id] and [size] only: two
    mappings that agree on them give the same outcome, whatever else they
    hold. *)
Lemma ExtractAttachment_reads_three_keys (m1 m2 : gmap string value) :
  m1 !! "url" = m2 !! "url" →
  m1 !! "id" = m2 !! "id" →
  m1 !! "size" = m2 !! "size" →
  ExtractAttachment m1 = ExtractAttachment m2.
Proof. intros Hurl Hid Hsize. unfold ExtractAttachment. by rewrite Hurl, Hid, Hsize. Qed.

Lemma ExtractAttachment_reads_three_keys_witness :
  ExtractAttachment (<["filename" := VStr "x.png"]> (descriptor (Float64 42 0)))
  = ExtractAttachment (descriptor (Float64 42 0)).
Proof. by apply ExtractAttachment_reads_three_keys. Defined.

Lemma bind_nil_all {A B : Type} (f : A → list B) (l : list A) :
  (∀ x, x ∈ l → f x = []) → l ≫= f = [].
Proof.
  induction l as [| x l IH]; intros Hall; [done |].
  rewrite bind_cons, Hall by (by left). cbn. apply IH.
  intros y Hy. apply Hall. by right.
Qed.

(** X9.  [ExtractAttachments] looks at the elements of sequence-valued fields
    only: when none of them is a mapping with a [url] key, it returns no
    attachment and does not panic, whatever the fields hold besides (scalars,
    mappings, sequences inside sequences). *)
Lemma ExtractAttachments_nothing_found (tables : list (string * list Record_)) :
  (∀ name table record field items item (m : gmap string value),
     (name, table) ∈ tables → record ∈ table →
     (field, VArr items) ∈ Fields record → item ∈ items →
     item = VMap m → m !! "url" = None) →
  ExtractAttachments tables = Return [].
Proof.
  intros Hnone. rewrite ExtractAttachments_scan.
  assert (candidates tables = []) as ->; [| done].
  unfold candidates. apply bind_nil_all. intros [name table] Htable.
  apply bind_nil_all. intros record Hrecord.
  apply bind_nil_all. intros [field v] Hfield.
  destruct v as [| | | | items |]; try done. cbn.
  apply elem_of_nil_inv. intros c Hc.
  apply list_elem_of_omap in Hc as (item & Hitem & Hc).
  destruct item as [| | | | | m]; try done.
  rewrite (Hnone name table record field items (VMap m) m) in Hc; done.
Qed.

Lemma ExtractAttachments_nothing_found_witness :
  ExtractAttachments tables_nested = Return [].
Proof.
  apply ExtractAttachments_nothing_found.
  intros name table record field items item m Htable Hrecord Hfield Hitem ->.
  apply list_elem_of_singleton in Htable as [= -> ->].
  apply list_elem_of_singleton in Hrecord as ->.
  cbn [Fields] in Hfield.
  repeat (apply elem_of_cons in Hfield as [[=] | Hfield]); subst.
  - repeat (apply elem_of_cons in Hitem as [[=] | Hitem]).
    by apply elem_of_nil in Hitem.
  - by apply elem_of_nil in Hfield.
Defined.

(** ** The attachment downloader, further *)

(** X12.  A run of [DownloadAttachments] never removes or rewrites a file that is
    already at the path of a valid identifier, however the run ends. *)
Lemma DownloadAttachments_keeps_files (env : RunEnv)
    (attachments : list Attachment) (downloadDir id : string)
    (content : list Byte.byte) (w w' : World) (r : result (option error)) :
  IsAirTableId id = true →
  files w !! path_Join downloadDir id = Some content →
  DownloadAttachments env attachments downloadDir w = (w', r) →
  files w' !! path_Join downloadDir id = Some content.
Proof.
  intros Hid Hfile. unfold DownloadAttachments.
  destruct (dir_stat env) as [msg | []]; cbn [negb];
    try (by intros [= <- <-]).
  by eapply download_loop_keeps_file.
Qed.

Lemma DownloadAttachments_keeps_files_witness :
  files (DownloadAttachments run_env_ok [att1; att0] "dl" world_att0).1
    !! path_Join "dl" (att_Id att0) = Some bytes3.
Proof.
  apply (DownloadAttachments_keeps_files run_env_ok [att1; att0] "dl"
           (att_Id att0) bytes3 world_att0 _
           (DownloadAttachments run_env_ok [att1; att0] "dl" world_att0).2).
  - reflexivity.
  - reflexivity.
  - by destruct (DownloadAttachments _ _ _ _).
Defined.

Lemma DownloadAttachments_success_files (env : RunEnv)
    (attachments : list Attachment) (downloadDir : string) (w w' : World) :
  DownloadAttachments env attachments downloadDir w = (w', Return None) →
  ∀ a, a ∈ attachments →
    ∃ content, files w' !! path_Join downloadDir (att_Id a) = Some content
               ∧ Z.of_nat (length content) = Size a.
Proof.
  unfold DownloadAttachments.
  destruct (dir_stat env) as [msg | []]; cbn [negb]; try done.
  intros Hrun a Ha.
  apply (download_loop_success_files _ _ _ _ _ _ _ Hrun).
  by rewrite sort_Slice_Permutation.
Qed.

(** X13.  Two attachments with one identifier and different sizes make every run
    fail: [DownloadAttachments] does not return [nil]. *)
Lemma DownloadAttachments_collision (env : RunEnv)
    (attachments : list Attachment) (downloadDir : string) (w w' : World)
    (r : result (option error)) (a b : Attachment) :
  a ∈ attachments → b ∈ attachments →
  att_Id a = att_Id b → Size a ≠ Size b →
  DownloadAttachments env attachments downloadDir w = (w', r) →
  r ≠ Return None.
Proof.
  intros Ha Hb Hid Hsize Hrun ->.
  destruct (DownloadAttachments_success_files _ _ _ _ _ Hrun a Ha)
    as (ca & Hca & Hla).
  destruct (DownloadAttachments_success_files _ _ _ _ _ Hrun b Hb)
    as (cb & Hcb & Hlb).
  rewrite Hid in Hca. congruence.
Qed.

(** X14.  An attachment with a negative size, which the extractor lets through,
    makes every run fail: no file has a negative size. *)
Lemma DownloadAttachments_negative_size (env : RunEnv)
    (attachments : list Attachment) (downloadDir : string) (w w' : World)
    (r : result (option error)) (a : Attachment) :
  a ∈ attachments → Size a < 0 →
  DownloadAttachments env attachments downloadDir w = (w', r) →
  r ≠ Return None.
Proof.
  intros Ha Hsize Hrun ->.
  destruct (DownloadAttachments_success_files _ _ _ _ _ Hrun a Ha)
    as (c & _ & Hc). lia.
Qed.

Lemma DownloadAttachments_collision_witness :
  (DownloadAttachments run_env_ok [att0; att0_longer] "dl" world0).2
  ≠ Return None.
Proof.
  apply (DownloadAttachments_collision run_env_ok [att0; att0_longer] "dl"
           world0 (DownloadAttachments run_env_ok [att0; att0_longer] "dl" world0).1
           _ att0 att0_longer).
  - by left.
  - right. by left.
  - reflexivity.
  - discriminate.
  - by destruct (DownloadAttachments _ _ _ _).
Defined.

Lemma DownloadAttachments_negative_size_witness :
  (DownloadAttachments run_env_ok [att1; att_negative] "dl" world0).2
  ≠ Return None.
Proof.
  apply (DownloadAttachments_negative_size run_env_ok [att1; att_negative] "dl"
           world0 (DownloadAttachments run_env_ok [att1; att_negative] "dl" world0).1
           _ att_negative).
  - right. by left.
  - reflexivity.
  - by destruct (DownloadAttachments _ _ _ _).
Defined.

(** X15.  A download for one identifier leaves the files of every other
    identifier of the directory as they are, the final file and the
    temporary one, however the download ends. *)
Lemma DownloadAttachment_other_identifiers (env : DlEnv)
    (attachment : Attachment) (outputDir id other : string) (w w' : World)
    (errOut : option error) :
  IsAirTableId id = true →
  IsAirTableId other = true →
  other ≠ id →
  DownloadAttachment env attachment outputDir id w = (w', errOut) →
  files w' !! path_Join outputDir other = files w !! path_Join outputDir other
  ∧ files w' !! path_Join outputDir ("TEMP." +:+ other)
    = files w !! path_Join outputDir ("TEMP." +:+ other).
Proof.
  intros Hid Hother Hne Hrun.
  split; eapply DownloadAttachment_other_files; try exact Hrun.
  - apply not_eq_sym, temp_path_ne_final. by rewrite !IsAirTableId_length.
  - by intros ?%path_Join_inj.
  - intros H%path_Join_inj. by apply (append_inj_l "TEMP.") in H.
  - apply temp_path_ne_final. by rewrite !IsAirTableId_length.
Qed.

Lemma DownloadAttachment_other_identifiers_witness :
  files (DownloadAttachment env_broken_body_no_remove att1 "dl" (att_Id att1)
           world_att0).1 !! path_Join "dl" (att_Id att0)
  = files world_att0 !! path_Join "dl" (att_Id att0)
  ∧ files (DownloadAttachment env_broken_body_no_remove att1 "dl" (att_Id att1)
             world_att0).1 !! path_Join "dl" ("TEMP." +:+ att_Id att0)
    = files world_att0 !! path_Join "dl" ("TEMP." +:+ att_Id att0).
Proof.
  apply (DownloadAttachment_other_identifiers env_broken_body_no_remove att1
           "dl" (att_Id att1) (att_Id att0) world_att0 _
           (DownloadAttachment env_broken_body_no_remove att1 "dl" (att_Id att1)
              world_att0).2).
  - reflexivity.
  - reflexivity.
  - discriminate.
  - by destruct (DownloadAttachment _ _ _ _ _).
Defined.

(** X16.  When the request fails, or the temporary file cannot be created, the
    download returns an error and leaves every file as it is. *)
Lemma DownloadAttachment_fails_early (env : DlEnv) (attachment : Attachment)
    (outputDir outputFilename : string) (w w' : World) (errOut : option error) :
  DownloadAttachment env attachment outputDir outputFilename w = (w', errOut) →
  (∃ msg, client_Get env = inl msg) ∨ is_Some (create_err env) →
  files w' = files w ∧ is_Some errOut.
Proof. apply DownloadAttachment_early_failure. Qed.

Lemma DownloadAttachment_fails_early_witness :
  files (DownloadAttachment env_no_connection att0 "dl" (att_Id att0)
           world_att0).1 = files world_att0
  ∧ is_Some (DownloadAttachment env_no_connection att0 "dl" (att_Id att0)
               world_att0).2.
Proof.
  apply (DownloadAttachment_fails_early env_no_connection att0 "dl"
           (att_Id att0) world_att0).
  - by destruct (DownloadAttachment _ _ _ _ _).
  - left. by eexists.
Defined.

(** X17.  The error that makes a download fail is the error it returns, alone or
    as the first element of the aggregate: the failures of the cleanup are
    added after it and never take its place. *)
Lemma DownloadAttachment_error_first (env : DlEnv) (attachment : Attachment)
    (outputDir outputFilename : string) (w w' : World) (resp : Response)
    (errOut : option error) (err : error) :
  client_Get env = inr resp →
  create_err env = None →
  first_failure env attachment resp = Some err →
  DownloadAttachment env attachment outputDir outputFilename w = (w', errOut) →
  errOut = Some err ∨ ∃ cleanup, errOut = Some (MultiError (err :: cleanup)).
Proof.
  unfold first_failure. unfold_download. intros HGet Hcreate. rewrite HGet, Hcreate.
  destruct (copy_err resp);
    destruct (Z.eqb_spec (Z.of_nat (length (Body resp))) (Size attachment));
    destruct (close_err env); destruct (rename_err env);
    destruct (remove_err env); destruct (body_close_err env);
    cbn; rewrite ?lookup_insert_eq; cbn; intros [= <-] [= <- <-]; eauto.
Qed.

Lemma DownloadAttachment_error_first_witness :
  (DownloadAttachment env_all_cleanup_fails att0 "dl" (att_Id att0) world0).2
  = Some (ErrOpaque "unexpected EOF")
  ∨ ∃ cleanup,
      (DownloadAttachment env_all_cleanup_fails att0 "dl" (att_Id att0) world0).2
      = Some (MultiError (ErrOpaque "unexpected EOF" :: cleanup)).
Proof.
  apply (DownloadAttachment_error_first env_all_cleanup_fails att0 "dl"
           (att_Id att0) world0
           (DownloadAttachment env_all_cleanup_fails att0 "dl" (att_Id att0)
              world0).1
           {| Body := [Byte.x01]; copy_err := Some "unexpected EOF" |}).
  - reflexivity.
  - reflexivity.
  - reflexivity.
  - by destruct (DownloadAttachment _ _ _ _ _).
Defined.

(** ** The backup writer *)

(** The one-error form of [multierror.Append] is the several-errors form
    with one error. *)
Lemma multierror_Append_all_one (err : option error) (new : error) :
  multierror_Append_all err [Some new] = multierror_Append err new.
Proof.
  unfold multierror_Append_all, multierror_Append. cbn.
  rewrite app_nil_r. by destruct err as [[] |].
Qed.

Lemma Save_nil_iff_files (env : SaveEnv) (b : Backup) (outputPath : string)
    (w w' : World) :
  Save env b outputPath w = (w', None) →
  files w' = <[outputPath := json_Encode env b]> (files w).
Proof.
  unfold Save, save_Remove.
  destruct (save_create_err env); [done |].
  destruct (write_fault env) as [[n msg] |].
  { by destruct (save_remove_err env). }
  destruct (save_close_err env).
  { by destruct (save_remove_err env). }
  unfold set_files. cbn [files trace]. rewrite insert_insert_eq.
  by intros [= <-].
Qed.

(** X18.  [Save] returns [nil] exactly when creating, writing and closing the file
    all succeed, and the file then holds the encoding of the backup. *)
Lemma Save_nil_iff (env : SaveEnv) (b : Backup) (outputPath : string)
    (w w' : World) :
  Save env b outputPath w = (w', None)
  ↔ save_create_err env = None ∧ write_fault env = None
    ∧ save_close_err env = None
    ∧ w' = set_files (<[outputPath := json_Encode env b]> (files w)) w.
Proof.
  unfold Save, save_Remove.
  destruct (save_create_err env); [split; [done | by intros [? _]] |].
  destruct (write_fault env) as [[n msg] |].
  { destruct (save_remove_err env); (split; [done | by intros (_ & ? & _)]). }
  destruct (save_close_err env).
  { destruct (save_remove_err env); (split; [done | by intros (_ & _ & ? & _)]). }
  unfold set_files. cbn [files trace]. rewrite insert_insert_eq.
  split; [by intros [= <-] | by intros (_ & _ & _ & ->)].
Qed.

(** X19.  When the file is created and writing or closing it fails, [Save] returns
    an error and, if [os.Remove] succeeds, leaves no file at the path: what
    was there before the call, an earlier backup for instance, is gone.  If
    [os.Remove] fails, the truncated or partly written file stays. *)
Lemma Save_failure (env : SaveEnv) (b : Backup) (outputPath : string)
    (w w' : World) (err : option error) :
  Save env b outputPath w = (w', err) →
  save_create_err env = None →
  is_Some (write_fault env) ∨ is_Some (save_close_err env) →
  is_Some err
  ∧ match save_remove_err env with
    | None => files w' = delete outputPath (files w)
    | Some _ => is_Some (files w' !! outputPath)
    end.
Proof.
  unfold Save, save_Remove, set_files. intros Hrun Hcreate Hfail. revert Hrun.
  rewrite Hcreate.
  destruct (write_fault env) as [[n msg] |];
    [| destruct (save_close_err env) as [msg |];
       [| by destruct Hfail as [[? [=]] | [? [=]]]]];
    destruct (save_remove_err env) as [msg' |]; cbn [files trace];
    intros [= <- <-]; cbn [files];
    (split; [by eexists |]);
    rewrite ?lookup_insert_eq, ?delete_insert_eq; by eauto.
Qed.

Lemma Save_failure_witness :
  is_Some (Save save_env_broken backup0 "backup.json" world_backup).2
  ∧ files (Save save_env_broken backup0 "backup.json" world_backup).1
    = delete "backup.json" (files world_backup).
Proof.
  apply (Save_failure save_env_broken backup0 "backup.json" world_backup).
  - by destruct (Save _ _ _ _).
  - reflexivity.
  - left. by eexists.
Defined.

(** If the file cannot be created, [Save] returns the error of [os.Create]
    and the files are as before. *)
Lemma Save_not_created (env : SaveEnv) (b : Backup) (outputPath : string)
    (w : World) (msg : string) :
  save_create_err env = Some msg →
  Save env b outputPath w = (w, Some (ErrOpaque msg)).
Proof. unfold Save. by intros ->. Qed.

(** ** The pipeline *)

Lemma Save_trace (env : SaveEnv) (b : Backup) (outputPath : string)
    (w w' : World) (err : option error) :
  Save env b outputPath w = (w', err) → trace w' = trace w.
Proof.
  unfold Save, save_Remove, set_files.
  destruct (save_create_err env); [by intros [= <- <-] |].
  destruct (write_fault env) as [[n msg] |];
    [| destruct (save_close_err env)];
    destruct (save_remove_err env); by intros [= <- <-].
Qed.

Lemma Main_inv (env : MainEnv) (configPath outputPath downloadPath : string)
    (w w' : World) (r : result (option error)) :
  Main env configPath outputPath downloadPath w = Some (w', r) →
  Main_course env configPath outputPath downloadPath w w' r.
Proof.
  unfold Main.
  destruct (loadConfig env configPath) as [msg | config] eqn:Hload.
  { intros [= <- <-]. by eapply course_no_config. }
  destruct (ExtractAllTables _ config (schedule env))
    as [[[err | tables] | p] |] eqn:Htables; cbn [mbind option_bind];
    [| | | done].
  { intros [= <- <-]. by eapply course_no_tables. }
  2: { intros [= <- <-]. by eapply course_fatal. }
  destruct (ExtractAttachments (range_order env tables)) as [attachments | p]
    eqn:Hatt.
  2: { intros [= <- <-]. by eapply course_panic. }
  destruct (Save _ _ _ _) as [w1 [err |]] eqn:Hsave.
  - intros [= <- <-]. by eapply course_not_saved.
  - destruct (DownloadAttachments _ _ _ _) as [w2 r2] eqn:Hdl.
    intros [= <- <-]. by eapply course_saved.
Qed.

(** X20.  When [Main] panics, the panic is the fatal error of
    [ExtractAllTables] or comes from [ExtractAttachments] on the tables that
    [ExtractAllTables] returned, and never from [DownloadAttachments]; no
    file has been created or changed by then, the backup file included, and
    no attachment has been requested. *)
Lemma Main_panic_origin (env : MainEnv)
    (configPath outputPath downloadPath : string) (w w' : World) (p : panic) :
  Main env configPath outputPath downloadPath w = Some (w', Panic p) →
  files w' = files w
  ∧ trace w' = trace w
  ∧ ∃ config,
      loadConfig env configPath = inr config
      ∧ (ExtractAllTables
           (clerk_lister (listing_fuel env) config (http_client env)) config
           (schedule env) = Some (Panic p)
         ∨ ∃ tables,
             ExtractAllTables
               (clerk_lister (listing_fuel env) config (http_client env))
               config (schedule env) = Some (Return (inr tables))
             ∧ ExtractAttachments (range_order env tables) = Panic p).
Proof.
  intros Hmain%Main_inv.
  destruct Hmain as [msg _ _ [=] | config p' Hload Hfatal -> [= <-]
                     | config err _ _ _ [=]
                     | config tables p' Hload Htables Hpanic -> [= <-]
                     | config tables attachments err _ _ _ _ [=]
                     | config tables attachments w1 _ _ Hatt _ Hdl].
  - repeat split; try done. exists config. split; [done |]. by left.
  - repeat split; try done. exists config. split; [done |]. right. eauto.
  - destruct (DownloadAttachments_no_panic _ _ (run_env env) downloadPath w1 Hatt)
      as [err Herr].
    rewrite Hdl in Herr. done.
Qed.

(** X21.  No request for an attachment is made unless the backup has been saved:
    when the trace of [Main] has grown, [Save] had returned [nil] and the
    backup file held the whole encoding before the first request. *)
Lemma Main_saves_before_download (env : MainEnv)
    (configPath outputPath downloadPath : string) (w w' : World)
    (r : result (option error)) :
  Main env configPath outputPath downloadPath w = Some (w', r) →
  trace w' ≠ trace w →
  ∃ config tables attachments w1,
    loadConfig env configPath = inr config
    ∧ ExtractAttachments (range_order env tables) = Return attachments
    ∧ Save (save_env env)
        {| b_Config := Tables config; b_Tables := tables;
           b_Attachments := attachments |} outputPath w = (w1, None)
    ∧ files w1 !! outputPath
      = Some (json_Encode (save_env env)
                {| b_Config := Tables config; b_Tables := tables;
                   b_Attachments := attachments |})
    ∧ DownloadAttachments (run_env env) attachments downloadPath w1 = (w', r).
Proof.
  intros Hmain%Main_inv Htrace.
  destruct Hmain as [msg _ -> _ | config p _ _ -> _ | config err _ _ -> _
                     | config tables p _ _ _ -> _
                     | config tables attachments err _ _ _ Hsave _
                     | config tables attachments w1 Hload _ Hatt Hsave Hdl];
    try done.
  - by apply Save_trace in Hsave.
  - exists config, tables, attachments, w1. repeat split; try done.
    apply Save_nil_iff_files in Hsave. by rewrite Hsave, lookup_insert_eq.
Qed.

(** X22.  When [Main] returns [nil], the tables have been listed, [Save] has
    returned [nil], and every attachment that the extraction found is in the
    download directory, at the path of its identifier and with its declared
    size. *)
Lemma Main_nil (env : MainEnv) (configPath outputPath downloadPath : string)
    (w w' : World) :
  Main env configPath outputPath downloadPath w = Some (w', Return None) →
  ∃ config tables attachments w1,
    loadConfig env configPath = inr config
    ∧ ExtractAllTables
        (clerk_lister (listing_fuel env) config (http_client env)) config
        (schedule env) = Some (Return (inr tables))
    ∧ ExtractAttachments (range_order env tables) = Return attachments
    ∧ Save (save_env env)
        {| b_Config := Tables config; b_Tables := tables;
           b_Attachments := attachments |} outputPath w = (w1, None)
    ∧ DownloadAttachments (run_env env) attachments downloadPath w1
      = (w', Return None)
    ∧ ∀ a, a ∈ attachments →
        ∃ content,
          files w' !! path_Join downloadPath (att_Id a) = Some content
          ∧ Z.of_nat (length content) = Size a.
Proof.
  intros Hmain%Main_inv.
  destruct Hmain as [msg _ _ [=] | config p' _ _ _ [=] | config err _ _ _ [=]
                     | config tables p' _ _ _ _ [=]
                     | config tables attachments err _ _ _ _ [=]
                     | config tables attachments w1 Hload Htables Hatt Hsave Hdl].
  exists config, tables, attachments, w1. repeat split; try done.
  by eapply DownloadAttachments_success_files.
Qed.

Lemma Main_panic_origin_witness :
  files world_backup = files world_backup
  ∧ trace world_backup = trace world_backup
  ∧ ∃ config,
      loadConfig (main_env [VMap (descriptor (Float64 85 (-1)))]) "config.json"
      = inr config
      ∧ (ExtractAllTables
           (clerk_lister 2 config
              (client_items [VMap (descriptor (Float64 85 (-1)))])) config
           [app0; app0; app0] = Some (Panic PanicInvalidSize)
         ∨ ∃ tables,
             ExtractAllTables
               (clerk_lister 2 config
                  (client_items [VMap (descriptor (Float64 85 (-1)))])) config
               [app0; app0; app0] = Some (Return (inr tables))
             ∧ ExtractAttachments (map_to_list tables) = Panic PanicInvalidSize).
Proof.
  apply (Main_panic_origin (main_env [VMap (descriptor (Float64 85 (-1)))])
           "config.json" "backup.json" "dl" world_backup world_backup
           PanicInvalidSize).
  vm_compute. reflexivity.
Defined.

Lemma Main_nil_witness :
  ∃ config tables attachments w1,
    loadConfig (main_env [descriptor_of att0; descriptor_of att1]) "config.json"
    = inr config
    ∧ ExtractAllTables
        (clerk_lister 2 config
           (client_items [descriptor_of att0; descriptor_of att1])) config
        [app0; app0; app0] = Some (Return (inr tables))
    ∧ ExtractAttachments (map_to_list tables) = Return attachments
    ∧ Save save_env_ok
        {| b_Config := Tables config; b_Tables := tables;
           b_Attachments := attachments |} "backup.json" world_backup
      = (w1, None)
    ∧ DownloadAttachments run_env_ok attachments "dl" w1
      = ((default (world0, Return None)
            (Main (main_env [descriptor_of att0; descriptor_of att1])
               "config.json" "backup.json" "dl" world_backup)).1,
         Return None)
    ∧ ∀ a, a ∈ attachments →
        ∃ content,
          files (default (world0, Return None)
                   (Main (main_env [descriptor_of att0; descriptor_of att1])
                      "config.json" "backup.json" "dl" world_backup)).1
            !! path_Join "dl" (att_Id a) = Some content
          ∧ Z.of_nat (length content) = Size a.
Proof.
  apply (Main_nil (main_env [descriptor_of att0; descriptor_of att1])
           "config.json" "backup.json" "dl" world_backup).
  vm_compute. reflexivity.
Defined.

Lemma Main_saves_before_download_witness :
  ∃ config tables attachments w1,
    loadConfig (main_env [descriptor_of att0]) "config.json" = inr config
    ∧ ExtractAttachments (map_to_list tables) = Return attachments
    ∧ Save save_env_ok
        {| b_Config := Tables config; b_Tables := tables;
           b_Attachments := attachments |} "backup.json" world_backup
      = (w1, None)
    ∧ files w1 !! "backup.json"
      = Some (json_Encode save_env_ok
                {| b_Config := Tables config; b_Tables := tables;
                   b_Attachments := attachments |})
    ∧ DownloadAttachments run_env_ok attachments "dl" w1
      = default (world0, Return None)
          (Main (main_env [descriptor_of att0]) "config.json" "backup.json"
             "dl" world_backup).
Proof.
  apply (Main_saves_before_download (main_env [descriptor_of att0])
           "config.json" "backup.json" "dl" world_backup).
  - vm_compute. reflexivity.
  - vm_compute. discriminate.
Defined.

(** ** The file names of the earlier revision *)

Lemma append_cons (c : ascii) (s t : string) :
  String c s +:+ t = String c (s +:+ t).
Proof. reflexivity. Qed.

Lemma append_nil (t : string) : EmptyString +:+ t = t.
Proof. reflexivity. Qed.

Lemma prefix_append (p s : string) : String.prefix p (p +:+ s) = true.
Proof.
  induction p as [| c p IH]; [by destruct s |].
  rewrite append_cons. cbn [String.prefix].
  destruct (ascii_dec c c); [exact IH | congruence].
Qed.

Lemma string_drop_append (p s : string) :
  rev1.string_drop (String.length p) (p +:+ s) = s.
Proof.
  induction p as [| c p IH]; [by destruct s |].
  rewrite append_cons. cbn [String.length rev1.string_drop]. apply IH.
Qed.

Lemma prefix_split (p s : string) :
  String.prefix p s = true → s = p +:+ rev1.string_drop (String.length p) s.
Proof.
  revert s. induction p as [| c p IH]; intros s.
  - intros _. rewrite append_nil. by destruct s.
  - destruct s as [| d s]; [done |]. cbn [String.prefix].
    destruct (ascii_dec c d) as [<- | ?]; [| done].
    intros H. rewrite append_cons. cbn [String.length rev1.string_drop].
    f_equal. by apply IH.
Qed.

Lemma ReplaceAll_byte_append (s t : string) (old : ascii) (new : string) :
  rev1.ReplaceAll_byte (s +:+ t) old new
  = rev1.ReplaceAll_byte s old new +:+ rev1.ReplaceAll_byte t old new.
Proof.
  induction s as [| c s IH]; [done |].
  rewrite append_cons. cbn [rev1.ReplaceAll_byte]. rewrite IH.
  destruct (Ascii.eqb c old); [| by rewrite append_cons].
  generalize (rev1.ReplaceAll_byte s old new) (rev1.ReplaceAll_byte t old new).
  intros a b. clear IH. induction new as [| d new IHn]; [done |].
  rewrite !append_cons. by rewrite IHn.
Qed.

Lemma AttachmentFilename_tail (s : string) :
  rev1.AttachmentFilename (rev1.AttachmentLinkPrefix +:+ s)
  = Some (rev1.ReplaceAll_byte (rev1.ReplaceAll_byte s "_" "__") "/" "_").
Proof.
  unfold rev1.AttachmentFilename.
  by rewrite prefix_append, string_drop_append.
Qed.

Lemma list_ascii_of_string_append (s t : string) :
  list_ascii_of_string (s +:+ t)
  = list_ascii_of_string s ++ list_ascii_of_string t.
Proof.
  induction s as [| c s IH]; [done |].
  rewrite append_cons. cbn [list_ascii_of_string]. by rewrite IH.
Qed.

Lemma ReplaceAll_separator_absent (s : string) :
  ¬ In "/"%char (list_ascii_of_string (rev1.ReplaceAll_byte s "/" "_")).
Proof.
  induction s as [| c s IH]; [exact (fun H => H) |].
  cbn [rev1.ReplaceAll_byte].
  destruct (Ascii.eqb_spec c "/") as [-> | Hne].
  - rewrite append_cons, append_nil. cbn [list_ascii_of_string].
    intros [[=] | H]; by apply IH.
  - cbn [list_ascii_of_string]. intros [-> | H]; [done | by apply IH].
Qed.

(** X23.  The file name that [AttachmentFilename] gives holds no path separator:
    it names an entry of the download directory itself. *)
Lemma AttachmentFilename_no_separator (link name : string) :
  rev1.AttachmentFilename link = Some name →
  ¬ In "/"%char (list_ascii_of_string name).
Proof.
  unfold rev1.AttachmentFilename.
  destruct (negb (String.prefix rev1.AttachmentLinkPrefix link)); [done |].
  intros H. apply (inj Some) in H. rewrite <- H.
  apply ReplaceAll_separator_absent.
Qed.

Lemma AttachmentFilename_no_separator_witness :
  ¬ In "/"%char (list_ascii_of_string "a_b__c").
Proof.
  apply (AttachmentFilename_no_separator
           (rev1.AttachmentLinkPrefix +:+ "a/b_c")).
  reflexivity.
Defined.

(** X24.  [AttachmentFilename] is not injective: a separator followed by an
    underscore and an underscore followed by a separator give the same three
    underscores, so that two different links can claim one file name. *)
Lemma AttachmentFilename_collision (s t : string) :
  rev1.AttachmentFilename (rev1.AttachmentLinkPrefix +:+ s +:+ "/_" +:+ t)
  = rev1.AttachmentFilename (rev1.AttachmentLinkPrefix +:+ s +:+ "_/" +:+ t)
  ∧ rev1.AttachmentLinkPrefix +:+ s +:+ "/_" +:+ t
    ≠ rev1.AttachmentLinkPrefix +:+ s +:+ "_/" +:+ t.
Proof.
  split.
  - rewrite !AttachmentFilename_tail. f_equal.
    rewrite !ReplaceAll_byte_append. by cbn.
  - intros H. apply append_inj_l in H. apply append_inj_l in H. discriminate.
Qed.

Lemma ReplaceAll_byte_absent (s : string) (old : ascii) (new : string) :
  ¬ In old (list_ascii_of_string s) → rev1.ReplaceAll_byte s old new = s.
Proof.
  induction s as [| c s IH]; [done |].
  cbn [rev1.ReplaceAll_byte list_ascii_of_string In]. intros Hnot.
  destruct (Ascii.eqb_spec c old) as [-> | _]; [tauto |].
  f_equal. apply IH. tauto.
Qed.

Lemma ReplaceAll_separator_cons (c : ascii) (s : string) :
  rev1.ReplaceAll_byte (String c s) "/" "_"
  = String (if Ascii.eqb c "/" then "_"%char else c)
           (rev1.ReplaceAll_byte s "/" "_").
Proof. cbn [rev1.ReplaceAll_byte]. by destruct (Ascii.eqb c "/"). Qed.

Lemma separator_to_underscore_inj (s t : string) :
  ¬ In "_"%char (list_ascii_of_string s) →
  ¬ In "_"%char (list_ascii_of_string t) →
  rev1.ReplaceAll_byte s "/" "_" = rev1.ReplaceAll_byte t "/" "_" → s = t.
Proof.
  revert t. induction s as [| c s IH]; intros [| d t];
    rewrite ?ReplaceAll_separator_cons; cbn [list_ascii_of_string In];
    [done | done | done |].
  intros Hs Ht [= H1 H2].
  assert (c = d) as ->.
  { destruct (Ascii.eqb_spec c "/") as [-> | Hc],
             (Ascii.eqb_spec d "/") as [-> | Hd]; [done | | | done].
    - subst d. tauto.
    - subst c. tauto. }
  f_equal. apply IH; tauto.
Qed.

(** X25.  On links without an underscore [AttachmentFilename] is injective: two
    such links with one file name are the same link. *)
Lemma AttachmentFilename_injective (link1 link2 name : string) :
  ¬ In "_"%char (list_ascii_of_string link1) →
  ¬ In "_"%char (list_ascii_of_string link2) →
  rev1.AttachmentFilename link1 = Some name →
  rev1.AttachmentFilename link2 = Some name →
  link1 = link2.
Proof.
  unfold rev1.AttachmentFilename. intros H1 H2.
  destruct (String.prefix rev1.AttachmentLinkPrefix link1) eqn:Hp1; [| done].
  destruct (String.prefix rev1.AttachmentLinkPrefix link2) eqn:Hp2; [| done].
  cbn [negb]. apply prefix_split in Hp1, Hp2.
  set (t1 := rev1.string_drop (String.length rev1.AttachmentLinkPrefix) link1) in *.
  set (t2 := rev1.string_drop (String.length rev1.AttachmentLinkPrefix) link2) in *.
  assert (Ht1 : ¬ In "_"%char (list_ascii_of_string t1)).
  { intros Hin. apply H1. rewrite Hp1, list_ascii_of_string_append.
    apply in_or_app. by right. }
  assert (Ht2 : ¬ In "_"%char (list_ascii_of_string t2)).
  { intros Hin. apply H2. rewrite Hp2, list_ascii_of_string_append.
    apply in_or_app. by right. }
  rewrite !(ReplaceAll_byte_absent _ "_") by done.
  intros [= <-] [= Heq]. rewrite Hp1, Hp2. f_equal.
  by apply separator_to_underscore_inj.
Qed.

Lemma AttachmentFilename_injective_witness :
  rev1.AttachmentLinkPrefix +:+ "a/b/c.png"
  = rev1.AttachmentLinkPrefix +:+ "a/b/c.png".
Proof.
  apply (AttachmentFilename_injective _ _ "a_b_c.png").
  - vm_compute. intuition discriminate.
  - vm_compute. intuition discriminate.
  - reflexivity.
  - reflexivity.
Defined.
